(** * Dama-Juego: the checkers rules engine of [game.js]

    A shallow embedding of the [CheckersGame] class: the 8x8 board, move
    generation (simple moves, captures, long-range king moves), the
    forced-capture rule, move application with promotion and capture
    chains, and the win test.  DOM rendering, highlighting and animations
    carry no engine state and are left out; of the page only the status
    line and the statistics counters are kept, because [endGame] announces
    the winner through them.

    Conventions.
    - Coordinates are JavaScript numbers holding integers: [Z].
    - [this.board] is an array of eight row arrays created by [initBoard];
      rows are never added or removed afterwards.  The board is a finite
      map from [(row, col)] to the piece object stored there; [null] and
      [undefined] entries are both "no binding".  Reading [this.board[r]]
      for [r] outside [0..7] gives [undefined], and indexing that throws a
      TypeError: such a step yields [None].
    - Every square owns its piece object ([initBoard] allocates one object
      per square and [movePiece] moves the reference), so a piece is
      stored by value. *)

From stdpp Require Import gmap list.
From Stdlib Require Import ZArith Lia.

Open Scope Z_scope.

(** ** Data model *)

(** ["red"] and ["black"]. *)
Inductive Color : Type := red | black.

#[global] Instance Color_eq_dec : EqDecision Color.
Proof. solve_decision. Defined.

(** [{ color, king }] *)
Record Piece : Type := mkPiece { color : Color; king : bool }.

#[global] Instance Piece_eq_dec : EqDecision Piece.
Proof. solve_decision. Defined.

(** [{ row, col }] objects: [selectedSquare], [enemyPos], [move.capture]. *)
Abbreviation Pos := (Z * Z)%type.

(** [{ row, col, capture }] *)
Record Move : Type := mkMove { row : Z; col : Z; capture : option Pos }.

#[global] Instance Move_eq_dec : EqDecision Move.
Proof. solve_decision. Defined.

Abbreviation Board := (gmap (Z * Z) Piece).

(** [this.board[row]] is an array exactly for the eight rows. *)
Definition hasRow (r : Z) : bool := (0 <=? r) && (r <? 8).

(** [this.board[row][col]]: [None] is the TypeError on a missing row. *)
Definition readSquare (b : Board) (r c : Z) : option (option Piece) :=
  if hasRow r then Some (b !! (r, c)) else None.

(** [this.board[row][col] = v] *)
Definition writeSquare (b : Board) (r c : Z) (v : option Piece) : option Board :=
  if hasRow r then Some (partial_alter (λ _, v) (r, c) b) else None.

Definition isValidPosition (r c : Z) : bool :=
  (0 <=? r) && (r <? 8) && (0 <=? c) && (c <? 8).

(** The 64 squares in the order of the nested [for] loops. *)
Definition allSquares : list Pos :=
  r ← seqZ 0 8; c ← seqZ 0 8; [(r, c)].

(** ** Board initialisation *)

Definition placePieces (cl : Color) (rows : list Z) (b : Board) : Board :=
  foldl (λ acc r,
          foldl (λ acc' c,
                  if decide ((r + c) `mod` 2 = 0)
                  then <[(r, c) := mkPiece cl false]> acc' else acc')
                acc (seqZ 0 8))
        b rows.

(** [initBoard]: every square [null], then black on rows 0..2 and red on
    rows 5..7, on the squares with [(row + col) % 2 === 0]. *)
Definition initBoard : Board :=
  placePieces red (seqZ 5 3) (placePieces black (seqZ 0 3) ∅).

(** ** Move generation *)

Definition directions (piece : Piece) : list (Z * Z) :=
  if king piece then [(-1, -1); (-1, 1); (1, -1); (1, 1)]
  else match color piece with
       | red => [(-1, -1); (-1, 1)]
       | black => [(1, -1); (1, 1)]
       end.

(** The [while (true)] loops walk one diagonal and leave by [break] at the
    latest when [isValidPosition] fails.  They are given a round budget;
    [None] means the budget ran out.  From a square of the board the
    eighth test is out of bounds, so [loopBudget] rounds always suffice
    (lemmas [slideLoop_budget] and [captureLoop_budget]). *)
Definition loopBudget : nat := 8.

(** King branch of [getNormalMoves]. *)
Fixpoint slideLoop (fuel : nat) (b : Board) (r c dRow dCol distance : Z)
  : option (list Move) :=
  match fuel with
  | O => None
  | S fuel' =>
      let newRow := r + dRow * distance in
      let newCol := c + dCol * distance in
      if negb (isValidPosition newRow newCol) then Some []
      else if b !! (newRow, newCol) is Some _ then Some []
      else
        rest ← slideLoop fuel' b r c dRow dCol (distance + 1);
        Some (mkMove newRow newCol None :: rest)
  end.

Definition normalDir (b : Board) (piece : Piece) (r c : Z) (d : Z * Z)
  : option (list Move) :=
  let '(dRow, dCol) := d in
  if king piece then slideLoop loopBudget b r c dRow dCol 1
  else
    let newRow := r + dRow in
    let newCol := c + dCol in
    if isValidPosition newRow newCol && bool_decide (b !! (newRow, newCol) = None)
    then Some [mkMove newRow newCol None]
    else Some [].

Definition getNormalMoves (b : Board) (r c : Z) : option (list Move) :=
  sq ← readSquare b r c;
  piece ← (sq : option Piece);
  mjoin <$> mapM (normalDir b piece r c) (directions piece).

(** King branch of [getCaptureMoves]. *)
Fixpoint captureLoop (fuel : nat) (b : Board) (piece : Piece)
    (r c dRow dCol distance : Z) (foundEnemy : bool) (enemyPos : option Pos)
  : option (list Move) :=
  match fuel with
  | O => None
  | S fuel' =>
      let checkRow := r + dRow * distance in
      let checkCol := c + dCol * distance in
      if negb (isValidPosition checkRow checkCol) then Some []
      else
        let currentSquare := b !! (checkRow, checkCol) in
        if negb foundEnemy then
          match currentSquare with
          | None =>
              captureLoop fuel' b piece r c dRow dCol (distance + 1)
                          foundEnemy enemyPos
          | Some other =>
              if bool_decide (color other ≠ color piece)
              then captureLoop fuel' b piece r c dRow dCol (distance + 1)
                               true (Some (checkRow, checkCol))
              else Some []
          end
        else
          match currentSquare with
          | None =>
              rest ← captureLoop fuel' b piece r c dRow dCol (distance + 1)
                                 foundEnemy enemyPos;
              Some (mkMove checkRow checkCol enemyPos :: rest)
          | Some _ => Some []
          end
  end.

Definition captureDir (b : Board) (piece : Piece) (r c : Z) (d : Z * Z)
  : option (list Move) :=
  let '(dRow, dCol) := d in
  if king piece then captureLoop loopBudget b piece r c dRow dCol 1 false None
  else
    let jumpRow := r + dRow in
    let jumpCol := c + dCol in
    let landRow := r + dRow * 2 in
    let landCol := c + dCol * 2 in
    if isValidPosition jumpRow jumpCol && isValidPosition landRow landCol then
      match b !! (jumpRow, jumpCol), b !! (landRow, landCol) with
      | Some jumpedPiece, None =>
          if bool_decide (color jumpedPiece ≠ color piece)
          then Some [mkMove landRow landCol (Some (jumpRow, jumpCol))]
          else Some []
      | _, _ => Some []
      end
    else Some [].

Definition getCaptureMoves (b : Board) (r c : Z) : option (list Move) :=
  sq ← readSquare b r c;
  piece ← (sq : option Piece);
  mjoin <$> mapM (captureDir b piece r c) (directions piece).

Definition getAllCaptureMoves (b : Board) (cl : Color) : option (list Move) :=
  mjoin <$>
    mapM (λ '(r, c),
           match b !! (r, c) with
           | Some piece =>
               if bool_decide (color piece = cl) then
                 captures ← getCaptureMoves b r c;
                 Some (if bool_decide (0 < length captures)%nat
                       then captures else [])
               else Some []
           | None => Some []
           end)
         allSquares.

Definition countPieces (b : Board) (cl : Color) : nat :=
  foldl (λ count (p : Pos),
          match b !! p with
          | Some piece =>
              if bool_decide (color piece = cl) then S count else count
          | None => count
          end)
        0%nat allSquares.

(** ** Game state *)

(** [this.stats.red], [this.stats.black] (the display names are left out). *)
Record PlayerStats : Type :=
  mkPlayerStats { wins : nat; losses : nat; draws : nat }.

Record Stats : Type := mkStats { statsRed : PlayerStats; statsBlack : PlayerStats }.

(** Text of the status line, by the player it names; the last two are
    the texts of the hint button, "Aqui hay un movimiento posible" and
    "No hay movimientos validos disponibles". *)
Inductive Message : Type :=
| Turno (c : Color)
| CapturaMultiple (c : Color)
| Victoria (c : Color)
| Pista
| SinMovimientos.

Record Game : Type := mkGame {
  board : Board;
  currentPlayer : option Color;
  selectedPiece : option Piece;
  selectedSquare : option Pos;
  validMoves : list Move;
  mustCapture : bool;
  continueCapture : bool;
  gameOver : bool;
  stats : Stats;
  statusMessage : Message;
  statusWinner : bool
}.

Definition set_board (v : Board) (g : Game) : Game :=
  mkGame v (currentPlayer g) (selectedPiece g) (selectedSquare g) (validMoves g)
         (mustCapture g) (continueCapture g) (gameOver g) (stats g)
         (statusMessage g) (statusWinner g).
Definition set_currentPlayer (v : option Color) (g : Game) : Game :=
  mkGame (board g) v (selectedPiece g) (selectedSquare g) (validMoves g)
         (mustCapture g) (continueCapture g) (gameOver g) (stats g)
         (statusMessage g) (statusWinner g).
Definition set_selectedPiece (v : option Piece) (g : Game) : Game :=
  mkGame (board g) (currentPlayer g) v (selectedSquare g) (validMoves g)
         (mustCapture g) (continueCapture g) (gameOver g) (stats g)
         (statusMessage g) (statusWinner g).
Definition set_selectedSquare (v : option Pos) (g : Game) : Game :=
  mkGame (board g) (currentPlayer g) (selectedPiece g) v (validMoves g)
         (mustCapture g) (continueCapture g) (gameOver g) (stats g)
         (statusMessage g) (statusWinner g).
Definition set_validMoves (v : list Move) (g : Game) : Game :=
  mkGame (board g) (currentPlayer g) (selectedPiece g) (selectedSquare g) v
         (mustCapture g) (continueCapture g) (gameOver g) (stats g)
         (statusMessage g) (statusWinner g).
Definition set_mustCapture (v : bool) (g : Game) : Game :=
  mkGame (board g) (currentPlayer g) (selectedPiece g) (selectedSquare g)
         (validMoves g) v (continueCapture g) (gameOver g) (stats g)
         (statusMessage g) (statusWinner g).
Definition set_continueCapture (v : bool) (g : Game) : Game :=
  mkGame (board g) (currentPlayer g) (selectedPiece g) (selectedSquare g)
         (validMoves g) (mustCapture g) v (gameOver g) (stats g)
         (statusMessage g) (statusWinner g).
Definition set_gameOver (v : bool) (g : Game) : Game :=
  mkGame (board g) (currentPlayer g) (selectedPiece g) (selectedSquare g)
         (validMoves g) (mustCapture g) (continueCapture g) v (stats g)
         (statusMessage g) (statusWinner g).
Definition set_stats (v : Stats) (g : Game) : Game :=
  mkGame (board g) (currentPlayer g) (selectedPiece g) (selectedSquare g)
         (validMoves g) (mustCapture g) (continueCapture g) (gameOver g) v
         (statusMessage g) (statusWinner g).
Definition set_statusMessage (v : Message) (g : Game) : Game :=
  mkGame (board g) (currentPlayer g) (selectedPiece g) (selectedSquare g)
         (validMoves g) (mustCapture g) (continueCapture g) (gameOver g)
         (stats g) v (statusWinner g).
Definition set_statusWinner (v : bool) (g : Game) : Game :=
  mkGame (board g) (currentPlayer g) (selectedPiece g) (selectedSquare g)
         (validMoves g) (mustCapture g) (continueCapture g) (gameOver g)
         (stats g) (statusMessage g) v.

(** ** Methods: state passing with TypeError *)

(** A method runs on the game object; [None] is an uncaught TypeError. *)
Definition M (A : Type) : Type := Game → option (A * Game).

Definition ret {A} (a : A) : M A := λ g, Some (a, g).
Definition bind {A B} (m : M A) (k : A → M B) : M B :=
  λ g, match m g with
       | Some (a, g') => k a g'
       | None => None
       end.
Definition get : M Game := λ g, Some (g, g).
Definition modify (f : Game → Game) : M unit := λ g, Some (tt, f g).
(** A board computation that may throw. *)
Definition lift {A} (o : option A) : M A :=
  λ g, match o with Some a => Some (a, g) | None => None end.

Notation "x <- m ;; k" := (bind m (λ x, k))
  (at level 100, m at next level, right associativity).
Notation "m ;; k" := (bind m (λ _, k))
  (at level 100, right associativity).

(** State left by a method, when it returns. *)
Definition exec {A} (m : M A) (g : Game) : option Game := snd <$> m g.

Definition getValidMoves (r c : Z) : M (list Move) :=
  g <- get ;;
  sq <- lift (readSquare (board g) r c) ;;
  match sq with
  | None => ret []
  | Some piece =>
      captureMoves <- lift (getCaptureMoves (board g) r c) ;;
      allCaptures <- lift (getAllCaptureMoves (board g) (color piece)) ;;
      if bool_decide (0 < length allCaptures)%nat then
        modify (set_mustCapture true) ;;
        ret captureMoves
      else
        modify (set_mustCapture false) ;;
        normalMoves <- lift (getNormalMoves (board g) r c) ;;
        ret (captureMoves ++ normalMoves)
  end.

Definition selectPiece (r c : Z) : M unit :=
  g <- get ;;
  sq <- lift (readSquare (board g) r c) ;;
  modify (set_selectedPiece sq) ;;
  modify (set_selectedSquare (Some (r, c))) ;;
  (if continueCapture g then
     moves <- lift (getCaptureMoves (board g) r c) ;;
     modify (set_validMoves moves)
   else
     moves <- getValidMoves r c ;;
     modify (set_validMoves moves)).

Definition deselectPiece : M unit :=
  g <- get ;;
  if continueCapture g then ret tt
  else
    modify (set_selectedPiece None) ;;
    modify (set_selectedSquare None) ;;
    modify (set_validMoves []).

Definition isValidMove (r c : Z) (g : Game) : bool :=
  existsb (λ move, bool_decide (row move = r ∧ col move = c)) (validMoves g).

(** [player === "red" ? "black" : "red"] *)
Definition opponent (player : option Color) : Color :=
  if bool_decide (player = Some red) then black else red.

Definition switchPlayer : M unit :=
  g <- get ;;
  modify (set_currentPlayer (Some (opponent (currentPlayer g)))).

Definition getStatusMessage (g : Game) : Message :=
  if gameOver g then statusMessage g
  else Turno (if bool_decide (currentPlayer g = Some red) then red else black).

Definition updateStatusMessage (message : Message) : M unit :=
  modify (set_statusMessage message).

Definition updateUI : M unit :=
  g <- get ;;
  if negb (gameOver g) then updateStatusMessage (getStatusMessage g)
  else ret tt.

(** [this.stats[winner].wins++; this.stats[loser].losses++] *)
Definition statsAfterWin (winner : Color) (st : Stats) : Stats :=
  let won p := mkPlayerStats (S (wins p)) (losses p) (draws p) in
  let lost p := mkPlayerStats (wins p) (S (losses p)) (draws p) in
  match winner with
  | red => mkStats (won (statsRed st)) (lost (statsBlack st))
  | black => mkStats (lost (statsRed st)) (won (statsBlack st))
  end.

Definition recordWin (winner : Color) : M unit :=
  g <- get ;;
  modify (set_stats (statsAfterWin winner (stats g))).

Definition endGame (winner : Color) : M unit :=
  modify (set_gameOver true) ;;
  modify (set_statusMessage (Victoria winner)) ;;
  modify (set_statusWinner true) ;;
  recordWin winner.

(** The nested loops of [playerHasValidMoves], leaving at the first piece
    of [cl] that has a move. *)
Fixpoint playerHasValidMovesFrom (squares : list Pos) (cl : option Color)
  : M bool :=
  match squares with
  | [] => ret false
  | (r, c) :: rest =>
      g <- get ;;
      match board g !! (r, c) with
      | Some piece =>
          if bool_decide (Some (color piece) = cl) then
            moves <- getValidMoves r c ;;
            if bool_decide (0 < length moves)%nat then ret true
            else playerHasValidMovesFrom rest cl
          else playerHasValidMovesFrom rest cl
      | None => playerHasValidMovesFrom rest cl
      end
  end.

Definition playerHasValidMoves (cl : option Color) : M bool :=
  playerHasValidMovesFrom allSquares cl.

Definition checkWinCondition : M unit :=
  g <- get ;;
  let redPieces := countPieces (board g) red in
  let blackPieces := countPieces (board g) black in
  if bool_decide (redPieces = 0%nat) then endGame black
  else if bool_decide (blackPieces = 0%nat) then endGame red
  else
    hasValidMoves <- playerHasValidMoves (currentPlayer g) ;;
    if negb hasValidMoves then
      endGame (opponent (currentPlayer g))
    else ret tt.

(** [this.board[r][c] = v] *)
Definition writeBoard (r c : Z) (v : option Piece) : M unit :=
  g <- get ;;
  b <- lift (writeSquare (board g) r c v) ;;
  modify (set_board b).

(** [piece.king = true] for the piece object just stored at [(r, c)]: the
    board shows the change where it still holds that object (a later
    [null] written to the same square has dropped it).  [selectedPiece]
    may alias the object too, but every path of [movePiece] assigns it
    again before anything reads it. *)
Definition crown (r c : Z) : M unit :=
  g <- get ;;
  modify (set_board (alter (λ p, mkPiece (color p) true) (r, c) (board g))).

Definition findMove (toRow toCol : Z) (moves : list Move) : option Move :=
  find (λ m, bool_decide (row m = toRow ∧ col m = toCol)) moves.

(** The "End turn" lines of [movePiece]; [check] is [checkWinCondition]. *)
Definition endTurn (check : M unit) : M unit :=
  modify (set_continueCapture false) ;;
  deselectPiece ;;
  switchPlayer ;;
  check ;;
  updateUI.

(** The board writes of [movePiece]: the piece goes to the destination,
    the origin and a captured square are cleared.  Returns [wasCapture]. *)
Definition relocate (fromRow fromCol toRow toCol : Z) (piece : option Piece)
    (move : Move) : M bool :=
  writeBoard toRow toCol piece ;;
  writeBoard fromRow fromCol None ;;
  match capture move with
  | Some (capRow, capCol) => writeBoard capRow capCol None ;; ret true
  | None => ret false
  end.

(** The last part of [movePiece], from "Check for additional captures"
    on: after a capture the piece goes on if it can capture again,
    otherwise the turn ends. *)
Definition finishMove (check : M unit) (toRow toCol : Z) (wasCapture : bool)
  : M unit :=
  continues <-
    (if wasCapture then
       g <- get ;;
       additionalCaptures <- lift (getCaptureMoves (board g) toRow toCol) ;;
       if bool_decide (0 < length additionalCaptures)%nat then
         modify (set_continueCapture true) ;;
         selectPiece toRow toCol ;;
         g' <- get ;;
         updateStatusMessage
           (CapturaMultiple
              (if bool_decide (currentPlayer g' = Some red)
               then red else black)) ;;
         ret true
       else ret false
     else ret false) ;;
  if (continues : bool) then ret tt else endTurn check.

Definition movePiece (fromRow fromCol toRow toCol : Z) : M unit :=
  g <- get ;;
  match findMove toRow toCol (validMoves g) with
  | None => ret tt
  | Some move =>
      sq <- lift (readSquare (board g) fromRow fromCol) ;;
      piece <- lift (sq : option Piece) ;;
      wasCapture <- relocate fromRow fromCol toRow toCol (Some piece) move ;;
      let shouldPromote :=
        bool_decide (color piece = red ∧ toRow = 0)
        || bool_decide (color piece = black ∧ toRow = 7) in
      wasPromoted <-
        (if shouldPromote && negb (king piece)
         then crown toRow toCol ;; ret true
         else ret false) ;;
      if (wasPromoted : bool) then endTurn checkWinCondition
      else finishMove checkWinCondition toRow toCol wasCapture
  end.

Definition handleSquareClick (r c : Z) : M unit :=
  g <- get ;;
  if gameOver g then ret tt
  else
    piece <- lift (readSquare (board g) r c) ;;
    if bool_decide (is_Some (selectedPiece g)) && isValidMove r c g then
      sel <- lift (selectedSquare g) ;;
      movePiece sel.1 sel.2 r c
    else
      match piece with
      | Some p =>
          if bool_decide (Some (color p) = currentPlayer g) then
            if continueCapture g
               && match selectedSquare g with
                  | Some sel => bool_decide (sel.1 ≠ r ∨ sel.2 ≠ c)
                  | None => false
                  end
            then ret tt
            else selectPiece r c
          else deselectPiece
      | None => deselectPiece
      end.

Definition resetGame : M unit :=
  modify (set_board ∅) ;;
  modify (set_currentPlayer None) ;;
  modify (set_selectedPiece None) ;;
  modify (set_selectedSquare None) ;;
  modify (set_validMoves []) ;;
  modify (set_mustCapture false) ;;
  modify (set_continueCapture false) ;;
  modify (set_gameOver false) ;;
  modify (set_statusWinner false) ;;
  modify (set_board initBoard) ;;
  updateUI.

(** The scan of [showHint]: the pieces of the side to move that have a
    move, in the order of the nested loops. *)
Fixpoint piecesWithMovesFrom (squares : list Pos) : M (list (Pos * list Move)) :=
  match squares with
  | [] => ret []
  | (r, c) :: rest =>
      g <- get ;;
      match board g !! (r, c) with
      | Some piece =>
          if bool_decide (Some (color piece) = currentPlayer g) then
            moves <- getValidMoves r c ;;
            others <- piecesWithMovesFrom rest ;;
            ret (if bool_decide (0 < length moves)%nat
                 then ((r, c), moves) :: others else others)
          else piecesWithMovesFrom rest
      | None => piecesWithMovesFrom rest
      end
  end.

(** [showHint].  [random] stands for the draw of [Math.random]: the index
    [Math.floor(Math.random() * n)] is [random mod n], so that every
    index below [n] can come up and no other. *)
Definition showHint (random : nat) : M unit :=
  g <- get ;;
  if gameOver g then ret tt
  else
    piecesWithMoves <- piecesWithMovesFrom allSquares ;;
    if bool_decide (0 < length piecesWithMoves)%nat then
      randomPiece <-
        lift (piecesWithMoves !! (random `mod` length piecesWithMoves)%nat) ;;
      selectPiece randomPiece.1.1 randomPiece.1.2 ;;
      updateStatusMessage Pista
    else updateStatusMessage SinMovimientos.

(** The change handler of the "who starts" toggle. *)
Definition toggleStarter (checked : bool) : M unit :=
  modify (set_currentPlayer (Some (if checked then black else red))) ;;
  updateUI.

Definition zeroStats : Stats :=
  mkStats (mkPlayerStats 0 0 0) (mkPlayerStats 0 0 0).

(** [new CheckersGame()]: [saved] is what [loadStats] finds in storage.
    [updateUI] writes the first status line; with [currentPlayer] still
    [null] it names black. *)
Definition construct (saved : option Stats) : Game :=
  mkGame initBoard None None None [] false false false
         (default zeroStats saved) (Turno black) false.

(** The start button.  Its listener stores the new object in
    [window.game] and then goes on through the identifier [game].  That
    identifier is the script's top-level [let game], a binding of its own
    that no statement assigns, so [game.currentPlayer = startingPlayer]
    throws a TypeError: the override of the starting player, and the
    refresh after it, never run.  [startGame] is the game object the page
    is left with, whatever [startingPlayer] was chosen. *)
Definition startGame (saved : option Stats) (startingPlayer : Color) : Game :=
  construct saved.

(** What the page can do to a running game: a click on a square, the
    reset button, a change of the starter toggle, the hint button.  The
    button that resets the statistics changes the counters only and is
    modelled apart ([resetStatsConfirmed]). *)
Inductive Event : Type :=
| Click (r c : Z)
| Reset
| Toggle (checked : bool)
| Hint (random : nat).

Definition handle (e : Event) : M unit :=
  match e with
  | Click r c => handleSquareClick r c
  | Reset => resetGame
  | Toggle checked => toggleStarter checked
  | Hint random => showHint random
  end.

Fixpoint run (es : list Event) (g : Game) : option Game :=
  match es with
  | [] => Some g
  | e :: es' => g' ← exec (handle e) g; run es' g'
  end.

(** Clicks come from the 64 squares drawn by [renderBoard]. *)
Definition onBoard (e : Event) : Prop :=
  match e with
  | Click r c => isValidPosition r c = true
  | _ => True
  end.

(** The states of a session: what the start button leaves, followed by
    any events of the page. *)
Definition reachable (g : Game) : Prop :=
  ∃ saved start es,
    Forall onBoard es ∧ run es (startGame saved start) = Some g.

(** ** The older copy of the engine

    The repository holds a second, older copy of the class.  Its move
    generation, selection and click handling are the same; it has no
    statistics, always starts with red, and its [movePiece] and
    [resetGame] differ. *)
Module Legacy.

Definition endGame (winner : Color) : M unit :=
  modify (set_gameOver true) ;;
  modify (set_statusMessage (Victoria winner)) ;;
  modify (set_statusWinner true).

Definition checkWinCondition : M unit :=
  g <- get ;;
  let redPieces := countPieces (board g) red in
  let blackPieces := countPieces (board g) black in
  if bool_decide (redPieces = 0%nat) then endGame black
  else if bool_decide (blackPieces = 0%nat) then endGame red
  else
    hasValidMoves <- playerHasValidMoves (currentPlayer g) ;;
    if negb hasValidMoves then
      endGame (opponent (currentPlayer g))
    else ret tt.

(** No early return after a promotion: the crowned piece goes through
    the capture-chain test like any other. *)
Definition movePiece (fromRow fromCol toRow toCol : Z) : M unit :=
  g <- get ;;
  match findMove toRow toCol (validMoves g) with
  | None => ret tt
  | Some move =>
      sq <- lift (readSquare (board g) fromRow fromCol) ;;
      wasCapture <- relocate fromRow fromCol toRow toCol sq move ;;
      piece <- lift (sq : option Piece) ;;
      let shouldPromote :=
        bool_decide (color piece = red ∧ toRow = 0)
        || bool_decide (color piece = black ∧ toRow = 7) in
      (if shouldPromote && negb (king piece)
       then crown toRow toCol else ret tt) ;;
      finishMove checkWinCondition toRow toCol wasCapture
  end.

Definition resetGame : M unit :=
  modify (set_board ∅) ;;
  modify (set_currentPlayer (Some red)) ;;
  modify (set_selectedPiece None) ;;
  modify (set_selectedSquare None) ;;
  modify (set_validMoves []) ;;
  modify (set_mustCapture false) ;;
  modify (set_continueCapture false) ;;
  modify (set_gameOver false) ;;
  modify (set_statusWinner false) ;;
  modify (set_board initBoard) ;;
  updateUI.

Definition construct : Game :=
  mkGame initBoard (Some red) None None [] false false false
         zeroStats (Turno red) false.

End Legacy.

(** ** Vocabulary of the statements *)

(** A diagonal step is [-1] or [1] in each coordinate. *)
Definition diagonal (d : Z * Z) : Prop :=
  (d.1 = -1 ∨ d.1 = 1) ∧ (d.2 = -1 ∨ d.2 = 1).

(** Rounds still inside the board when the loop stands at [distance]. *)
Definition roundsLeft (r dRow distance : Z) : Z :=
  if decide (dRow = 1) then 8 - (r + distance) else r - distance + 1.

(** The square [k] steps from [(r, c)] in direction [d]. *)
Definition stepTo (r c : Z) (d : Z * Z) (k : Z) : Pos :=
  (r + d.1 * k, c + d.2 * k).

Definition target (m : Move) : Pos := (row m, col m).

(** A move without capture from [(r, c)]: onto an empty square of the
    board further along a diagonal. *)
Definition simpleOn (b : Board) (r c : Z) (m : Move) : Prop :=
  ∃ d k, diagonal d ∧ 1 <= k ∧ target m = stepTo r c d k ∧
         isValidPosition (row m) (col m) = true ∧
         b !! target m = None ∧ capture m = None.

(** A capture by a piece of colour [cl] from [(r, c)]: over a piece of the
    other colour, onto an empty square beyond it on the same diagonal. *)
Definition captureOn (b : Board) (cl : Color) (r c : Z) (m : Move) : Prop :=
  ∃ d j k e, diagonal d ∧ 1 <= j < k ∧
             target m = stepTo r c d k ∧
             isValidPosition (row m) (col m) = true ∧
             b !! target m = None ∧
             capture m = Some (stepTo r c d j) ∧
             isValidPosition (stepTo r c d j).1 (stepTo r c d j).2 = true ∧
             b !! stepTo r c d j = Some e ∧ color e ≠ cl.

(** The list [getValidMoves] returns, as a function of the board alone
    (the method reads nothing else; lemma [getValidMoves_legalMoves]). *)
Definition boardOnly (b : Board) : Game :=
  mkGame b None None None [] false false false zeroStats (Turno red) false.

Definition legalMoves (b : Board) (r c : Z) : option (list Move) :=
  fst <$> getValidMoves r c (boardOnly b).

(** Some piece of side [cl] has a non-empty list of legal moves. *)
Definition hasLegalMove (b : Board) (cl : option Color) : Prop :=
  ∃ r c piece ms, isValidPosition r c = true ∧ b !! (r, c) = Some piece ∧
                  Some (color piece) = cl ∧ legalMoves b r c = Some ms ∧
                  ms ≠ [].

(** Two states that differ at most in the [mustCapture] flag. *)
Definition sameButMustCapture (g g' : Game) : Prop :=
  ∃ v, g' = set_mustCapture v g.

(** [endGame winner] has run on top of [g]. *)
Definition declared (winner : Color) (g g' : Game) : Prop :=
  gameOver g' = true ∧ statusMessage g' = Victoria winner ∧
  statusWinner g' = true ∧ stats g' = statsAfterWin winner (stats g).

(** The other side. *)
Definition rival (side : Color) : Color :=
  match side with
  | red => black
  | black => red
  end.

(** Side [cl] has no piece on the 8x8 grid. *)
Definition noPieces (b : Board) (cl : Color) : Prop :=
  ∀ r c piece, isValidPosition r c = true → b !! (r, c) = Some piece →
               color piece ≠ cl.

(** The counters a win of [winner] has no business with: the winner's
    losses, the loser's wins, and the draws of both. *)
Definition otherCounters (winner : Color) (st : Stats) : list nat :=
  match winner with
  | red => [losses (statsRed st); draws (statsRed st);
            wins (statsBlack st); draws (statsBlack st)]
  | black => [wins (statsRed st); draws (statsRed st);
              losses (statsBlack st); draws (statsBlack st)]
  end.

(** [winner] has been declared on top of [g]: the game is over, the
    status line announces the victory in its winner style, and the
    counters a win of [winner] has no business with are as in [g]. *)
Definition victory (winner : Color) (g g' : Game) : Prop :=
  gameOver g' = true ∧ statusMessage g' = Victoria winner ∧
  statusWinner g' = true ∧
  otherCounters winner (stats g') = otherCounters winner (stats g).

(** No winner has been set on top of [g]. *)
Definition undecided (g g' : Game) : Prop :=
  gameOver g' = gameOver g ∧ stats g' = stats g ∧
  statusWinner g' = statusWinner g.

(** The outcome of the win test on board [b] with [toMove] to play. *)
Definition termination (b : Board) (toMove : option Color) (g g' : Game) : Prop :=
  if decide (countPieces b red = 0%nat) then declared black g g'
  else if decide (countPieces b black = 0%nat) then declared red g g'
  else (¬ hasLegalMove b toMove → declared (opponent toMove) g g') ∧
       (hasLegalMove b toMove → undecided g g').

(** The turn is over: nothing selected, no chain, the other side to move,
    and the win test applied to the new position. *)
Definition turnEnded (g g' : Game) : Prop :=
  continueCapture g' = false ∧ selectedPiece g' = None ∧
  selectedSquare g' = None ∧ validMoves g' = [] ∧
  currentPlayer g' = Some (opponent (currentPlayer g)) ∧
  termination (board g') (currentPlayer g') g g'.

(** The turn goes on with the piece now on [to], which must play one of
    [caps]. *)
Definition chained (to : Pos) (caps : list Move) (g g' : Game) : Prop :=
  continueCapture g' = true ∧ selectedSquare g' = Some to ∧
  selectedPiece g' = board g' !! to ∧ validMoves g' = caps ∧
  currentPlayer g' = currentPlayer g ∧ undecided g g'.

(** The move crowns the piece: it reaches its far row and is no king. *)
Definition promotes (piece : Piece) (toRow : Z) : bool :=
  (bool_decide (color piece = red ∧ toRow = 0)
   || bool_decide (color piece = black ∧ toRow = 7))
  && negb (king piece).

(** The board after the three writes of [movePiece] ... *)
Definition boardMoved (b : Board) (fr fc : Z) (piece : Piece) (m : Move) : Board :=
  let b1 := <[target m := piece]> b in
  let b2 := delete (fr, fc) b1 in
  match capture m with Some cp => delete cp b2 | None => b2 end.

(** ... and after the promotion test. *)
Definition boardAfter (b : Board) (fr fc : Z) (piece : Piece) (m : Move) : Board :=
  if promotes piece (row m)
  then alter (λ p, mkPiece (color p) true) (target m) (boardMoved b fr fc piece m)
  else boardMoved b fr fc piece m.

(** What makes a stored move safe to apply from [(fr, fc)]: rows exist,
    the landing square is another square, and a captured square is a
    third one. *)
Definition applicable (fr fc : Z) (m : Move) : Prop :=
  hasRow fr = true ∧ hasRow (row m) = true ∧ target m ≠ (fr, fc) ∧
  match capture m with
  | Some cp => hasRow cp.1 = true ∧ cp ≠ target m ∧ cp ≠ (fr, fc)
  | None => True
  end.

(** The fields an ended turn resets, before the win test. *)
Definition turnReset (g : Game) : Game :=
  set_currentPlayer (Some (opponent (currentPlayer g)))
    (set_validMoves [] (set_selectedSquare None (set_selectedPiece None
       (set_continueCapture false g)))).

(** [validMoves] is the list [selectPiece] computes for the piece on
    [(fr, fc)] of the current board: its captures during a chain, the
    forced-capture list otherwise. *)
Definition computedFor (g : Game) (fr fc : Z) : Prop :=
  getCaptureMoves (board g) fr fc = Some (validMoves g) ∨
  legalMoves (board g) fr fc = Some (validMoves g).

(** Every piece stands on a square of the 8x8 grid with [row + col] even. *)
Definition darkBoard (b : Board) : Prop :=
  ∀ r c piece, b !! (r, c) = Some piece →
               isValidPosition r c = true ∧ (r + c) `mod` 2 = 0.

(** ** Sample positions *)

(** The fresh game, without saved statistics, once the starter toggle has
    given red the turn (lemma [opening_start]). *)
Definition opening : Game :=
  mkGame initBoard (Some red) None None [] false false false
         zeroStats (Turno red) false.

(** [opening] after a click on the red piece of (5,1). *)
Definition openingSelected : Game :=
  set_validMoves [mkMove 4 0 None; mkMove 4 2 None]
    (set_selectedSquare (Some (5, 1))
       (set_selectedPiece (Some (mkPiece red false)) opening)).

(** A running game on board [b] with [player] to move and nothing selected. *)
Definition position (b : Board) (player : Color) : Game :=
  mkGame b (Some player) None None [] false false false
         zeroStats (Turno player) false.

(** A red piece on (5,1) that can jump (4,2) and then (2,4). *)
Definition doubleJumpBoard : Board :=
  <[(5, 1) := mkPiece red false]>
    (<[(4, 2) := mkPiece black false]>
       (<[(2, 4) := mkPiece black false]>
          (<[(0, 0) := mkPiece black false]> ∅))).

(** A red piece on (2,2) that reaches row 0 by jumping (1,3); from (0,4)
    a king could go on and jump (1,5). *)
Definition crowningBoard : Board :=
  <[(2, 2) := mkPiece red false]>
    (<[(1, 3) := mkPiece black false]>
       (<[(1, 5) := mkPiece black false]>
          (<[(7, 7) := mkPiece red false]> ∅))).

(** The position with the piece on [(r, c)] selected by a click. *)
Definition selectedAt (b : Board) (player : Color) (r c : Z) : Game :=
  default (position b player) (exec (handleSquareClick r c) (position b player)).

Definition doubleJumpSelected : Game := selectedAt doubleJumpBoard red 5 1.

Definition crowningSelected : Game := selectedAt crowningBoard red 2 2.

(** The stored moves belong to the selection: either none are stored, or
    they are the ones computed for the selected square. *)
Definition consistent (g : Game) : Prop :=
  validMoves g = [] ∨
  ∃ r c, selectedSquare g = Some (r, c) ∧ computedFor g r c.

(** The squares at distances [lo <= i < hi] from [(r, c)] in direction [d]
    are on the board and empty. *)
Definition emptyRun (b : Board) (r c : Z) (d : Z * Z) (lo hi : Z) : Prop :=
  ∀ i, lo <= i < hi →
       isValidPosition (stepTo r c d i).1 (stepTo r c d i).2 = true ∧
       b !! stepTo r c d i = None.

(** The square at distance [k] is off the board or occupied. *)
Definition stopsAt (b : Board) (r c : Z) (d : Z * Z) (k : Z) : Prop :=
  isValidPosition (stepTo r c d k).1 (stepTo r c d k).2 = false ∨
  is_Some (b !! stepTo r c d k).

(** Capture moves over [enemy] landing at distances [k, k+1, .., k+n-1]. *)
Definition landings (r c : Z) (d : Z * Z) (enemy : Pos) (k n : Z) : list Move :=
  (λ i, mkMove (stepTo r c d i).1 (stepTo r c d i).2 (Some enemy)) <$> seqZ k n.

(** What [getCaptureMoves] collects in direction [d]. *)
Definition captureRay (b : Board) (piece : Piece) (r c : Z) (d : Z * Z)
  : list Move :=
  default [] (captureDir b piece r c d).

(** A red king on (0,0) with a black piece on (3,3) and the rest of the
    long diagonal empty. *)
Definition longDiagonalBoard : Board :=
  <[(0, 0) := mkPiece red true]> (<[(3, 3) := mkPiece black false]> ∅).

(** The capture set of side [cl] is non-empty. *)
Definition captureSetNonEmpty (b : Board) (cl : Color) : Prop :=
  ∃ alls, getAllCaptureMoves b cl = Some alls ∧ alls ≠ [].

(** Every legal-move list of side [cl] contains only capture moves (an
    empty list does so trivially). *)
Definition onlyCaptures (b : Board) (cl : Color) : Prop :=
  ∀ r c piece ms m,
    isValidPosition r c = true → b !! (r, c) = Some piece → color piece = cl →
    legalMoves b r c = Some ms → m ∈ ms → is_Some (capture m).

(** A game played from [opening] by clicks alone: 26 turns, after which
    red's last piece, on (5,7), is blocked by the black king on (4,6). *)
Definition blockedClicks : list Event :=
  [Click 5 5; Click 4 4; Click 2 4; Click 3 5; Click 5 3; Click 4 2;
   Click 3 5; Click 5 3; Click 6 2; Click 4 4; Click 1 5; Click 2 4;
   Click 7 1; Click 6 2; Click 2 4; Click 3 3; Click 4 2; Click 2 4;
   Click 1 3; Click 3 5; Click 5 3; Click 7 1; Click 7 3; Click 6 2;
   Click 7 1; Click 3 5; Click 6 4; Click 5 3; Click 3 5; Click 6 2;
   Click 4 0; Click 6 0; Click 5 1; Click 4 0; Click 7 3; Click 6 6;
   Click 5 5; Click 7 3; Click 3 7; Click 7 5; Click 6 4; Click 3 7;
   Click 7 3; Click 7 7; Click 6 6; Click 2 6; Click 3 5; Click 6 6;
   Click 5 5; Click 7 3; Click 4 6].

Definition blockedGame : Game := default opening (run blockedClicks opening).

(** The sample game one click before its end: the black king on (7,3) is
    selected, and its jump over (5,5) to (4,6) will leave red without a
    move. *)
Definition lastTurn : Game :=
  default opening (run (take 50 blockedClicks) opening).

(** Six turns of clicks from the opening.  Black has just jumped
    (2,2)->(4,4) over (3,3) and must go on over (5,3) to (6,2); its piece
    on (4,0) could jump (5,1), to (6,2) as well. *)
Definition hintChainClicks : list Event :=
  [Click 5 3; Click 4 4; Click 2 0; Click 3 1; Click 6 2; Click 5 3;
   Click 3 1; Click 4 0; Click 4 4; Click 3 3; Click 2 2; Click 4 4].

Definition hintChain : Game :=
  default opening (run hintChainClicks opening).

(** ** Vocabulary of the further properties *)

(** During a capture chain a square is selected and the stored moves are
    the captures of the piece on it, at least one. *)
Definition pinned (g : Game) : Prop :=
  continueCapture g = true →
  ∃ r c, selectedSquare g = Some (r, c) ∧
         getCaptureMoves (board g) r c = Some (validMoves g) ∧
         validMoves g ≠ [].

(** [selectedPiece] is what the board holds on [selectedSquare]. *)
Definition inSync (g : Game) : Prop :=
  selectedPiece g = (sq ← selectedSquare g; board g !! sq).

(** What every state the page can reach satisfies. *)
Definition sound (g : Game) : Prop :=
  darkBoard (board g) ∧ consistent g ∧ inSync g.

(** While the game runs and no chain is pending, the side to move has a
    legal move. *)
Definition live (g : Game) : Prop :=
  gameOver g = false → continueCapture g = false →
  hasLegalMove (board g) (currentPlayer g).

(** What [showHint] collects for square [p]: the piece on it is of side
    [cl] and has a legal move. *)
Definition candidate (b : Board) (cl : option Color) (p : Pos)
  : option (Pos * list Move) :=
  piece ← b !! p;
  if bool_decide (Some (color piece) = cl) then
    ms ← legalMoves b p.1 p.2;
    if bool_decide (0 < length ms)%nat then Some (p, ms) else None
  else None.

Definition hintCandidates (b : Board) (cl : option Color) (squares : list Pos)
  : list (Pos * list Move) :=
  omap (candidate b cl) squares.

(** Every event but a press of the hint button. *)
Definition noHint (e : Event) : Prop :=
  match e with
  | Hint _ => False
  | _ => True
  end.

Definition isClick (e : Event) : Prop :=
  match e with
  | Click r c => isValidPosition r c = true
  | _ => False
  end.

(** The sample game [blockedClicks] after 20 clicks: black has jumped
    (1,3)->(3,5) and must go on. *)
Definition midChain : Game := default opening (run (take 20 blockedClicks) opening).

(** What square [p] adds to [countPieces b cl]. *)
Definition countsAs (b : Board) (cl : Color) (p : Pos) : nat :=
  match b !! p with
  | Some piece => if bool_decide (color piece = cl) then 1%nat else 0%nat
  | None => 0%nat
  end.

(** Pieces a move takes off the board. *)
Definition takes (m : Move) : nat :=
  match capture m with Some _ => 1%nat | None => 0%nat end.

(** The row step of a piece that is no king: red goes up, black down. *)
Definition forward (cl : Color) : Z :=
  match cl with red => -1 | black => 1 end.

(** The move onto the square [k] steps away in direction [d]. *)
Definition moveTo (r c : Z) (d : Z * Z) (k : Z) (cap : option Pos) : Move :=
  mkMove (stepTo r c d k).1 (stepTo r c d k).2 cap.

(** ** Statistics handlers *)





(** The standard layout: black on rows 0..2, red on rows 5..7. *)
Definition layout (r c : Z) : option Piece :=
  if isValidPosition r c && bool_decide ((r + c) `mod` 2 = 0) then
    if r <? 3 then Some (mkPiece black false)
    else if 4 <? r then Some (mkPiece red false)
    else None
  else None.

(** The three ways a click can go. *)
Inductive ClickOutcome (g : Game) (r c : Z) (g' : Game) : Prop :=
| Ignored : g' = g → ClickOutcome g r c g'
| Moved sr sc m :
    selectedSquare g = Some (sr, sc) → computedFor g sr sc →
    findMove r c (validMoves g) = Some m →
    movePiece sr sc r c g = Some (tt, g') →
    ClickOutcome g r c g'
| Selected p :
    isValidMove r c g = false ∨ selectedPiece g = None →
    board g !! (r, c) = Some p → Some (color p) = currentPlayer g →
    selectPiece r c g = Some (tt, g') →
    (continueCapture g = true → selectedSquare g = Some (r, c) ∨
                                 selectedSquare g = None) →
    ClickOutcome g r c g'
| Deselected :
    isValidMove r c g = false ∨ selectedPiece g = None →
    continueCapture g = false →
    deselectPiece g = Some (tt, g') →
    ClickOutcome g r c g'.

(** * Verification *)

(** ** Positions *)

Lemma isValidPosition_spec r c :
  isValidPosition r c = true ↔ 0 <= r < 8 ∧ 0 <= c < 8.
Proof. unfold isValidPosition. rewrite !andb_true_iff. lia. Qed.

Lemma isValidPosition_false r c :
  isValidPosition r c = false ↔ ¬ (0 <= r < 8 ∧ 0 <= c < 8).
Proof.
  rewrite <- isValidPosition_spec. destruct (isValidPosition r c); naive_solver.
Qed.

Lemma hasRow_spec r : hasRow r = true ↔ 0 <= r < 8.
Proof. unfold hasRow. rewrite andb_true_iff. lia. Qed.

Lemma isValidPosition_hasRow r c : isValidPosition r c = true → hasRow r = true.
Proof. rewrite isValidPosition_spec, hasRow_spec. lia. Qed.

Lemma elem_of_allSquares r c :
  (r, c) ∈ allSquares ↔ isValidPosition r c = true.
Proof.
  rewrite isValidPosition_spec. unfold allSquares.
  rewrite list_elem_of_bind. split.
  - intros (r' & Hc & Hr). apply list_elem_of_bind in Hc as (c' & Hc & Hc').
    apply list_elem_of_singleton in Hc. inversion Hc; subst.
    apply elem_of_seqZ in Hr, Hc'. lia.
  - intros [Hr Hc]. exists r. split; [|apply elem_of_seqZ; lia].
    apply list_elem_of_bind. exists c. split; [|apply elem_of_seqZ; lia].
    by apply list_elem_of_singleton.
Qed.

Lemma directions_diagonal piece d : d ∈ directions piece → diagonal d.
Proof.
  unfold directions, diagonal.
  destruct (king piece), (color piece); intros Hd;
    repeat (apply elem_of_cons in Hd as [->|Hd]); try (simpl; lia);
    by apply elem_of_nil in Hd.
Qed.

(** ** The loops end within their budget *)

Lemma roundsLeft_valid r c dRow dCol distance :
  dRow = -1 ∨ dRow = 1 →
  isValidPosition (r + dRow * distance) (c + dCol * distance) = true →
  0 < roundsLeft r dRow distance ∧
  roundsLeft r dRow (distance + 1) = roundsLeft r dRow distance - 1.
Proof.
  intros Hd Hv%isValidPosition_spec. unfold roundsLeft.
  case_decide; lia.
Qed.

Lemma roundsLeft_start r dRow :
  hasRow r = true → roundsLeft r dRow 1 < Z.of_nat loopBudget.
Proof.
  intros Hr%hasRow_spec. unfold roundsLeft, loopBudget. case_decide; lia.
Qed.

Lemma slideLoop_enough fuel b r c dRow dCol distance :
  dRow = -1 ∨ dRow = 1 →
  Z.max 0 (roundsLeft r dRow distance) < Z.of_nat fuel →
  is_Some (slideLoop fuel b r c dRow dCol distance).
Proof.
  intros Hd. revert distance.
  induction fuel as [|fuel IH]; intros distance Hfuel; [lia|].
  simpl.
  destruct (isValidPosition _ _) eqn:Hv; simpl; [|by eexists].
  destruct (b !! _); [by eexists|].
  destruct (roundsLeft_valid r c dRow dCol distance Hd Hv) as [Hpos Hnext].
  destruct (IH (distance + 1)) as [rest ->]; [lia|].
  by eexists.
Qed.

Lemma slideLoop_budget b r c d :
  hasRow r = true → diagonal d →
  is_Some (slideLoop loopBudget b r c d.1 d.2 1).
Proof.
  intros Hr [Hd _]. apply slideLoop_enough; [done|].
  pose proof (roundsLeft_start r d.1 Hr). unfold loopBudget in *. lia.
Qed.

Lemma captureLoop_enough fuel b piece r c dRow dCol distance found enemy :
  dRow = -1 ∨ dRow = 1 →
  Z.max 0 (roundsLeft r dRow distance) < Z.of_nat fuel →
  is_Some (captureLoop fuel b piece r c dRow dCol distance found enemy).
Proof.
  intros Hd. revert distance found enemy.
  induction fuel as [|fuel IH]; intros distance found enemy Hfuel; [lia|].
  simpl.
  destruct (isValidPosition _ _) eqn:Hv; simpl; [|by eexists].
  destruct (roundsLeft_valid r c dRow dCol distance Hd Hv) as [Hpos Hnext].
  destruct found; simpl.
  - destruct (b !! _); [by eexists|].
    destruct (IH (distance + 1) true enemy) as [rest ->]; [lia|].
    by eexists.
  - destruct (b !! _) as [other|].
    + case_bool_decide; [|by eexists]. apply IH. lia.
    + apply IH. lia.
Qed.

Lemma captureLoop_budget b piece r c d :
  hasRow r = true → diagonal d →
  is_Some (captureLoop loopBudget b piece r c d.1 d.2 1 false None).
Proof.
  intros Hr [Hd _]. apply captureLoop_enough; [done|].
  pose proof (roundsLeft_start r d.1 Hr). unfold loopBudget in *. lia.
Qed.

(** ** What the generated moves look like *)

Lemma mapM_join_is_Some {A B} (f : A → option (list B)) (l : list A) :
  (∀ a, a ∈ l → is_Some (f a)) → is_Some (mjoin <$> mapM f l).
Proof.
  intros Hf. apply fmap_is_Some, mapM_is_Some, Forall_forall. exact Hf.
Qed.

Lemma mapM_join_elem {A B} (f : A → option (list B)) (l : list A) ms x :
  mjoin <$> mapM f l = Some ms → x ∈ ms →
  ∃ a ys, a ∈ l ∧ f a = Some ys ∧ x ∈ ys.
Proof.
  intros Hms Hx. apply fmap_Some in Hms as (yss & Hyss & ->).
  apply list_elem_of_join in Hx as (ys & Hx & Hys).
  apply mapM_Some in Hyss.
  apply list_elem_of_lookup in Hys as [i Hi].
  destruct (Forall2_lookup_r _ _ _ _ _ Hyss Hi) as (a & Ha & Hfa).
  exists a, ys. split_and!; [by eapply list_elem_of_lookup_2| done | done].
Qed.

Lemma slideLoop_moves fuel b r c d distance ms :
  diagonal d → 1 <= distance →
  slideLoop fuel b r c d.1 d.2 distance = Some ms →
  ∀ m, m ∈ ms → simpleOn b r c m.
Proof.
  intros Hd. revert distance ms.
  induction fuel as [|fuel IH]; intros distance ms Hdist Hrun; [done|].
  simpl in Hrun.
  destruct (isValidPosition _ _) eqn:Hv; simpl in Hrun;
    [|inversion Hrun; intros m Hm; by apply elem_of_nil in Hm].
  destruct (b !! _) eqn:Hsq;
    [inversion Hrun; intros m Hm; by apply elem_of_nil in Hm|].
  destruct (slideLoop fuel _ _ _ _ _ _) as [rest|] eqn:Hrest; [|done].
  inversion Hrun; subst ms. intros m [->|Hm]%elem_of_cons.
  - exists d, distance. by split_and!.
  - eapply (IH (distance + 1)); [lia|done|done].
Qed.

Lemma normalDir_moves b piece r c d ms :
  diagonal d → normalDir b piece r c d = Some ms →
  ∀ m, m ∈ ms → simpleOn b r c m.
Proof.
  intros Hd. unfold normalDir. destruct d as [dRow dCol].
  destruct (king piece).
  - intros Hrun.
    eapply (slideLoop_moves _ _ _ _ (dRow, dCol) 1); [done|lia|exact Hrun].
  - destruct (isValidPosition _ _) eqn:Hv; simpl;
      [|intros [= <-] m Hm; by apply elem_of_nil in Hm].
    case_bool_decide as Hsq; simpl;
      [|intros [= <-] m Hm; by apply elem_of_nil in Hm].
    intros [= <-] m ->%list_elem_of_singleton.
    exists (dRow, dCol), 1. unfold target, stepTo; simpl.
    rewrite !Z.mul_1_r. by split_and!.
Qed.

Lemma captureLoop_moves fuel b piece r c d distance found enemy ms :
  diagonal d → 1 <= distance →
  (found = true →
   ∃ j e, 1 <= j < distance ∧ enemy = Some (stepTo r c d j) ∧
          isValidPosition (stepTo r c d j).1 (stepTo r c d j).2 = true ∧
          b !! stepTo r c d j = Some e ∧ color e ≠ color piece) →
  captureLoop fuel b piece r c d.1 d.2 distance found enemy = Some ms →
  ∀ m, m ∈ ms → captureOn b (color piece) r c m.
Proof.
  intros Hd. revert distance found enemy ms.
  induction fuel as [|fuel IH]; intros distance found enemy ms Hdist Henemy Hrun;
    [done|].
  simpl in Hrun.
  destruct (isValidPosition _ _) eqn:Hv; simpl in Hrun;
    [|inversion Hrun; intros m Hm; by apply elem_of_nil in Hm].
  destruct found; simpl in Hrun.
  - destruct (b !! _) eqn:Hsq;
      [inversion Hrun; intros m Hm; by apply elem_of_nil in Hm|].
    destruct (captureLoop fuel _ _ _ _ _ _ _ _ _) as [rest|] eqn:Hrest; [|done].
    inversion Hrun; subst ms. intros m [->|Hm]%elem_of_cons.
    + destruct Henemy as (j & e & Hj & -> & Hjv & Hje & Hcol); [done|].
      exists d, j, distance, e. split_and!; try done; lia.
    + eapply (IH (distance + 1)); [lia| |done|done].
      intros _. destruct Henemy as (j & e & Hj & He); [done|].
      exists j, e. split; [lia|done].
  - destruct (b !! _) as [other|] eqn:Hsq.
    + case_bool_decide as Hcol;
        [|inversion Hrun; intros m Hm; by apply elem_of_nil in Hm].
      eapply (IH (distance + 1)); [lia| |done].
      intros _. exists distance, other. split_and!; try done; lia.
    + eapply (IH (distance + 1)); [lia| |done]. done.
Qed.

Lemma captureDir_moves b piece r c d ms :
  diagonal d → captureDir b piece r c d = Some ms →
  ∀ m, m ∈ ms → captureOn b (color piece) r c m.
Proof.
  intros Hd. unfold captureDir. destruct d as [dRow dCol].
  destruct (king piece).
  - intros Hrun.
    eapply (captureLoop_moves _ _ _ _ _ (dRow, dCol) 1 false None);
      [done|lia|done|exact Hrun].
  - destruct (isValidPosition (r + dRow) _) eqn:Hv1; simpl;
      [|intros [= <-] m Hm; by apply elem_of_nil in Hm].
    destruct (isValidPosition (r + dRow * 2) _) eqn:Hv2; simpl;
      [|intros [= <-] m Hm; by apply elem_of_nil in Hm].
    destruct (b !! (r + dRow, _)) as [jumped|] eqn:Hj;
      [|intros [= <-] m Hm; by apply elem_of_nil in Hm].
    destruct (b !! (r + dRow * 2, _)) eqn:Hl;
      [intros [= <-] m Hm; by apply elem_of_nil in Hm|].
    case_bool_decide as Hcol;
      [|intros [= <-] m Hm; by apply elem_of_nil in Hm].
    intros [= <-] m ->%list_elem_of_singleton.
    exists (dRow, dCol), 1, 2, jumped. unfold target, stepTo; simpl.
    rewrite !Z.mul_1_r. split_and!; try done; lia.
Qed.

Lemma readSquare_Some b r c :
  hasRow r = true → readSquare b r c = Some (b !! (r, c)).
Proof. unfold readSquare. by intros ->. Qed.

Lemma readSquare_inv b r c sq :
  readSquare b r c = Some sq → hasRow r = true ∧ sq = b !! (r, c).
Proof. unfold readSquare. destruct (hasRow r); naive_solver. Qed.

Lemma getNormalMoves_unfold b r c piece :
  hasRow r = true → b !! (r, c) = Some piece →
  getNormalMoves b r c = mjoin <$> mapM (normalDir b piece r c) (directions piece).
Proof.
  intros Hr Hp. unfold getNormalMoves. rewrite readSquare_Some by done.
  simpl. by rewrite Hp.
Qed.

Lemma getCaptureMoves_unfold b r c piece :
  hasRow r = true → b !! (r, c) = Some piece →
  getCaptureMoves b r c = mjoin <$> mapM (captureDir b piece r c) (directions piece).
Proof.
  intros Hr Hp. unfold getCaptureMoves. rewrite readSquare_Some by done.
  simpl. by rewrite Hp.
Qed.

Lemma getNormalMoves_inv b r c ms :
  getNormalMoves b r c = Some ms →
  ∃ piece, hasRow r = true ∧ b !! (r, c) = Some piece.
Proof.
  unfold getNormalMoves. intros H.
  apply bind_Some in H as (sq & [Hr ->]%readSquare_inv & H).
  apply bind_Some in H as (piece & Hp & _). eauto.
Qed.

Lemma getCaptureMoves_inv b r c ms :
  getCaptureMoves b r c = Some ms →
  ∃ piece, hasRow r = true ∧ b !! (r, c) = Some piece.
Proof.
  unfold getCaptureMoves. intros H.
  apply bind_Some in H as (sq & [Hr ->]%readSquare_inv & H).
  apply bind_Some in H as (piece & Hp & _). eauto.
Qed.

Lemma normalDir_total b piece r c d :
  hasRow r = true → diagonal d → is_Some (normalDir b piece r c d).
Proof.
  intros Hr Hd. unfold normalDir. destruct d as [dRow dCol].
  destruct (king piece).
  - by apply (slideLoop_budget b r c (dRow, dCol)).
  - by destruct (_ && _).
Qed.

Lemma captureDir_total b piece r c d :
  hasRow r = true → diagonal d → is_Some (captureDir b piece r c d).
Proof.
  intros Hr Hd. unfold captureDir. destruct d as [dRow dCol].
  destruct (king piece).
  - by apply (captureLoop_budget b piece r c (dRow, dCol)).
  - repeat case_match; by eexists.
Qed.

(** On a square that holds a piece the generators return. *)
Lemma getNormalMoves_total b r c piece :
  hasRow r = true → b !! (r, c) = Some piece → is_Some (getNormalMoves b r c).
Proof.
  intros Hr Hp. rewrite (getNormalMoves_unfold _ _ _ piece) by done.
  apply mapM_join_is_Some. intros d Hd.
  apply normalDir_total; [done|]. by eapply directions_diagonal.
Qed.

Lemma getCaptureMoves_total b r c piece :
  hasRow r = true → b !! (r, c) = Some piece → is_Some (getCaptureMoves b r c).
Proof.
  intros Hr Hp. rewrite (getCaptureMoves_unfold _ _ _ piece) by done.
  apply mapM_join_is_Some. intros d Hd.
  apply captureDir_total; [done|]. by eapply directions_diagonal.
Qed.

Lemma getNormalMoves_moves b r c ms m :
  getNormalMoves b r c = Some ms → m ∈ ms → simpleOn b r c m.
Proof.
  intros Hms Hm. destruct (getNormalMoves_inv _ _ _ _ Hms) as (piece & Hr & Hp).
  rewrite (getNormalMoves_unfold _ _ _ piece) in Hms by done.
  destruct (mapM_join_elem _ _ _ _ Hms Hm) as (d & ys & Hd & Hys & Hmy).
  eapply normalDir_moves; [by eapply directions_diagonal|done|done].
Qed.

Lemma getCaptureMoves_moves b r c piece ms m :
  b !! (r, c) = Some piece →
  getCaptureMoves b r c = Some ms → m ∈ ms → captureOn b (color piece) r c m.
Proof.
  intros Hp Hms Hm. destruct (getCaptureMoves_inv _ _ _ _ Hms) as (piece' & Hr & Hp').
  rewrite (getCaptureMoves_unfold _ _ _ piece) in Hms by done.
  destruct (mapM_join_elem _ _ _ _ Hms Hm) as (d & ys & Hd & Hys & Hmy).
  eapply captureDir_moves; [by eapply directions_diagonal|done|done].
Qed.

Lemma getAllCaptureMoves_total b cl : is_Some (getAllCaptureMoves b cl).
Proof.
  unfold getAllCaptureMoves. apply mapM_join_is_Some.
  intros [r c] Hrc%elem_of_allSquares.
  destruct (b !! (r, c)) as [piece|] eqn:Hp; [|by eexists].
  case_bool_decide; [|by eexists].
  destruct (getCaptureMoves_total b r c piece) as [caps ->];
    [by eapply isValidPosition_hasRow|done|].
  by eexists.
Qed.

(** A side's capture set is the captures of its pieces. *)
Lemma getAllCaptureMoves_elem b cl ms m :
  getAllCaptureMoves b cl = Some ms →
  m ∈ ms ↔
  ∃ r c piece caps, isValidPosition r c = true ∧ b !! (r, c) = Some piece ∧
                    color piece = cl ∧ getCaptureMoves b r c = Some caps ∧
                    m ∈ caps.
Proof.
  unfold getAllCaptureMoves. intros Hms. split.
  - intros Hm.
    destruct (mapM_join_elem _ _ _ _ Hms Hm) as ([r c] & ys & Hrc & Hys & Hmy).
    apply elem_of_allSquares in Hrc.
    destruct (b !! (r, c)) as [piece|] eqn:Hp;
      [|inversion Hys; subst; by apply elem_of_nil in Hmy].
    case_bool_decide as Hcl;
      [|inversion Hys; subst; by apply elem_of_nil in Hmy].
    destruct (getCaptureMoves b r c) as [caps|] eqn:Hcaps; [|done].
    simpl in Hys. inversion Hys; subst ys.
    case_bool_decide; [|by apply elem_of_nil in Hmy].
    exists r, c, piece, caps. by split_and!.
  - intros (r & c & piece & caps & Hv & Hp & Hcl & Hcaps & Hm).
    apply fmap_Some in Hms as (yss & Hyss & ->).
    apply list_elem_of_join. exists caps. split; [done|].
    apply mapM_Some in Hyss.
    apply elem_of_allSquares, list_elem_of_lookup in Hv as [i Hi].
    destruct (Forall2_lookup_l _ _ _ _ _ Hyss Hi) as (ys & Hys & Hf).
    simpl in Hf. rewrite Hp, bool_decide_eq_true_2, Hcaps in Hf by done.
    simpl in Hf. rewrite bool_decide_eq_true_2 in Hf.
    + inversion Hf; subst. by eapply list_elem_of_lookup_2.
    + destruct caps; [by apply elem_of_nil in Hm|simpl; lia].
Qed.

(** ** Methods *)

Ltac munfold := unfold bind, ret, get, modify, lift in *.

(** The scans over the 64 squares are not to be unfolded by [simpl]. *)
#[local] Arguments allSquares : simpl never.
#[local] Arguments countPieces : simpl never.
#[local] Arguments initBoard : simpl never.
#[local] Arguments getAllCaptureMoves : simpl never.
#[local] Arguments getCaptureMoves : simpl never.
#[local] Arguments getNormalMoves : simpl never.
#[local] Arguments getValidMoves : simpl never.
#[local] Arguments playerHasValidMoves : simpl never.
#[local] Arguments checkWinCondition : simpl never.
#[local] Arguments legalMoves : simpl never.
#[local] Opaque allSquares countPieces.

Lemma set_mustCapture_id g : set_mustCapture (mustCapture g) g = g.
Proof. by destruct g. Qed.

Lemma sameButMustCapture_refl g : sameButMustCapture g g.
Proof. exists (mustCapture g). by rewrite set_mustCapture_id. Qed.

Lemma sameButMustCapture_trans g1 g2 g3 :
  sameButMustCapture g1 g2 → sameButMustCapture g2 g3 → sameButMustCapture g1 g3.
Proof. intros [v ->] [w ->]. by exists w. Qed.

(** [getValidMoves] on a square with a piece: the forced-capture rule. *)
Lemma getValidMoves_piece g r c piece caps alls :
  hasRow r = true → board g !! (r, c) = Some piece →
  getCaptureMoves (board g) r c = Some caps →
  getAllCaptureMoves (board g) (color piece) = Some alls →
  getValidMoves r c g =
    if bool_decide (0 < length alls)%nat
    then Some (caps, set_mustCapture true g)
    else normalMoves ← getNormalMoves (board g) r c;
         Some (caps ++ normalMoves, set_mustCapture false g).
Proof.
  intros Hr Hp Hcaps Halls. unfold getValidMoves. munfold.
  rewrite readSquare_Some, Hp, Hcaps, Halls by done.
  case_bool_decide; [done|]. simpl.
  by destruct (getNormalMoves _ _ _).
Qed.

Lemma getValidMoves_empty g r c :
  hasRow r = true → board g !! (r, c) = None →
  getValidMoves r c g = Some ([], g).
Proof.
  intros Hr Hp. unfold getValidMoves. munfold.
  by rewrite readSquare_Some, Hp by done.
Qed.

Lemma getValidMoves_total g r c :
  hasRow r = true →
  ∃ ms g', getValidMoves r c g = Some (ms, g') ∧ sameButMustCapture g g'.
Proof.
  intros Hr. destruct (board g !! (r, c)) as [piece|] eqn:Hp.
  - destruct (getCaptureMoves_total _ _ _ _ Hr Hp) as [caps Hcaps].
    destruct (getAllCaptureMoves_total (board g) (color piece)) as [alls Halls].
    destruct (getNormalMoves_total _ _ _ _ Hr Hp) as [norm Hnorm].
    rewrite (getValidMoves_piece _ _ _ _ _ _ Hr Hp Hcaps Halls), Hnorm.
    case_bool_decide; simpl; eexists _, _; (split; [done|]); by eexists.
  - rewrite getValidMoves_empty by done.
    eexists _, _. split; [done|]. apply sameButMustCapture_refl.
Qed.

Lemma getValidMoves_inv g r c ms g' :
  getValidMoves r c g = Some (ms, g') →
  hasRow r = true ∧ sameButMustCapture g g'.
Proof.
  intros Hrun. assert (hasRow r = true) as Hr.
  { unfold getValidMoves in Hrun. munfold.
    destruct (readSquare _ _ _) eqn:Hread; [|done].
    by apply readSquare_inv in Hread as [? _]. }
  split; [done|].
  destruct (getValidMoves_total g r c Hr) as (ms' & g'' & Hrun' & Hsame).
  congruence.
Qed.

(** The returned list depends on the board only. *)
Lemma getValidMoves_legalMoves g r c :
  fst <$> getValidMoves r c g = legalMoves (board g) r c.
Proof.
  unfold legalMoves, getValidMoves. munfold. simpl.
  destruct (readSquare _ _ _) as [[piece|]|]; [|done|done].
  destruct (getCaptureMoves _ _ _); [|done].
  destruct (getAllCaptureMoves _ _); [|done].
  case_bool_decide; [done|]. simpl.
  by destruct (getNormalMoves _ _ _).
Qed.

Lemma getValidMoves_fst g r c ms g' :
  getValidMoves r c g = Some (ms, g') → legalMoves (board g) r c = Some ms.
Proof. intros H. by rewrite <- getValidMoves_legalMoves, H. Qed.

Lemma legalMoves_total b r c : hasRow r = true → is_Some (legalMoves b r c).
Proof.
  intros Hr. destruct (getValidMoves_total (boardOnly b) r c Hr) as (ms & g' & H & _).
  unfold legalMoves. rewrite H. by eexists.
Qed.

Lemma playerHasValidMovesFrom_spec squares cl g :
  (∀ p, p ∈ squares → isValidPosition p.1 p.2 = true) →
  ∃ v g', playerHasValidMovesFrom squares cl g = Some (v, g') ∧
          sameButMustCapture g g' ∧
          (v = true ↔
           ∃ r c piece ms, (r, c) ∈ squares ∧ board g !! (r, c) = Some piece ∧
                           Some (color piece) = cl ∧
                           legalMoves (board g) r c = Some ms ∧ ms ≠ []).
Proof.
  revert g. induction squares as [|[r c] rest IH]; intros g Hsq.
  - exists false, g. split_and!; [done|apply sameButMustCapture_refl|].
    split; [done|]. intros (? & ? & ? & ? & []%elem_of_nil & _).
  - assert (∀ p, p ∈ rest → isValidPosition p.1 p.2 = true) as Hrest.
    { intros p Hp. apply Hsq. by right. }
    assert (hasRow r = true) as Hr.
    { eapply isValidPosition_hasRow, (Hsq (r, c)). by left. }
    simpl. munfold.
    (* the remaining squares, from a state with the same board *)
    assert (∀ g1, sameButMustCapture g g1 →
            ∃ v g', playerHasValidMovesFrom rest cl g1 = Some (v, g') ∧
                    sameButMustCapture g g' ∧
                    (v = true ↔
                     ∃ r0 c0 piece ms, (r0, c0) ∈ rest ∧
                       board g !! (r0, c0) = Some piece ∧
                       Some (color piece) = cl ∧
                       legalMoves (board g) r0 c0 = Some ms ∧ ms ≠ [])) as Hnext.
    { intros g1 Hg1. destruct (IH g1 Hrest) as (v & g' & Hrun & Hsame & Hv).
      exists v, g'. split_and!; [done|by eapply sameButMustCapture_trans|].
      destruct Hg1 as [w ->]. exact Hv. }
    assert (∀ v : bool,
            (v = true ↔
             ∃ r0 c0 piece ms, (r0, c0) ∈ rest ∧
               board g !! (r0, c0) = Some piece ∧ Some (color piece) = cl ∧
               legalMoves (board g) r0 c0 = Some ms ∧ ms ≠ []) →
            ¬ (∃ piece ms, board g !! (r, c) = Some piece ∧
                           Some (color piece) = cl ∧
                           legalMoves (board g) r c = Some ms ∧ ms ≠ []) →
            (v = true ↔
             ∃ r0 c0 piece ms, (r0, c0) ∈ (r, c) :: rest ∧
               board g !! (r0, c0) = Some piece ∧ Some (color piece) = cl ∧
               legalMoves (board g) r0 c0 = Some ms ∧ ms ≠ [])) as Hskip.
    { intros v Hv Hnot. rewrite Hv. split.
      - intros (r0 & c0 & piece & ms & Hin & H). exists r0, c0, piece, ms.
        split; [by right|done].
      - intros (r0 & c0 & piece & ms & [Heq|Hin]%elem_of_cons & H).
        + inversion Heq; subst. destruct Hnot. by exists piece, ms.
        + by exists r0, c0, piece, ms. }
    destruct (board g !! (r, c)) as [piece|] eqn:Hp.
    + case_bool_decide as Hcl.
      * destruct (getValidMoves_total g r c Hr) as (ms & g1 & Hrun & Hsame).
        pose proof (getValidMoves_fst _ _ _ _ _ Hrun) as Hlegal.
        rewrite Hrun. case_bool_decide as Hlen.
        -- exists true, g1. split_and!; [done|done|]. split; [|done].
           intros _. exists r, c, piece, ms. split_and!; try done; [by left|].
           intros ->. simpl in Hlen. lia.
        -- destruct (Hnext g1 Hsame) as (v & g' & Hrun' & Hsame' & Hv).
           exists v, g'. split_and!; [done|done|].
           apply (Hskip v Hv). intros (piece' & ms' & _ & _ & Hl & Hne).
           rewrite Hlegal in Hl. inversion Hl; subst ms'.
           destruct ms; [done|simpl in Hlen; lia].
      * destruct (Hnext g (sameButMustCapture_refl g)) as (v & g' & Hrun' & Hsame' & Hv).
        exists v, g'. split_and!; [done|done|].
        apply (Hskip v Hv). intros (piece' & ms' & Hp' & Hcl' & _).
        congruence.
    + destruct (Hnext g (sameButMustCapture_refl g)) as (v & g' & Hrun' & Hsame' & Hv).
      exists v, g'. split_and!; [done|done|].
      apply (Hskip v Hv). intros (piece' & ms' & Hp' & _). congruence.
Qed.

Lemma playerHasValidMoves_spec cl g :
  ∃ v g', playerHasValidMoves cl g = Some (v, g') ∧
          sameButMustCapture g g' ∧
          (v = true ↔ hasLegalMove (board g) cl).
Proof.
  destruct (playerHasValidMovesFrom_spec allSquares cl g) as (v & g' & Hrun & Hsame & Hv).
  { intros [r c]. apply elem_of_allSquares. }
  exists v, g'. split_and!; [done|done|].
  rewrite Hv. unfold hasLegalMove.
  by setoid_rewrite elem_of_allSquares.
Qed.

Lemma endGame_run winner g :
  ∃ g', endGame winner g = Some (tt, g') ∧ declared winner g g' ∧
        board g' = board g ∧ currentPlayer g' = currentPlayer g ∧
        selectedPiece g' = selectedPiece g ∧
        selectedSquare g' = selectedSquare g ∧
        validMoves g' = validMoves g ∧ continueCapture g' = continueCapture g.
Proof. eexists. split; [reflexivity|]. by repeat split. Qed.

Lemma checkWinCondition_run g0 g :
  stats g = stats g0 → gameOver g = gameOver g0 →
  statusWinner g = statusWinner g0 →
  ∃ g', checkWinCondition g = Some (tt, g') ∧
        termination (board g) (currentPlayer g) g0 g' ∧
        board g' = board g ∧ currentPlayer g' = currentPlayer g ∧
        selectedPiece g' = selectedPiece g ∧
        selectedSquare g' = selectedSquare g ∧
        validMoves g' = validMoves g ∧ continueCapture g' = continueCapture g.
Proof.
  intros Hst Hover Hwin.
  assert (∀ w g1, sameButMustCapture g g1 →
          ∃ g', endGame w g1 = Some (tt, g') ∧ declared w g0 g' ∧
                board g' = board g ∧ currentPlayer g' = currentPlayer g ∧
                selectedPiece g' = selectedPiece g ∧
                selectedSquare g' = selectedSquare g ∧
                validMoves g' = validMoves g ∧
                continueCapture g' = continueCapture g) as Hend.
  { intros w g1 [v ->]. eexists. split; [reflexivity|].
    unfold declared. simpl. rewrite Hst. by repeat split. }
  unfold checkWinCondition, termination. munfold.
  rewrite !bool_decide_decide.
  destruct (decide (countPieces (board g) red = 0%nat)) as [Hred|Hred].
  { destruct (Hend black g (sameButMustCapture_refl g)) as (g' & Hrun & H).
    exists g'. by rewrite Hrun. }
  destruct (decide (countPieces (board g) black = 0%nat)) as [Hblack|Hblack].
  { destruct (Hend red g (sameButMustCapture_refl g)) as (g' & Hrun & H).
    exists g'. by rewrite Hrun. }
  destruct (playerHasValidMoves_spec (currentPlayer g) g)
    as (v & g1 & Hrun & Hsame & Hv).
  rewrite Hrun. destruct v; simpl.
  - exists g1. destruct Hsame as [w ->]. split; [done|]. simpl.
    split; [|done]. split.
    + intros Hno. destruct Hno. by apply Hv.
    + intros _. by repeat split.
  - destruct (Hend (opponent (currentPlayer g)) g1 Hsame)
      as (g' & Hrun' & Hdecl & Hrest).
    exists g'. split; [done|]. split; [|done]. split; [done|].
    intros Hyes%Hv. done.
Qed.

Lemma endTurn_unfold check g :
  endTurn check g =
    match check (turnReset g) with
    | Some (_, g2) => updateUI g2
    | None => None
    end.
Proof. reflexivity. Qed.

Lemma updateUI_run g :
  updateUI g =
    Some (tt, if gameOver g then g
              else set_statusMessage
                     (Turno (if bool_decide (currentPlayer g = Some red)
                             then red else black)) g).
Proof.
  unfold updateUI, updateStatusMessage, getStatusMessage. munfold.
  by destruct (gameOver g).
Qed.

Lemma endTurn_run g :
  ∃ g', endTurn checkWinCondition g = Some (tt, g') ∧ turnEnded g g' ∧
        board g' = board g.
Proof.
  rewrite endTurn_unfold.
  destruct (checkWinCondition_run g (turnReset g))
    as (g2 & Hrun & Hterm & Hb & Hcp & Hsp & Hss & Hvm & Hcc); [reflexivity..|].
  rewrite Hrun, updateUI_run. eexists. split; [reflexivity|].
  change (board (turnReset g)) with (board g) in *.
  change (currentPlayer (turnReset g)) with (Some (opponent (currentPlayer g))) in *.
  change (selectedPiece (turnReset g)) with (@None Piece) in *.
  change (selectedSquare (turnReset g)) with (@None Pos) in *.
  change (validMoves (turnReset g)) with (@nil Move) in *.
  change (continueCapture (turnReset g)) with false in *.
  assert (∀ g3, board g3 = board g2 → currentPlayer g3 = currentPlayer g2 →
                selectedPiece g3 = selectedPiece g2 →
                selectedSquare g3 = selectedSquare g2 →
                validMoves g3 = validMoves g2 →
                continueCapture g3 = continueCapture g2 →
                gameOver g3 = gameOver g2 → stats g3 = stats g2 →
                statusWinner g3 = statusWinner g2 →
                (gameOver g2 = true → statusMessage g3 = statusMessage g2) →
                turnEnded g g3 ∧ board g3 = board g) as Hfin.
  { intros g3 Hb3 Hcp3 Hsp3 Hss3 Hvm3 Hcc3 Hgo3 Hst3 Hsw3 Hmsg3.
    split; [|by rewrite Hb3, Hb].
    unfold turnEnded. rewrite Hcc3, Hsp3, Hss3, Hvm3, Hcp3, Hb3.
    rewrite Hcc, Hsp, Hss, Hvm, Hcp, Hb.
    do 5 (split; [reflexivity|]).
    unfold termination, declared, undecided in *.
    rewrite Hgo3, Hst3, Hsw3.
    repeat case_decide.
    - destruct Hterm as (Hgo & ? & ? & ?). by rewrite Hmsg3.
    - destruct Hterm as (Hgo & ? & ? & ?). by rewrite Hmsg3.
    - destruct Hterm as [Hno Hyes]. split; [|exact Hyes].
      intros (Hgo & ? & ? & ?)%Hno. by rewrite Hmsg3. }
  destruct (gameOver g2) eqn:Hgo; apply Hfin; try reflexivity; try done.
Qed.

(** ** Applying a move *)

Lemma findMove_Some tr tc moves m :
  findMove tr tc moves = Some m → m ∈ moves ∧ row m = tr ∧ col m = tc.
Proof.
  unfold findMove. intros H. apply find_some in H as [Hin Hm].
  apply bool_decide_eq_true in Hm. by rewrite list_elem_of_In.
Qed.

Lemma findMove_None tr tc moves :
  findMove tr tc moves = None ↔ ¬ ∃ m, m ∈ moves ∧ row m = tr ∧ col m = tc.
Proof.
  unfold findMove. split.
  - intros H (m & Hin & Hr & Hc). apply list_elem_of_In in Hin.
    pose proof (find_none _ _ H m Hin) as Hm. simpl in Hm.
    apply bool_decide_eq_false in Hm. by destruct Hm.
  - intros H. destruct (find _ moves) as [m|] eqn:Hf; [|done].
    apply find_some in Hf as [Hin Hm]. apply bool_decide_eq_true in Hm.
    destruct H. exists m. by rewrite list_elem_of_In.
Qed.

(** Square by square: the landing square holds the piece (crowned if the
    move promotes), origin and captured square are empty, the rest is
    untouched. *)
Lemma boardAfter_lookup b fr fc piece m p :
  applicable fr fc m →
  boardAfter b fr fc piece m !! p =
    if decide (p = target m)
    then Some (if promotes piece (row m) then mkPiece (color piece) true else piece)
    else if decide (p = (fr, fc)) then None
    else if decide (capture m = Some p) then None
    else b !! p.
Proof.
  intros (_ & _ & Hto & Hcap). unfold boardAfter.
  assert (boardMoved b fr fc piece m !! p =
          if decide (p = target m) then Some piece
          else if decide (p = (fr, fc)) then None
          else if decide (capture m = Some p) then None
          else b !! p) as Hraw.
  { unfold boardMoved. cbv zeta.
    destruct (capture m) as [cp|] eqn:Hc.
    - destruct Hcap as (_ & Hcp1 & Hcp2).
      rewrite !lookup_delete, lookup_insert.
      repeat case_decide; simplify_eq; done.
    - rewrite lookup_delete, lookup_insert.
      repeat case_decide; simplify_eq; done. }
  destruct (promotes piece (row m)); [|exact Hraw].
  rewrite lookup_alter. case_decide as Heq.
  - subst p. rewrite Hraw. rewrite decide_True by done. done.
  - rewrite Hraw. rewrite decide_False by congruence. done.
Qed.
Lemma relocate_run g fr fc piece m :
  applicable fr fc m →
  relocate fr fc (row m) (col m) (Some piece) m g =
    Some (bool_decide (is_Some (capture m)),
          set_board (boardMoved (board g) fr fc piece m) g).
Proof.
  intros (Hfr & Hto & Hne & Hcap).
  unfold relocate, writeBoard, writeSquare, boardMoved. munfold.
  cbn [board set_board]. rewrite Hto, Hfr.
  destruct (capture m) as [[capRow capCol]|].
  - destruct Hcap as (Hcr & _). simpl in Hcr.
    munfold. cbn [board set_board]. by rewrite Hcr.
  - done.
Qed.

Lemma selectPiece_chain g r c caps :
  continueCapture g = true → hasRow r = true →
  getCaptureMoves (board g) r c = Some caps →
  selectPiece r c g =
    Some (tt, set_validMoves caps
                (set_selectedSquare (Some (r, c))
                   (set_selectedPiece (board g !! (r, c)) g))).
Proof.
  intros Hcc Hr Hcaps. unfold selectPiece. munfold.
  rewrite readSquare_Some by done. cbn [continueCapture board set_selectedPiece set_selectedSquare].
  by rewrite Hcc, Hcaps.
Qed.

Lemma finishMove_run g tr tc (wasCapture : bool) q :
  hasRow tr = true → board g !! (tr, tc) = Some q →
  ∃ g', finishMove checkWinCondition tr tc wasCapture g = Some (tt, g') ∧
        board g' = board g ∧
        match wasCapture, getCaptureMoves (board g) tr tc with
        | true, Some (c0 :: caps) => chained (tr, tc) (c0 :: caps) g g'
        | _, _ => turnEnded g g'
        end.
Proof.
  intros Hr Hq. unfold finishMove. munfold.
  destruct (endTurn_run g) as (gE & HrunE & HendE & HbE).
  destruct wasCapture.
  - destruct (getCaptureMoves_total _ _ _ _ Hr Hq) as [caps Hcaps].
    rewrite Hcaps. destruct caps as [|c0 caps].
    + rewrite bool_decide_eq_false_2 by (simpl; lia).
      exists gE. by rewrite HrunE.
    + rewrite bool_decide_eq_true_2 by (simpl; lia).
      rewrite (selectPiece_chain _ _ _ (c0 :: caps)) by done.
      unfold updateStatusMessage. munfold.
      eexists. split; [reflexivity|]. split; [reflexivity|].
      unfold chained, undecided. by repeat split.
  - exists gE. by rewrite HrunE.
Qed.

Lemma movePiece_run g fr fc tr tc m piece :
  findMove tr tc (validMoves g) = Some m →
  board g !! (fr, fc) = Some piece →
  applicable fr fc m →
  ∃ g', movePiece fr fc tr tc g = Some (tt, g') ∧
        board g' = boardAfter (board g) fr fc piece m ∧
        if promotes piece (row m) then turnEnded g g'
        else match capture m,
                   getCaptureMoves (boardAfter (board g) fr fc piece m)
                                   (row m) (col m) with
             | Some _, Some (c0 :: caps) =>
                 chained (target m) (c0 :: caps) g g'
             | _, _ => turnEnded g g'
             end.
Proof.
  intros Hfind Hp Happ.
  destruct (findMove_Some _ _ _ _ Hfind) as (Hin & <- & <-).
  pose proof Happ as (Hfr & Hto & Hne & Hcap).
  pose proof (boardAfter_lookup (board g) fr fc piece m (target m) Happ) as Hat.
  rewrite decide_True in Hat by done.
  unfold movePiece. munfold. rewrite Hfind.
  rewrite readSquare_Some, Hp by done.
  rewrite relocate_run by done.
  fold (promotes piece (row m)). unfold boardAfter in *.
  destruct (promotes piece (row m)) eqn:Hprom.
  - unfold crown. munfold. cbn [board set_board].
    set (g1 := set_board _ _).
    destruct (endTurn_run g1) as (g' & Hrun & Hend & Hb).
    exists g'. split; [exact Hrun|]. split; [exact Hb|]. exact Hend.
  - set (g1 := set_board _ g).
    destruct (finishMove_run g1 (row m) (col m)
                (bool_decide (is_Some (capture m))) piece Hto Hat)
      as (g' & Hrun & Hb & Hres).
    exists g'. split; [exact Hrun|]. split; [exact Hb|].
    subst g1. cbn [board set_board] in Hres.
    destruct (capture m) as [cp|].
    + rewrite bool_decide_eq_true_2 in Hres by by eexists. exact Hres.
    + rewrite bool_decide_eq_false_2 in Hres by by intros [? ?]. exact Hres.
Qed.

(** ** Generated moves can be applied *)

Lemma stepTo_parity r c d k :
  diagonal d → ((stepTo r c d k).1 + (stepTo r c d k).2) `mod` 2 = (r + c) `mod` 2.
Proof.
  intros [[H1|H1] [H2|H2]]; unfold stepTo; simpl; rewrite H1, H2.
  - replace (r + -1 * k + (c + -1 * k)) with (r + c + (- k) * 2) by lia.
    apply Z_mod_plus_full.
  - f_equal. lia.
  - f_equal. lia.
  - replace (r + 1 * k + (c + 1 * k)) with (r + c + k * 2) by lia.
    apply Z_mod_plus_full.
Qed.

Lemma stepTo_row_ne r c d k : diagonal d → 1 <= k → stepTo r c d k ≠ (r, c).
Proof.
  intros [[H1|H1] _] Hk; unfold stepTo; rewrite H1; intros [= ? ?]; lia.
Qed.

Lemma simpleOn_applicable b fr fc m :
  hasRow fr = true → simpleOn b fr fc m → applicable fr fc m.
Proof.
  intros Hfr (d & k & Hd & Hk & Ht & Hv & He & Hc). unfold applicable.
  rewrite Hc, Ht. split_and!; try done.
  - by eapply isValidPosition_hasRow.
  - by apply stepTo_row_ne.
Qed.

Lemma captureOn_applicable b cl fr fc m :
  hasRow fr = true → captureOn b cl fr fc m → applicable fr fc m.
Proof.
  intros Hfr (d & j & k & e & Hd & Hjk & Ht & Hv & He & Hc & Hcv & Hce & Hcol).
  unfold applicable. rewrite Hc. split_and!; try done.
  - by eapply isValidPosition_hasRow.
  - rewrite Ht. apply stepTo_row_ne; [done|lia].
  - by eapply isValidPosition_hasRow.
  - intros Heq. rewrite Heq in Hce. congruence.
  - apply stepTo_row_ne; [done|lia].
Qed.

Lemma legalMoves_inv b r c ms :
  legalMoves b r c = Some ms →
  hasRow r = true ∧
  match b !! (r, c) with
  | None => ms = []
  | Some piece =>
      ∃ caps alls, getCaptureMoves b r c = Some caps ∧
                   getAllCaptureMoves b (color piece) = Some alls ∧
                   ((alls ≠ [] ∧ ms = caps) ∨
                    (alls = [] ∧ ∃ norm, getNormalMoves b r c = Some norm ∧
                                         ms = caps ++ norm))
  end.
Proof.
  unfold legalMoves. intros H.
  apply fmap_Some in H as ([ms' g'] & Hrun & ->). simpl.
  destruct (getValidMoves_inv _ _ _ _ _ Hrun) as [Hr _]. split; [done|].
  change b with (board (boardOnly b)).
  destruct (board (boardOnly b) !! (r, c)) as [piece|] eqn:Hp.
  - destruct (getCaptureMoves_total _ _ _ _ Hr Hp) as [caps Hcaps].
    destruct (getAllCaptureMoves_total (board (boardOnly b)) (color piece))
      as [alls Halls].
    rewrite (getValidMoves_piece _ _ _ _ _ _ Hr Hp Hcaps Halls) in Hrun.
    exists caps, alls. split_and!; [done..|].
    case_bool_decide as Hlen.
    + left. inversion Hrun. split; [|done]. intros ->. simpl in Hlen. lia.
    + right. split; [destruct alls; [done|simpl in Hlen; lia]|].
      destruct (getNormalMoves _ _ _) as [norm|]; [|done].
      exists norm. by inversion Hrun.
  - rewrite getValidMoves_empty in Hrun by done. by inversion Hrun.
Qed.

Lemma legalMoves_moves b r c ms m :
  legalMoves b r c = Some ms → m ∈ ms →
  ∃ piece, hasRow r = true ∧ b !! (r, c) = Some piece ∧
           (simpleOn b r c m ∨ captureOn b (color piece) r c m).
Proof.
  intros [Hr H]%legalMoves_inv Hm.
  destruct (b !! (r, c)) as [piece|] eqn:Hp;
    [|subst; by apply elem_of_nil in Hm].
  exists piece. split_and!; [done..|].
  destruct H as (caps & alls & Hcaps & _ & [[_ ->]|(_ & norm & Hnorm & ->)]).
  - right. by eapply getCaptureMoves_moves.
  - apply elem_of_app in Hm as [Hm|Hm].
    + right. by eapply getCaptureMoves_moves.
    + left. by eapply getNormalMoves_moves.
Qed.

Lemma computedFor_move g fr fc m :
  computedFor g fr fc → m ∈ validMoves g →
  ∃ piece, board g !! (fr, fc) = Some piece ∧ applicable fr fc m ∧
           (simpleOn (board g) fr fc m ∨ captureOn (board g) (color piece) fr fc m).
Proof.
  intros [Hcaps|Hlegal] Hm.
  - destruct (getCaptureMoves_inv _ _ _ _ Hcaps) as (piece & Hr & Hp).
    pose proof (getCaptureMoves_moves _ _ _ _ _ _ Hp Hcaps Hm) as Hshape.
    exists piece. split_and!; [done| |by right].
    by eapply captureOn_applicable.
  - destruct (legalMoves_moves _ _ _ _ _ Hlegal Hm) as (piece & Hr & Hp & Hshape).
    exists piece. split_and!; [done| |done].
    destruct Hshape; [by eapply simpleOn_applicable|by eapply captureOn_applicable].
Qed.

(** ** Move application: atomicity, frame, turn resolution *)

Lemma isValidMove_findMove r c g :
  isValidMove r c g = true ↔ is_Some (findMove r c (validMoves g)).
Proof.
  unfold isValidMove, findMove.
  induction (validMoves g) as [|m ms IH]; simpl.
  - split; [done|]. by intros [? ?].
  - destruct (bool_decide (row m = r ∧ col m = c)); simpl; [|exact IH].
    split; [by eexists|done].
Qed.

Lemma movePiece_computed g fr fc tr tc m :
  findMove tr tc (validMoves g) = Some m → computedFor g fr fc →
  ∃ piece g',
    board g !! (fr, fc) = Some piece ∧ applicable fr fc m ∧
    row m = tr ∧ col m = tc ∧
    movePiece fr fc tr tc g = Some (tt, g') ∧
    board g' = boardAfter (board g) fr fc piece m ∧
    if promotes piece tr then turnEnded g g'
    else match capture m,
               getCaptureMoves (boardAfter (board g) fr fc piece m) tr tc with
         | Some _, Some (c0 :: caps) => chained (tr, tc) (c0 :: caps) g g'
         | _, _ => turnEnded g g'
         end.
Proof.
  intros Hfind Hcomp.
  destruct (findMove_Some _ _ _ _ Hfind) as (Hin & Hrow & Hcol).
  destruct (computedFor_move _ _ _ _ Hcomp Hin) as (piece & Hp & Happ & _).
  destruct (movePiece_run _ _ _ _ _ _ _ Hfind Hp Happ) as (g' & Hrun & Hb & Hres).
  exists piece, g'. unfold target in Hres. rewrite Hrow, Hcol in Hres.
  by split_and!.
Qed.

(** C5.  [movePiece] is all-or-nothing.  With a destination that is not
    in [validMoves] it returns the state it was given, every field
    unchanged.  With a destination in the list computed for the piece on
    the origin square it returns, and the new state has all of: the piece
    relocated, a captured piece removed, the promotion applied (the three
    are [boardAfter]), and the turn either ended (selection and chain flag
    cleared, side switched, win test run) or continued as a capture chain
    pinned to the landing square. *)
Theorem movePiece_atomic g fr fc tr tc :
  (findMove tr tc (validMoves g) = None →
   movePiece fr fc tr tc g = Some (tt, g)) ∧
  (∀ m, findMove tr tc (validMoves g) = Some m → computedFor g fr fc →
        ∃ piece g',
          board g !! (fr, fc) = Some piece ∧
          movePiece fr fc tr tc g = Some (tt, g') ∧
          board g' = boardAfter (board g) fr fc piece m ∧
          (turnEnded g g' ∨ ∃ caps, chained (tr, tc) caps g g')).
Proof.
  split.
  - intros Hnone. unfold movePiece. munfold. by rewrite Hnone.
  - intros m Hfind Hcomp.
    destruct (movePiece_computed _ _ _ _ _ _ Hfind Hcomp)
      as (piece & g' & Hp & _ & _ & _ & Hrun & Hb & Hres).
    exists piece, g'. split_and!; [done..|].
    destruct (promotes piece tr); [by left|].
    destruct (capture m); [|by left].
    destruct (getCaptureMoves _ _ _) as [[|c0 caps]|]; [by left| |by left].
    right. by eexists.
Qed.

(** C10.  Frame of [movePiece]: for a destination in the list computed
    for the piece on the origin square, the origin ends up empty, the
    destination holds the moved piece (crowned if it was promoted), a
    captured square ends up empty, and every other square holds what it
    held before. *)
Theorem movePiece_frame g fr fc tr tc m :
  findMove tr tc (validMoves g) = Some m → computedFor g fr fc →
  ∃ piece g',
    board g !! (fr, fc) = Some piece ∧
    movePiece fr fc tr tc g = Some (tt, g') ∧
    board g' !! (fr, fc) = None ∧
    board g' !! (tr, tc) =
      Some (if promotes piece tr then mkPiece (color piece) true else piece) ∧
    (∀ cp, capture m = Some cp → board g' !! cp = None) ∧
    (∀ p, p ≠ (fr, fc) → p ≠ (tr, tc) → capture m ≠ Some p →
          board g' !! p = board g !! p).
Proof.
  intros Hfind Hcomp.
  destruct (movePiece_computed _ _ _ _ _ _ Hfind Hcomp)
    as (piece & g' & Hp & Happ & Hrow & Hcol & Hrun & Hb & _).
  exists piece, g'. split_and!; [done..| | | |]; rewrite Hb.
  - rewrite boardAfter_lookup by done.
    destruct Happ as (_ & _ & Hne & _).
    rewrite decide_False by done. by rewrite decide_True.
  - rewrite boardAfter_lookup by done. unfold target.
    rewrite Hrow, Hcol. by rewrite decide_True.
  - intros cp Hcp. rewrite boardAfter_lookup by done.
    destruct Happ as (_ & _ & _ & Hcap). rewrite Hcp in Hcap.
    destruct Hcap as (_ & Hne1 & Hne2).
    rewrite decide_False by done. rewrite decide_False by done.
    by rewrite decide_True.
  - intros p Hp1 Hp2 Hp3. rewrite boardAfter_lookup by done.
    unfold target. rewrite Hrow, Hcol.
    rewrite decide_False by done. rewrite decide_False by done.
    by rewrite decide_False.
Qed.

(** ** The win test *)

#[local] Transparent countPieces.

Lemma countPieces_sum b cl :
  countPieces b cl = sum_list (countsAs b cl <$> allSquares).
Proof.
  unfold countPieces.
  assert (∀ l n,
            foldl (λ count (p : Pos),
                     match b !! p with
                     | Some piece =>
                         if bool_decide (color piece = cl) then S count else count
                     | None => count
                     end) n l
            = (n + sum_list (countsAs b cl <$> l))%nat) as Hgen.
  { induction l as [|p l IH]; intros n; csimpl; [lia|].
    rewrite IH. unfold countsAs at 2.
    destruct (b !! p) as [piece|]; [|lia].
    destruct (bool_decide _); lia. }
  by rewrite Hgen.
Qed.

#[local] Opaque countPieces.

Lemma countPieces_zero b cl : countPieces b cl = 0%nat ↔ noPieces b cl.
Proof.
  rewrite countPieces_sum.
  assert (∀ l, sum_list (countsAs b cl <$> l) = 0%nat ↔
               ∀ p, p ∈ l → countsAs b cl p = 0%nat) as Hzero.
  { induction l as [|q l IH]; csimpl.
    - split; [|done]. intros _ p Hp. by apply elem_of_nil in Hp.
    - split.
      + intros Hsum p [->|Hp]%elem_of_cons; [lia|]. apply IH; [lia|done].
      + intros Hall. rewrite (Hall q) by by left.
        apply IH. intros p Hp. apply Hall. by right. }
  rewrite Hzero. unfold noPieces, countsAs. split.
  - intros Hall r c piece Hv Hp Hcl.
    specialize (Hall (r, c) (proj2 (elem_of_allSquares r c) Hv)).
    rewrite Hp, bool_decide_eq_true_2 in Hall by done. done.
  - intros Hno [r c] Hv%elem_of_allSquares.
    destruct (b !! (r, c)) as [piece|] eqn:Hp; [|done].
    case_bool_decide as Hcl; [|done]. by destruct (Hno r c piece).
Qed.

(** C4.  The win test after a completed turn.  When [movePiece] ends the
    turn (the chain flag is off afterwards) a side is to move, the other
    one than before, and on the new board: if red has no piece on the
    grid, black is declared winner and the game is over; else if black
    has none, red is; else, if the new side to move has no legal move
    under the forced-capture rule, the other side is; otherwise no winner
    is set and the game-over flag is as before. *)
Theorem termination_check g fr fc tr tc m :
  findMove tr tc (validMoves g) = Some m → computedFor g fr fc →
  ∃ g',
    movePiece fr fc tr tc g = Some (tt, g') ∧
    (continueCapture g' = false →
     ∃ toMove,
       currentPlayer g' = Some toMove ∧
       (∀ side, currentPlayer g = Some side → toMove = rival side) ∧
       (noPieces (board g') red → victory black g g') ∧
       (¬ noPieces (board g') red → noPieces (board g') black →
        victory red g g') ∧
       (¬ noPieces (board g') red → ¬ noPieces (board g') black →
        ¬ hasLegalMove (board g') (Some toMove) →
        victory (rival toMove) g g') ∧
       (¬ noPieces (board g') red → ¬ noPieces (board g') black →
        hasLegalMove (board g') (Some toMove) →
        undecided g g')).
Proof.
  intros Hfind Hcomp.
  destruct (movePiece_computed _ _ _ _ _ _ Hfind Hcomp)
    as (piece & g' & Hp & _ & _ & _ & Hrun & Hb & Hres).
  exists g'. split; [done|]. intros Hcc.
  assert (turnEnded g g') as (_ & _ & _ & _ & Hcp & Hterm).
  { destruct (promotes piece tr); [done|].
    destruct (capture m); [|done].
    destruct (getCaptureMoves _ _ _) as [[|c0 caps]|]; [done| |done].
    destruct Hres as (Hcc' & _). congruence. }
  assert (∀ w, declared w g g' → victory w g g') as Hvic.
  { intros w (Hgo & Hmsg & Hsw & Hst). split_and!; [done..|].
    rewrite Hst. by destruct w. }
  assert (opponent (currentPlayer g')
          = rival (opponent (currentPlayer g))) as Hopp.
  { rewrite Hcp. unfold opponent.
    destruct (bool_decide (currentPlayer g = Some red)); reflexivity. }
  exists (opponent (currentPlayer g)). split; [done|]. split.
  { intros side Hside. rewrite Hside. by destruct side. }
  rewrite Hcp in Hterm. rewrite Hcp in Hopp. unfold termination in Hterm.
  rewrite <- !countPieces_zero.
  destruct (decide (countPieces (board g') red = 0%nat)) as [Hred|Hred];
    [|destruct (decide (countPieces (board g') black = 0%nat)) as [Hblack|Hblack]].
  - split_and!; [by intros; apply Hvic|intros; contradiction..].
  - split_and!; [intros; contradiction|by intros; apply Hvic
                |intros; contradiction..].
  - destruct Hterm as [Hno Hyes].
    split_and!; [intros; contradiction..| |intros _ _; exact Hyes].
    intros _ _ Hnone. apply Hvic. rewrite <- Hopp. by apply Hno.
Qed.

Lemma opening_start : run [Toggle false] (startGame None red) = Some opening.
Proof. reflexivity. Qed.

Lemma openingSelected_click :
  exec (handleSquareClick 5 1) opening = Some openingSelected.
Proof. vm_compute. reflexivity. Qed.

Lemma openingSelected_computed : computedFor openingSelected 5 1.
Proof. right. vm_compute. reflexivity. Qed.

Lemma movePiece_atomic_witness :
  movePiece 5 1 3 3 openingSelected = Some (tt, openingSelected) ∧
  ∃ piece g',
    board openingSelected !! (5, 1) = Some piece ∧
    movePiece 5 1 4 2 openingSelected = Some (tt, g') ∧
    board g' = boardAfter (board openingSelected) 5 1 piece (mkMove 4 2 None) ∧
    (turnEnded openingSelected g' ∨ ∃ caps, chained (4, 2) caps openingSelected g').
Proof.
  split.
  - apply (proj1 (movePiece_atomic openingSelected 5 1 3 3)).
    vm_compute. reflexivity.
  - apply (proj2 (movePiece_atomic openingSelected 5 1 4 2) (mkMove 4 2 None)).
    + vm_compute. reflexivity.
    + right. vm_compute. reflexivity.
Defined.

Lemma movePiece_frame_witness :
  ∃ piece g',
    board openingSelected !! (5, 1) = Some piece ∧
    movePiece 5 1 4 2 openingSelected = Some (tt, g') ∧
    board g' !! (5, 1) = None ∧
    board g' !! (4, 2) =
      Some (if promotes piece 4 then mkPiece (color piece) true else piece) ∧
    (∀ cp, capture (mkMove 4 2 None) = Some cp → board g' !! cp = None) ∧
    (∀ p, p ≠ (5, 1) → p ≠ (4, 2) → capture (mkMove 4 2 None) ≠ Some p →
          board g' !! p = board openingSelected !! p).
Proof.
  apply (movePiece_frame openingSelected 5 1 4 2 (mkMove 4 2 None)).
  - vm_compute. reflexivity.
  - right. vm_compute. reflexivity.
Defined.

Lemma lastTurn_computed : computedFor lastTurn 7 3.
Proof. right. vm_compute. reflexivity. Qed.

Lemma termination_check_witness :
  ∃ g',
    movePiece 7 3 4 6 lastTurn = Some (tt, g') ∧
    (continueCapture g' = false →
     ∃ toMove,
       currentPlayer g' = Some toMove ∧
       (∀ side, currentPlayer lastTurn = Some side → toMove = rival side) ∧
       (noPieces (board g') red → victory black lastTurn g') ∧
       (¬ noPieces (board g') red → noPieces (board g') black →
        victory red lastTurn g') ∧
       (¬ noPieces (board g') red → ¬ noPieces (board g') black →
        ¬ hasLegalMove (board g') (Some toMove) →
        victory (rival toMove) lastTurn g') ∧
       (¬ noPieces (board g') red → ¬ noPieces (board g') black →
        hasLegalMove (board g') (Some toMove) →
        undecided lastTurn g')).
Proof.
  apply (termination_check lastTurn 7 3 4 6 (mkMove 4 6 (Some (5, 5)))).
  - vm_compute. reflexivity.
  - exact lastTurn_computed.
Defined.

(** ** Capture chains and the pinned selection *)

Lemma deselectPiece_chain g :
  continueCapture g = true → deselectPiece g = Some (tt, g).
Proof. intros H. unfold deselectPiece. munfold. by rewrite H. Qed.

Lemma handleSquareClick_pinned g r c sel :
  continueCapture g = true → selectedSquare g = Some sel → sel ≠ (r, c) →
  hasRow r = true → isValidMove r c g = false →
  handleSquareClick r c g = Some (tt, g).
Proof.
  intros Hcc Hsel Hne Hr Hmv. unfold handleSquareClick. munfold.
  destruct (gameOver g); [done|].
  rewrite readSquare_Some by done. rewrite Hmv, andb_false_r.
  destruct (board g !! (r, c)) as [p|]; [|by apply deselectPiece_chain].
  case_bool_decide; [|by apply deselectPiece_chain].
  rewrite Hcc, Hsel. simpl.
  rewrite bool_decide_eq_true_2; [done|].
  destruct sel as [sr sc]. simpl.
  destruct (decide (sr = r)) as [->|]; [|by left].
  right. intros ->. done.
Qed.

(** A stored destination computed for a piece is an empty square. *)
Lemma computedFor_target_empty g fr fc m :
  computedFor g fr fc → m ∈ validMoves g → board g !! target m = None.
Proof.
  intros Hcomp Hm.
  destruct (computedFor_move _ _ _ _ Hcomp Hm) as (piece & _ & _ & [Hs|Hc]).
  - by destruct Hs as (d & k & _ & _ & _ & _ & He & _).
  - by destruct Hc as (d & j & k & e & _ & _ & _ & _ & He & _).
Qed.

(** X19.  Capture chains under clicks.  (1) If the applied move captures,
    does not promote, and the piece has a capture from its landing square
    on the new board, the turn goes on: the chain flag is set, the selection is
    the landing square, the stored moves are those captures, and the side
    to move is the same.  (2) While the chain flag is set, a click on any
    square other than the pinned one that is not a stored destination
    leaves the state as it is; (3) so does a click on any other square
    that holds a piece, when the stored moves are the ones computed for
    the pinned piece. *)
Theorem chain_capture_pinned :
  (∀ g fr fc tr tc m piece cp c0 caps,
     findMove tr tc (validMoves g) = Some m → computedFor g fr fc →
     board g !! (fr, fc) = Some piece →
     capture m = Some cp → promotes piece tr = false →
     getCaptureMoves (boardAfter (board g) fr fc piece m) tr tc
       = Some (c0 :: caps) →
     ∃ g', movePiece fr fc tr tc g = Some (tt, g') ∧
           continueCapture g' = true ∧
           selectedSquare g' = Some (tr, tc) ∧
           validMoves g' = c0 :: caps ∧
           currentPlayer g' = currentPlayer g) ∧
  (∀ g r c sel,
     continueCapture g = true → selectedSquare g = Some sel → sel ≠ (r, c) →
     isValidPosition r c = true → isValidMove r c g = false →
     handleSquareClick r c g = Some (tt, g)) ∧
  (∀ g r c sel,
     continueCapture g = true → selectedSquare g = Some sel → sel ≠ (r, c) →
     isValidPosition r c = true → computedFor g sel.1 sel.2 →
     is_Some (board g !! (r, c)) →
     handleSquareClick r c g = Some (tt, g)).
Proof.
  split_and!.
  - intros g fr fc tr tc m piece cp c0 caps Hfind Hcomp Hp Hcap Hprom Hnext.
    destruct (movePiece_computed _ _ _ _ _ _ Hfind Hcomp)
      as (piece' & g' & Hp' & _ & _ & _ & Hrun & Hb & Hres).
    assert (piece' = piece) as -> by congruence.
    rewrite Hprom, Hcap, Hnext in Hres.
    destruct Hres as (Hcc & Hss & _ & Hvm & Hcp & _).
    exists g'. by split_and!.
  - intros g r c sel Hcc Hsel Hne Hv Hmv.
    eapply handleSquareClick_pinned; [done..|by eapply isValidPosition_hasRow|done].
  - intros g r c sel Hcc Hsel Hne Hv Hcomp [p Hp].
    eapply handleSquareClick_pinned; [done..|by eapply isValidPosition_hasRow|].
    destruct (isValidMove r c g) eqn:Hmv; [|done].
    apply isValidMove_findMove in Hmv as [m Hm].
    apply findMove_Some in Hm as (Hin & Hrow & Hcol).
    pose proof (computedFor_target_empty _ _ _ _ Hcomp Hin) as He.
    unfold target in He. rewrite Hrow, Hcol in He. congruence.
Qed.

Lemma chain_capture_pinned_witness :
  (∃ g', movePiece 5 1 3 3 doubleJumpSelected = Some (tt, g') ∧
         continueCapture g' = true ∧
         selectedSquare g' = Some (3, 3) ∧
         validMoves g' = [mkMove 1 5 (Some (2, 4))] ∧
         currentPlayer g' = currentPlayer doubleJumpSelected) ∧
  (∀ g', movePiece 5 1 3 3 doubleJumpSelected = Some (tt, g') →
         handleSquareClick 0 0 g' = Some (tt, g') ∧
         handleSquareClick 2 4 g' = Some (tt, g')).
Proof.
  pose proof chain_capture_pinned as (Hchain & Hclick & Hpiece).
  split.
  - apply (Hchain doubleJumpSelected 5 1 3 3 (mkMove 3 3 (Some (4, 2)))
                  (mkPiece red false) (4, 2)).
    + vm_compute. reflexivity.
    + right. vm_compute. reflexivity.
    + vm_compute. reflexivity.
    + reflexivity.
    + reflexivity.
    + vm_compute. reflexivity.
  - intros g' Hrun. vm_compute in Hrun. inversion Hrun; subst g'. split.
    + apply (Hclick _ 0 0 (3, 3)); [reflexivity|reflexivity|done|reflexivity|].
      vm_compute. reflexivity.
    + apply (Hpiece _ 2 4 (3, 3)); [reflexivity|reflexivity|done|reflexivity| |].
      * left. vm_compute. reflexivity.
      * vm_compute. by eexists.
Defined.

(** C6, the hint button.  [hintChain] is reached from the start by a
    toggle change and twelve clicks; black is in a capture chain with the
    piece on (4,4).  A press of the hint button whose draw picks the
    first candidate moves the selection to black's piece on (4,0), with
    the chain flag still set; a click on (6,2) then jumps with that
    piece, the chain piece stays on (4,4) with its capture over (5,3)
    unplayed, and the turn passes to red. *)
Theorem hint_moves_pinned_selection :
  run (Toggle false :: hintChainClicks) (startGame None red) = Some hintChain ∧
  continueCapture hintChain = true ∧
  currentPlayer hintChain = Some black ∧
  selectedSquare hintChain = Some (4, 4) ∧
  validMoves hintChain = [mkMove 6 2 (Some (5, 3))] ∧
  ∃ g1 g2,
    showHint 0 hintChain = Some (tt, g1) ∧
    continueCapture g1 = true ∧
    selectedSquare g1 = Some (4, 0) ∧
    validMoves g1 = [mkMove 6 2 (Some (5, 1))] ∧
    g1 ≠ hintChain ∧
    handleSquareClick 6 2 g1 = Some (tt, g2) ∧
    board g2 !! (4, 0) = None ∧ board g2 !! (5, 1) = None ∧
    board g2 !! (6, 2) = Some (mkPiece black false) ∧
    board g2 !! (4, 4) = Some (mkPiece black false) ∧
    board g2 !! (5, 3) = Some (mkPiece red false) ∧
    continueCapture g2 = false ∧ currentPlayer g2 = Some red.
Proof.
  do 5 (split; [vm_compute; reflexivity|]).
  eexists _, _. do 4 (split; [vm_compute; reflexivity|]).
  split.
  { intros Heq. apply (f_equal selectedSquare) in Heq.
    vm_compute in Heq. discriminate. }
  split; [vm_compute; reflexivity|].
  split_and!; vm_compute; reflexivity.
Qed.

(** ** Promotion *)

(** In [game.js] a promoting move ends the turn, whatever the crowned
    piece could capture next. *)
Lemma promotion_ends_turn g fr fc tr tc m piece :
  findMove tr tc (validMoves g) = Some m → computedFor g fr fc →
  board g !! (fr, fc) = Some piece → promotes piece tr = true →
  ∃ g', movePiece fr fc tr tc g = Some (tt, g') ∧
        board g' !! (tr, tc) = Some (mkPiece (color piece) true) ∧
        continueCapture g' = false ∧ selectedPiece g' = None ∧
        selectedSquare g' = None ∧ validMoves g' = [] ∧
        currentPlayer g' = Some (opponent (currentPlayer g)).
Proof.
  intros Hfind Hcomp Hp Hprom.
  destruct (movePiece_computed _ _ _ _ _ _ Hfind Hcomp)
    as (piece' & g' & Hp' & Happ & Hrow & Hcol & Hrun & Hb & Hres).
  assert (piece' = piece) as -> by congruence.
  rewrite Hprom in Hres. destruct Hres as (Hcc & Hsp & Hss & Hvm & Hcp & _).
  exists g'. split_and!; try done.
  rewrite Hb, boardAfter_lookup by done. unfold target.
  rewrite Hrow, Hcol, decide_True by done. by rewrite Hprom.
Qed.

Example crowning_ends_turn :
  ∃ g', movePiece 2 2 0 4 crowningSelected = Some (tt, g') ∧
        board g' !! (0, 4) = Some (mkPiece red true) ∧
        getCaptureMoves (board g') 0 4 = Some [mkMove 2 6 (Some (1, 5)); mkMove 3 7 (Some (1, 5))] ∧
        continueCapture g' = false ∧ selectedSquare g' = None ∧
        currentPlayer g' = Some black.
Proof.
  eexists. split; [vm_compute; reflexivity|].
  vm_compute. by repeat split.
Qed.

(** C2, on the older copy of the engine.  From the same position, with the
    same selection, its [movePiece] crowns the red piece on (0,4) and
    then keeps the turn: the chain flag is set, the selection is pinned
    to (0,4) with the captures over (1,5) stored, and red is still to
    move. *)
Theorem legacy_promotion_continues :
  ∃ g', Legacy.movePiece 2 2 0 4 crowningSelected = Some (tt, g') ∧
        promotes (mkPiece red false) 0 = true ∧
        board g' !! (0, 4) = Some (mkPiece red true) ∧
        continueCapture g' = true ∧
        selectedSquare g' = Some (0, 4) ∧
        validMoves g' = [mkMove 2 6 (Some (1, 5)); mkMove 3 7 (Some (1, 5))] ∧
        currentPlayer g' = Some red.
Proof.
  eexists. split; [vm_compute; reflexivity|].
  vm_compute. by repeat split.
Qed.

(** ** Reset *)

Lemma resetGame_run g :
  resetGame g =
    Some (tt, mkGame initBoard None None None [] false false false
                     (stats g) (Turno black) false).
Proof. reflexivity. Qed.

Lemma initBoard_counts :
  countPieces initBoard red = 12%nat ∧ countPieces initBoard black = 12%nat.
Proof. split; vm_compute; reflexivity. Qed.

(** C8, as [game.js] has it.  [resetGame] restores the initial layout
    (12 pieces a side), clears selection, chain and game-over, but leaves
    [currentPlayer] at [null] instead of a side: afterwards a click on
    any square changes nothing, so no piece can be selected until the
    starter toggle is changed.  The older copy resets to red. *)
Theorem resetGame_forgets_starter g :
  ∃ g', resetGame g = Some (tt, g') ∧
        board g' = initBoard ∧
        countPieces (board g') red = 12%nat ∧
        countPieces (board g') black = 12%nat ∧
        selectedPiece g' = None ∧ selectedSquare g' = None ∧
        validMoves g' = [] ∧ continueCapture g' = false ∧
        gameOver g' = false ∧
        currentPlayer g' = None ∧
        (∀ r c, isValidPosition r c = true →
                handleSquareClick r c g' = Some (tt, g')) ∧
        ∃ g'', Legacy.resetGame g = Some (tt, g'') ∧
               currentPlayer g'' = Some red.
Proof.
  eexists. split; [apply resetGame_run|].
  cbn [board selectedPiece selectedSquare validMoves continueCapture gameOver
       currentPlayer].
  destruct initBoard_counts as [Hred Hblack].
  split_and!; [reflexivity|exact Hred|exact Hblack|reflexivity..| |].
  - intros r c Hv%isValidPosition_hasRow.
    unfold handleSquareClick, deselectPiece. munfold.
    cbn [board selectedPiece selectedSquare validMoves continueCapture gameOver
         currentPlayer].
    rewrite readSquare_Some by done.
    rewrite bool_decide_eq_false_2 by by intros [? ?].
    cbn [andb]. by destruct (initBoard !! (r, c)).
  - eexists. split; reflexivity.
Qed.

(** ** The opening move *)

(** C9 as stated fails: (5,0) is a light square ([(5 + 0) % 2 = 1]) and
    holds no piece.  The two clicks, and a direct call of [movePiece],
    leave the opening position as it is: nothing on (4,1), red to move. *)
Lemma opening_5_0_is_empty :
  run [Click 5 0; Click 4 1] opening = Some opening ∧
  exec (movePiece 5 0 4 1) opening = Some opening ∧
  board opening !! (5, 0) = None ∧
  board opening !! (4, 1) = None ∧
  currentPlayer opening = Some red.
Proof. vm_compute. by repeat split. Qed.

(** C9, amended to the dark square next to it: on the opening position
    with red to move, the move (5,1)->(4,2) leaves no piece on (5,1), a
    red piece that is no king on (4,2), and black to move. *)
Theorem opening_move :
  ∃ g', run [Click 5 1; Click 4 2] opening = Some g' ∧
        board g' !! (5, 1) = None ∧
        board g' !! (4, 2) = Some (mkPiece red false) ∧
        currentPlayer g' = Some black.
Proof.
  eexists. split; [vm_compute; reflexivity|].
  vm_compute. by repeat split.
Qed.

(** ** Board geometry *)

Lemma initBoard_dark : darkBoard initBoard.
Proof.
  assert (map_Forall (λ (k : Pos) (_ : Piece),
                        isValidPosition k.1 k.2 = true ∧ (k.1 + k.2) `mod` 2 = 0)
                     initBoard) as Hall.
  { refine (bool_decide_unpack _ _). vm_compute. reflexivity. }
  intros r c piece Hp. exact (Hall (r, c) piece Hp).
Qed.

Lemma boardAfter_dark b fr fc piece m :
  darkBoard b → b !! (fr, fc) = Some piece → applicable fr fc m →
  simpleOn b fr fc m ∨ captureOn b (color piece) fr fc m →
  darkBoard (boardAfter b fr fc piece m).
Proof.
  intros Hdark Hp Happ Hshape r c q.
  rewrite boardAfter_lookup by done.
  destruct (Hdark _ _ _ Hp) as [_ Hpar].
  repeat case_decide; try done; [|by apply Hdark].
  intros _.
  assert (∃ d k, diagonal d ∧ target m = stepTo fr fc d k ∧
                 isValidPosition (row m) (col m) = true)
    as (d & k & Hd & Ht & Hv).
  { destruct Hshape as [(d & k & Hd & _ & Ht & Hv & _)
                       |(d & j & k & e & Hd & _ & Ht & Hv & _)];
      by exists d, k. }
  assert (r = row m ∧ c = col m) as [-> ->].
  { unfold target in *. by simplify_eq. }
  split; [done|].
  pose proof (stepTo_parity fr fc d k Hd) as Hstep.
  rewrite <- Ht in Hstep. simpl in Hstep. congruence.
Qed.

Lemma movePiece_dark g fr fc tr tc m :
  darkBoard (board g) →
  findMove tr tc (validMoves g) = Some m → computedFor g fr fc →
  ∃ g', movePiece fr fc tr tc g = Some (tt, g') ∧
        board g !! (tr, tc) = None ∧ darkBoard (board g') ∧
        consistent g'.
Proof.
  intros Hdark Hfind Hcomp.
  destruct (findMove_Some _ _ _ _ Hfind) as (Hin & Hrow & Hcol).
  destruct (computedFor_move _ _ _ _ Hcomp Hin) as (piece & Hp & Happ & Hshape).
  destruct (movePiece_computed _ _ _ _ _ _ Hfind Hcomp)
    as (piece' & g' & Hp' & _ & _ & _ & Hrun & Hb & Hres).
  assert (piece' = piece) as -> by congruence.
  exists g'. split_and!; [done| | |].
  - pose proof (computedFor_target_empty _ _ _ _ Hcomp Hin) as He.
    unfold target in He. by rewrite Hrow, Hcol in He.
  - rewrite Hb. by apply boardAfter_dark.
  - assert (turnEnded g g' → consistent g') as Hended.
    { intros (_ & _ & _ & Hvm & _). by left. }
    destruct (promotes piece tr); [by apply Hended|].
    destruct (capture m); [|by apply Hended].
    destruct (getCaptureMoves _ _ _) as [[|c0 caps]|] eqn:Hcaps;
      [by apply Hended| |by apply Hended].
    destruct Hres as (_ & Hss & _ & Hvm & _).
    right. exists tr, tc. split; [done|]. left. by rewrite Hb, Hvm.
Qed.

Lemma exec_Some {A} (m : M A) g g' :
  exec m g = Some g' ↔ ∃ a, m g = Some (a, g').
Proof.
  unfold exec. split.
  - intros ([a g''] & H & ->)%fmap_Some. by exists a.
  - intros [a ->]. done.
Qed.

Lemma selectPiece_inv g r c g' :
  selectPiece r c g = Some (tt, g') →
  board g' = board g ∧ selectedSquare g' = Some (r, c) ∧
  selectedPiece g' = board g !! (r, c) ∧ computedFor g' r c ∧
  currentPlayer g' = currentPlayer g ∧
  continueCapture g' = continueCapture g ∧ gameOver g' = gameOver g.
Proof.
  unfold selectPiece. munfold.
  destruct (readSquare _ _ _) as [sq|] eqn:Hread; [|done].
  apply readSquare_inv in Hread as [Hr ->].
  cbn [board set_selectedPiece set_selectedSquare].
  destruct (continueCapture g) eqn:Hcc.
  - destruct (getCaptureMoves _ _ _) as [caps|] eqn:Hcaps; [|done].
    intros [= <-]. split_and!; try done. by left.
  - destruct (getValidMoves _ _ _) as [[ms g1]|] eqn:Hrun; [|done].
    intros [= <-].
    pose proof (getValidMoves_fst _ _ _ _ _ Hrun) as Hlegal.
    apply getValidMoves_inv in Hrun as [_ [v ->]].
    split_and!; try done. by right.
Qed.

Lemma selectPiece_run g r c p :
  hasRow r = true → board g !! (r, c) = Some p →
  ∃ g', selectPiece r c g = Some (tt, g') ∧
        board g' = board g ∧ currentPlayer g' = currentPlayer g ∧
        selectedSquare g' = Some (r, c) ∧ selectedPiece g' = Some p ∧
        continueCapture g' = continueCapture g ∧ gameOver g' = gameOver g ∧
        stats g' = stats g ∧ statusWinner g' = statusWinner g ∧
        statusMessage g' = statusMessage g ∧
        (if continueCapture g
         then getCaptureMoves (board g) r c = Some (validMoves g')
         else legalMoves (board g) r c = Some (validMoves g')).
Proof.
  intros Hr Hp. unfold selectPiece. munfold.
  rewrite readSquare_Some by done.
  cbn [board continueCapture set_selectedPiece set_selectedSquare].
  destruct (continueCapture g) eqn:Hcc.
  - destruct (getCaptureMoves_total _ _ _ _ Hr Hp) as [caps Hcaps].
    rewrite Hcaps. eexists. split; [reflexivity|].
    cbn. by rewrite Hp.
  - set (g1 := set_selectedSquare _ _).
    destruct (getValidMoves_total g1 r c Hr) as (ms & g2 & Hrun & [v ->]).
    pose proof (getValidMoves_fst _ _ _ _ _ Hrun) as Hlegal.
    rewrite Hrun. eexists. split; [reflexivity|].
    cbn. by rewrite Hp.
Qed.

Lemma deselectPiece_inv g g' :
  deselectPiece g = Some (tt, g') →
  board g' = board g ∧ (g' = g ∨ validMoves g' = []).
Proof.
  unfold deselectPiece. munfold. destruct (continueCapture g).
  - intros [= <-]. split; [done|by left].
  - intros [= <-]. split; [done|by right].
Qed.

Lemma handleSquareClick_inv g r c g' :
  darkBoard (board g) → consistent g →
  handleSquareClick r c g = Some (tt, g') →
  darkBoard (board g') ∧ consistent g'.
Proof.
  intros Hdark Hcons. unfold handleSquareClick. munfold.
  destruct (gameOver g); [by intros [= <-]|].
  destruct (readSquare _ _ _) as [sq|] eqn:Hread; [|done].
  destruct (bool_decide (is_Some (selectedPiece g)) && isValidMove r c g) eqn:Hmove.
  - apply andb_true_iff in Hmove as [_ Hmv].
    apply isValidMove_findMove in Hmv as [m Hfind].
    destruct Hcons as [Hnil|(sr & sc & Hsel & Hcomp)].
    { rewrite Hnil in Hfind. done. }
    rewrite Hsel. cbn [fst snd].
    destruct (movePiece_dark _ _ _ _ _ _ Hdark Hfind Hcomp)
      as (g1 & Hrun & _ & Hd1 & Hc1).
    rewrite Hrun. by intros [= <-].
  - assert (deselectPiece g = Some (tt, g') →
            darkBoard (board g') ∧ consistent g') as Hdes.
    { intros [Hb [->|Hnil]]%deselectPiece_inv; [done|].
      rewrite Hb. split; [done|by left]. }
    destruct sq as [p|]; [|exact Hdes].
    destruct (bool_decide (Some (color p) = currentPlayer g)); [|exact Hdes].
    destruct (continueCapture g && _); [by intros [= <-]|].
    intros (Hb & Hss & _ & Hcomp & _)%selectPiece_inv.
    rewrite Hb. split; [done|]. right. by exists r, c.
Qed.

(** ** The hint button *)

Lemma hintCandidates_cons b cl p rest :
  hintCandidates b cl (p :: rest) =
    match candidate b cl p with
    | Some x => x :: hintCandidates b cl rest
    | None => hintCandidates b cl rest
    end.
Proof. reflexivity. Qed.

Lemma piecesWithMovesFrom_run squares g :
  Forall (λ p : Pos, isValidPosition p.1 p.2 = true) squares →
  ∃ g1, piecesWithMovesFrom squares g =
          Some (hintCandidates (board g) (currentPlayer g) squares, g1) ∧
        sameButMustCapture g g1.
Proof.
  revert g. induction squares as [|[r c] rest IH]; intros g Hsq.
  - exists g. split; [done|apply sameButMustCapture_refl].
  - apply Forall_cons in Hsq as [Hv Hrest]. simpl in Hv.
    pose proof (isValidPosition_hasRow _ _ Hv) as Hr.
    rewrite hintCandidates_cons. unfold candidate.
    simpl piecesWithMovesFrom. munfold.
    destruct (board g !! (r, c)) as [piece|] eqn:Hp; [|by apply IH].
    cbn [mbind option_bind fst snd].
    case_bool_decide as Hcl; [|by apply IH].
    destruct (getValidMoves_total g r c Hr) as (ms & g1 & Hrun & [v ->]).
    pose proof (getValidMoves_fst _ _ _ _ _ Hrun) as Hlegal.
    rewrite Hrun, Hlegal. cbn [mbind option_bind].
    destruct (IH (set_mustCapture v g) Hrest) as (g2 & Hrun2 & [w ->]).
    rewrite Hrun2. eexists. split; [|by exists w].
    by case_bool_decide.
Qed.

Lemma elem_of_hintCandidates b cl squares p ms :
  (p, ms) ∈ hintCandidates b cl squares ↔
  p ∈ squares ∧ ∃ piece, b !! p = Some piece ∧ Some (color piece) = cl ∧
                         legalMoves b p.1 p.2 = Some ms ∧ ms ≠ [].
Proof.
  unfold hintCandidates. rewrite list_elem_of_omap. unfold candidate. split.
  - intros (q & Hin & Hq). destruct (b !! q) as [piece|] eqn:Hp; [|done].
    simpl in Hq. case_bool_decide; [|done].
    destruct (legalMoves b q.1 q.2) as [ms'|] eqn:Hl; [|done]. simpl in Hq.
    case_bool_decide as Hlen; [|done]. inversion Hq; subst.
    split; [done|]. exists piece. split_and!; try done.
    intros ->. simpl in Hlen. lia.
  - intros (Hin & piece & Hp & Hcl & Hl & Hne). exists p. split; [done|].
    rewrite Hp. simpl. rewrite bool_decide_eq_true_2, Hl by done. simpl.
    rewrite bool_decide_eq_true_2; [done|]. destruct ms; [done|simpl; lia].
Qed.

(** What a press of the hint button does. *)
Lemma showHint_run random g :
  ∃ g', showHint random g = Some (tt, g') ∧
        (gameOver g = true ∧ g' = g ∨
         gameOver g = false ∧ ∃ g1, sameButMustCapture g g1 ∧
           (¬ hasLegalMove (board g) (currentPlayer g) ∧
            g' = set_statusMessage SinMovimientos g1 ∨
            ∃ r c piece ms g2,
              isValidPosition r c = true ∧ board g !! (r, c) = Some piece ∧
              Some (color piece) = currentPlayer g ∧
              legalMoves (board g) r c = Some ms ∧ ms ≠ [] ∧
              selectPiece r c g1 = Some (tt, g2) ∧
              g' = set_statusMessage Pista g2)).
Proof.
  unfold showHint. munfold. destruct (gameOver g) eqn:Hover.
  { exists g. split; [done|by left]. }
  destruct (piecesWithMovesFrom_run allSquares g) as (g1 & Hrun & Hsame).
  { apply Forall_forall. intros [r c]. apply elem_of_allSquares. }
  rewrite Hrun. unfold updateStatusMessage. munfold.
  set (cands := hintCandidates (board g) (currentPlayer g) allSquares).
  case_bool_decide as Hlen.
  - destruct (lookup_lt_is_Some_2 cands (random `mod` length cands)%nat)
      as [[[r c] ms] Hpick].
    { apply Nat.mod_upper_bound. lia. }
    rewrite Hpick. cbn [fst snd].
    apply list_elem_of_lookup_2, elem_of_hintCandidates in Hpick
      as (Hin & piece & Hp & Hcl & Hl & Hne).
    apply elem_of_allSquares in Hin.
    assert (board g1 !! (r, c) = Some piece) as Hp1.
    { by destruct Hsame as [v ->]. }
    destruct (selectPiece_run g1 r c piece) as (g2 & Hsel & _);
      [by eapply isValidPosition_hasRow|done|].
    rewrite Hsel. eexists. split; [reflexivity|]. right. split; [done|].
    exists g1. split; [done|]. right. by exists r, c, piece, ms, g2.
  - eexists. split; [reflexivity|]. right. split; [done|].
    exists g1. split; [done|]. left. split; [|done].
    intros (r & c & piece & ms & Hv & Hp & Hcl & Hl & Hne).
    assert (((r, c), ms) ∈ cands) as Hin.
    { apply elem_of_hintCandidates. split; [by apply elem_of_allSquares|].
      by exists piece. }
    destruct cands; [by apply elem_of_nil in Hin|simpl in Hlen; lia].
Qed.

Lemma handle_inv e g g' :
  darkBoard (board g) → consistent g →
  exec (handle e) g = Some g' →
  darkBoard (board g') ∧ consistent g'.
Proof.
  intros Hdark Hcons [[] Hrun]%exec_Some.
  destruct e as [r c| |checked|random].
  - by eapply handleSquareClick_inv.
  - simpl in Hrun. rewrite resetGame_run in Hrun. inversion Hrun; subst g'.
    split; [apply initBoard_dark|by left].
  - simpl in Hrun. unfold toggleStarter in Hrun. munfold.
    rewrite updateUI_run in Hrun. inversion Hrun; subst g'.
    destruct (gameOver _); simpl; (split; [done|]); exact Hcons.
  - simpl in Hrun.
    destruct (showHint_run random g) as (g2 & Hrun2 & Hout).
    assert (g2 = g') as -> by congruence.
    destruct Hout as [[_ ->]|(_ & g1 & [v ->] & Hout)]; [done|].
    destruct Hout as [[_ ->]|(r & c & piece & ms & g3 & _ & _ & _ & _ & _
                              & Hsel & ->)].
    + split; [done|]. exact Hcons.
    + apply selectPiece_inv in Hsel as (Hb & Hss & _ & Hcomp & _).
      split; [cbn [board set_statusMessage]; by rewrite Hb|].
      right. by exists r, c.
Qed.

Lemma run_inv es g g' :
  darkBoard (board g) → consistent g → run es g = Some g' →
  darkBoard (board g') ∧ consistent g'.
Proof.
  revert g. induction es as [|e es IH]; intros g Hdark Hcons Hrun.
  - simpl in Hrun. by inversion Hrun; subst.
  - simpl in Hrun. apply bind_Some in Hrun as (g1 & Hstep & Hrest).
    destruct (handle_inv _ _ _ Hdark Hcons Hstep) as [Hd1 Hc1].
    by eapply IH.
Qed.

Lemma reachable_inv g : reachable g → darkBoard (board g) ∧ consistent g.
Proof.
  intros (saved & start & es & _ & Hrun).
  eapply run_inv; [| |exact Hrun].
  - apply initBoard_dark.
  - by left.
Qed.

(** C7.  Board geometry.  In the initial board every piece is on a square
    of the 8x8 grid with [row + col] even; so it is on every board the
    page can reach; and from any such board, applying a move of the list
    computed for a piece lands on a square that was empty and leaves
    every piece on a square of the grid with [row + col] even (a square
    holds at most one piece by the type of the board). *)
Theorem dark_squares_invariant :
  darkBoard initBoard ∧
  (∀ g, reachable g → darkBoard (board g)) ∧
  (∀ g fr fc tr tc m,
     darkBoard (board g) →
     findMove tr tc (validMoves g) = Some m → computedFor g fr fc →
     ∃ g', movePiece fr fc tr tc g = Some (tt, g') ∧
           board g !! (tr, tc) = None ∧
           darkBoard (board g')).
Proof.
  split_and!.
  - apply initBoard_dark.
  - intros g Hg. by apply reachable_inv.
  - intros g fr fc tr tc m Hdark Hfind Hcomp.
    destruct (movePiece_dark _ _ _ _ _ _ Hdark Hfind Hcomp)
      as (g' & Hrun & He & Hd & _).
    by exists g'.
Qed.

Lemma run_cons e es g :
  run (e :: es) g = (g' ← exec (handle e) g; run es g').
Proof. reflexivity. Qed.

Lemma reachable_from_opening es g :
  Forall onBoard es → run es opening = Some g → reachable g.
Proof.
  intros Hes Hrun. exists None, red, (Toggle false :: es).
  split; [by constructor|].
  by rewrite run_cons.
Qed.

Lemma opening_reachable : reachable opening.
Proof. by apply (reachable_from_opening []). Qed.

Lemma openingSelected_reachable : reachable openingSelected.
Proof.
  apply (reachable_from_opening [Click 5 1]); [|vm_compute; reflexivity].
  repeat constructor.
Qed.

Lemma dark_squares_invariant_witness :
  darkBoard (board openingSelected) ∧
  ∃ g', movePiece 5 1 4 2 openingSelected = Some (tt, g') ∧
        board openingSelected !! (4, 2) = None ∧
        darkBoard (board g').
Proof.
  pose proof dark_squares_invariant as (_ & Hreach & Hmove).
  pose proof (Hreach openingSelected openingSelected_reachable) as Hdark.
  split; [exact Hdark|].
  apply (Hmove openingSelected 5 1 4 2 (mkMove 4 2 None) Hdark).
  - vm_compute. reflexivity.
  - right. vm_compute. reflexivity.
Defined.

(** ** The king's capture scan *)

Section KingScan.
Variables (b : Board) (piece : Piece) (r c : Z) (d : Z * Z).

Lemma captureLoop_S fuel distance found enemy :
  captureLoop (S fuel) b piece r c d.1 d.2 distance found enemy =
    let checkRow := r + d.1 * distance in
    let checkCol := c + d.2 * distance in
    if negb (isValidPosition checkRow checkCol) then Some []
    else
      if negb found then
        match b !! (checkRow, checkCol) with
        | None =>
            captureLoop fuel b piece r c d.1 d.2 (distance + 1) found enemy
        | Some other =>
            if bool_decide (color other ≠ color piece)
            then captureLoop fuel b piece r c d.1 d.2 (distance + 1)
                             true (Some (checkRow, checkCol))
            else Some []
        end
      else
        match b !! (checkRow, checkCol) with
        | None =>
            rest ← captureLoop fuel b piece r c d.1 d.2 (distance + 1)
                               found enemy;
            Some (mkMove checkRow checkCol enemy :: rest)
        | Some _ => Some []
        end.
Proof. reflexivity. Qed.

Lemma captureLoop_more fuel distance found enemy ms :
  captureLoop fuel b piece r c d.1 d.2 distance found enemy = Some ms →
  captureLoop (S fuel) b piece r c d.1 d.2 distance found enemy = Some ms.
Proof.
  revert distance found enemy ms.
  induction fuel as [|fuel IH]; intros distance found enemy ms Hrun; [done|].
  rewrite captureLoop_S in Hrun. rewrite (captureLoop_S (S fuel)).
  cbv zeta in *.
  destruct (isValidPosition _ _); cbn [negb] in *; [|done].
  destruct found; cbn [negb] in *.
  - destruct (b !! _); [done|].
    destruct (captureLoop fuel _ _ _ _ _ _ _ _ _) as [rest|] eqn:Hrest; [|done].
    by rewrite (IH _ _ _ _ Hrest).
  - destruct (b !! _) as [other|].
    + destruct (bool_decide _); [|done]. by apply IH.
    + by apply IH.
Qed.

Lemma captureLoop_le fuel fuel' distance found enemy ms :
  (fuel <= fuel')%nat →
  captureLoop fuel b piece r c d.1 d.2 distance found enemy = Some ms →
  captureLoop fuel' b piece r c d.1 d.2 distance found enemy = Some ms.
Proof.
  induction 1 as [|fuel' _ IH]; [done|].
  intros Hrun. by apply captureLoop_more, IH.
Qed.

(** Past the enemy: [n] empty squares, then a stop. *)
Lemma captureLoop_land (n : nat) fuel distance enemy :
  (n < fuel)%nat →
  emptyRun b r c d distance (distance + Z.of_nat n) →
  stopsAt b r c d (distance + Z.of_nat n) →
  captureLoop fuel b piece r c d.1 d.2 distance true (Some enemy)
    = Some (landings r c d enemy distance (Z.of_nat n)).
Proof.
  revert fuel distance.
  induction n as [|n IH]; intros fuel distance Hfuel Hrun Hstop.
  - destruct fuel as [|fuel]; [lia|]. rewrite captureLoop_S. cbv zeta.
    rewrite Z.add_0_r in Hstop. unfold stopsAt, stepTo in Hstop. simpl in Hstop.
    destruct Hstop as [->|[q ->]]; [done|].
    by destruct (isValidPosition _ _).
  - destruct fuel as [|fuel]; [lia|]. rewrite captureLoop_S. cbv zeta.
    destruct (Hrun distance) as [Hv He]; [lia|].
    unfold stepTo in Hv, He. simpl in Hv, He. rewrite Hv, He. cbn [negb].
    rewrite (IH fuel (distance + 1)); [|lia| |].
    + unfold landings.
      replace (Z.of_nat (S n)) with (Z.succ (Z.of_nat n)) by lia.
      rewrite (seqZ_cons distance) by lia. simpl.
      replace (Z.pred (Z.succ (Z.of_nat n))) with (Z.of_nat n) by lia.
      by replace (Z.succ distance) with (distance + 1) by lia.
    + intros i Hi. apply Hrun. lia.
    + by replace (distance + 1 + Z.of_nat n)
        with (distance + Z.of_nat (S n)) by lia.
Qed.

(** Before any piece: [n] empty squares are skipped. *)
Lemma captureLoop_seek (n : nat) fuel distance :
  emptyRun b r c d distance (distance + Z.of_nat n) →
  captureLoop (n + fuel) b piece r c d.1 d.2 distance false None
    = captureLoop fuel b piece r c d.1 d.2 (distance + Z.of_nat n) false None.
Proof.
  revert distance.
  induction n as [|n IH]; intros distance Hrun.
  - simpl. by rewrite Z.add_0_r.
  - change (S n + fuel)%nat with (S (n + fuel)). rewrite captureLoop_S.
    cbv zeta.
    destruct (Hrun distance) as [Hv He]; [lia|].
    unfold stepTo in Hv, He. simpl in Hv, He. rewrite Hv, He. cbn [negb].
    rewrite IH.
    + f_equal. lia.
    + intros i Hi. apply Hrun. lia.
Qed.

(** All moves of one scan capture the same square. *)
Lemma captureLoop_one_target fuel distance found enemy ms :
  captureLoop fuel b piece r c d.1 d.2 distance found enemy = Some ms →
  ∃ target, ∀ m, m ∈ ms → capture m = target.
Proof.
  revert distance found enemy ms.
  induction fuel as [|fuel IH]; intros distance found enemy ms Hrun; [done|].
  simpl in Hrun.
  destruct (isValidPosition _ _); simpl in Hrun;
    [|inversion Hrun; exists None; intros m Hm; by apply elem_of_nil in Hm].
  destruct found; simpl in Hrun.
  - destruct (b !! _);
      [inversion Hrun; exists None; intros m Hm; by apply elem_of_nil in Hm|].
    destruct (captureLoop fuel _ _ _ _ _ _ _ _ _) as [rest|] eqn:Hrest; [|done].
    inversion Hrun; subst ms. exists enemy.
    assert (∀ f dist rest',
              captureLoop f b piece r c d.1 d.2 dist true enemy = Some rest' →
              ∀ m, m ∈ rest' → capture m = enemy) as Hsame.
    { clear. induction f as [|f IHf]; intros dist rest' Hr; [done|].
      simpl in Hr. destruct (isValidPosition _ _); simpl in Hr;
        [|inversion Hr; intros m Hm; by apply elem_of_nil in Hm].
      destruct (b !! _);
        [inversion Hr; intros m Hm; by apply elem_of_nil in Hm|].
      destruct (captureLoop f _ _ _ _ _ _ _ _ _) as [rest''|] eqn:Hr''; [|done].
      inversion Hr; subst rest'. intros m [->|Hm]%elem_of_cons; [done|].
      by eapply IHf. }
    intros m [->|Hm]%elem_of_cons; [done|]. by eapply Hsame.
  - destruct (b !! _) as [other|].
    + case_bool_decide;
        [|inversion Hrun; exists None; intros m Hm; by apply elem_of_nil in Hm].
      by eapply IH.
    + by eapply IH.
Qed.
End KingScan.

Lemma captureLoop_agree b piece r c d f1 f2 distance found enemy ms1 ms2 :
  captureLoop f1 b piece r c d.1 d.2 distance found enemy = Some ms1 →
  captureLoop f2 b piece r c d.1 d.2 distance found enemy = Some ms2 →
  ms1 = ms2.
Proof.
  intros H1 H2.
  apply (captureLoop_le _ _ _ _ _ _ (f1 `max` f2)%nat) in H1; [|lia].
  apply (captureLoop_le _ _ _ _ _ _ (f1 `max` f2)%nat) in H2; [|lia].
  congruence.
Qed.

Lemma captureRay_king b piece r c d :
  king piece = true → hasRow r = true → diagonal d →
  captureDir b piece r c d = Some (captureRay b piece r c d) ∧
  captureLoop loopBudget b piece r c d.1 d.2 1 false None
    = Some (captureRay b piece r c d).
Proof.
  intros Hk Hr Hd. unfold captureRay.
  destruct (captureDir_total b piece r c d Hr Hd) as [ms Hms].
  rewrite Hms. split; [done|]. simpl.
  unfold captureDir in Hms. destruct d as [dRow dCol]. by rewrite Hk in Hms.
Qed.

Lemma landings_length r c d enemy k n :
  0 <= n → length (landings r c d enemy k n) = Z.to_nat n.
Proof. intros Hn. unfold landings. by rewrite length_fmap, length_seqZ. Qed.

Section KingRay.
Variables (b : Board) (piece : Piece) (r c : Z) (d : Z * Z).
Hypotheses (Hking : king piece = true) (Hrow : hasRow r = true)
           (Hdiag : diagonal d).

Lemma captureRay_by_fuel fuel ms :
  captureLoop fuel b piece r c d.1 d.2 1 false None = Some ms →
  captureRay b piece r c d = ms.
Proof.
  intros Hrun.
  destruct (captureRay_king b piece r c d Hking Hrow Hdiag) as [_ Hbudget].
  by eapply captureLoop_agree.
Qed.

Lemma captureRay_enemy k (n : nat) e :
  1 <= k → emptyRun b r c d 1 k →
  isValidPosition (stepTo r c d k).1 (stepTo r c d k).2 = true →
  b !! stepTo r c d k = Some e → color e ≠ color piece →
  emptyRun b r c d (k + 1) (k + 1 + Z.of_nat n) →
  stopsAt b r c d (k + 1 + Z.of_nat n) →
  captureRay b piece r c d = landings r c d (stepTo r c d k) (k + 1) (Z.of_nat n).
Proof.
  intros Hk Hbefore Hv He Hcol Hafter Hstop.
  apply (captureRay_by_fuel (Z.to_nat (k - 1) + S (S n))).
  rewrite captureLoop_seek
    by (replace (1 + Z.of_nat (Z.to_nat (k - 1))) with k by lia; done).
  replace (1 + Z.of_nat (Z.to_nat (k - 1))) with k by lia.
  rewrite captureLoop_S. cbv zeta.
  unfold stepTo in Hv, He. simpl in Hv, He. rewrite Hv, He. cbn [negb].
  rewrite bool_decide_eq_true_2 by done.
  by apply captureLoop_land; [lia|..].
Qed.

Lemma captureRay_own k e :
  1 <= k → emptyRun b r c d 1 k →
  isValidPosition (stepTo r c d k).1 (stepTo r c d k).2 = true →
  b !! stepTo r c d k = Some e → color e = color piece →
  captureRay b piece r c d = [].
Proof.
  intros Hk Hbefore Hv He Hcol.
  apply (captureRay_by_fuel (Z.to_nat (k - 1) + 1)).
  rewrite captureLoop_seek
    by (replace (1 + Z.of_nat (Z.to_nat (k - 1))) with k by lia; done).
  replace (1 + Z.of_nat (Z.to_nat (k - 1))) with k by lia.
  rewrite captureLoop_S. cbv zeta.
  unfold stepTo in Hv, He. simpl in Hv, He. rewrite Hv, He. cbn [negb].
  by rewrite bool_decide_eq_false_2 by (intros H; by apply H).
Qed.

Lemma captureRay_edge k :
  1 <= k → emptyRun b r c d 1 k →
  isValidPosition (stepTo r c d k).1 (stepTo r c d k).2 = false →
  captureRay b piece r c d = [].
Proof.
  intros Hk Hbefore Hv.
  apply (captureRay_by_fuel (Z.to_nat (k - 1) + 1)).
  rewrite captureLoop_seek
    by (replace (1 + Z.of_nat (Z.to_nat (k - 1))) with k by lia; done).
  replace (1 + Z.of_nat (Z.to_nat (k - 1))) with k by lia.
  rewrite captureLoop_S. cbv zeta.
  unfold stepTo in Hv. simpl in Hv. by rewrite Hv.
Qed.

Lemma captureRay_one_target :
  ∃ target, ∀ m, m ∈ captureRay b piece r c d → capture m = target.
Proof.
  destruct (captureRay_king b piece r c d Hking Hrow Hdiag) as [_ Hbudget].
  by eapply captureLoop_one_target.
Qed.
End KingRay.

(** C3.  The capture moves of a king.  [getCaptureMoves] returns the
    results of the four diagonal scans, in the order up-left, up-right,
    down-left, down-right.  In each direction: if, after a run of empty
    squares, the first occupied square holds an enemy piece, and exactly
    [n] empty squares follow it before the next occupied square or the
    edge, the scan yields exactly the [n] landings on those squares, all
    capturing that enemy piece ([n = 0]: a second piece right behind it,
    or the edge, gives nothing); if the first occupied square holds a
    piece of the king's own colour, or the edge comes first, the scan
    yields nothing.  All moves of one direction capture the same square. *)
Theorem king_capture_scan b r c piece :
  king piece = true → hasRow r = true → b !! (r, c) = Some piece →
  getCaptureMoves b r c =
    Some (captureRay b piece r c (-1, -1) ++ captureRay b piece r c (-1, 1) ++
          captureRay b piece r c (1, -1) ++ captureRay b piece r c (1, 1)) ∧
  ∀ d, diagonal d →
    captureDir b piece r c d = Some (captureRay b piece r c d) ∧
    (∀ k (n : nat) e,
       1 <= k → emptyRun b r c d 1 k →
       isValidPosition (stepTo r c d k).1 (stepTo r c d k).2 = true →
       b !! stepTo r c d k = Some e → color e ≠ color piece →
       emptyRun b r c d (k + 1) (k + 1 + Z.of_nat n) →
       stopsAt b r c d (k + 1 + Z.of_nat n) →
       captureRay b piece r c d
         = landings r c d (stepTo r c d k) (k + 1) (Z.of_nat n) ∧
       length (captureRay b piece r c d) = n) ∧
    (∀ k e,
       1 <= k → emptyRun b r c d 1 k →
       isValidPosition (stepTo r c d k).1 (stepTo r c d k).2 = true →
       b !! stepTo r c d k = Some e → color e = color piece →
       captureRay b piece r c d = []) ∧
    (∀ k,
       1 <= k → emptyRun b r c d 1 k →
       isValidPosition (stepTo r c d k).1 (stepTo r c d k).2 = false →
       captureRay b piece r c d = []) ∧
    (∃ target, ∀ m, m ∈ captureRay b piece r c d → capture m = target).
Proof.
  intros Hking Hrow Hp. split.
  - rewrite (getCaptureMoves_unfold _ _ _ piece) by done.
    unfold directions. rewrite Hking.
    assert (mapM (captureDir b piece r c) [(-1, -1); (-1, 1); (1, -1); (1, 1)]
            = Some [captureRay b piece r c (-1, -1); captureRay b piece r c (-1, 1);
                    captureRay b piece r c (1, -1); captureRay b piece r c (1, 1)])
      as ->.
    { apply mapM_Some. repeat constructor;
        apply captureRay_king; try done; unfold diagonal; simpl; lia. }
    simpl. by rewrite app_nil_r.
  - intros d Hd. split_and!.
    + by apply captureRay_king.
    + intros k n e Hk Hbefore Hv He Hcol Hafter Hstop.
      rewrite (captureRay_enemy b piece r c d Hking Hrow Hd k n e) by done.
      split; [done|]. rewrite landings_length by lia. lia.
    + intros k e. by apply captureRay_own.
    + intros k. by apply captureRay_edge.
    + by apply captureRay_one_target.
Qed.

Lemma king_capture_scan_witness :
  getCaptureMoves longDiagonalBoard 0 0 =
    Some (captureRay longDiagonalBoard (mkPiece red true) 0 0 (-1, -1) ++
          captureRay longDiagonalBoard (mkPiece red true) 0 0 (-1, 1) ++
          captureRay longDiagonalBoard (mkPiece red true) 0 0 (1, -1) ++
          captureRay longDiagonalBoard (mkPiece red true) 0 0 (1, 1)) ∧
  captureRay longDiagonalBoard (mkPiece red true) 0 0 (1, 1)
    = landings 0 0 (1, 1) (3, 3) 4 4 ∧
  length (captureRay longDiagonalBoard (mkPiece red true) 0 0 (1, 1)) = 4%nat.
Proof.
  destruct (king_capture_scan longDiagonalBoard 0 0 (mkPiece red true))
    as [Hall Hdir]; [reflexivity..|].
  split; [exact Hall|].
  destruct (Hdir (1, 1)) as (_ & Henemy & _); [unfold diagonal; simpl; lia|].
  apply (Henemy 3 4%nat (mkPiece black false)).
  - lia.
  - intros i Hi. assert (i = 1 ∨ i = 2) as [-> | ->] by lia; by vm_compute.
  - reflexivity.
  - reflexivity.
  - done.
  - intros i Hi.
    assert (i = 4 ∨ i = 5 ∨ i = 6 ∨ i = 7) as [-> | [-> | [-> | ->]]] by lia;
      by vm_compute.
  - left. reflexivity.
Defined.

(** ** The forced-capture rule *)

Lemma legalMoves_piece b r c piece caps alls :
  hasRow r = true → b !! (r, c) = Some piece →
  getCaptureMoves b r c = Some caps →
  getAllCaptureMoves b (color piece) = Some alls →
  legalMoves b r c =
    if bool_decide (0 < length alls)%nat then Some caps
    else normalMoves ← getNormalMoves b r c; Some (caps ++ normalMoves).
Proof.
  intros Hr Hp Hcaps Halls. unfold legalMoves.
  rewrite (getValidMoves_piece (boardOnly b) r c piece caps alls) by done.
  case_bool_decide; [done|]. simpl. by destruct (getNormalMoves _ _ _).
Qed.

Lemma blockedGame_run : run blockedClicks opening = Some blockedGame.
Proof. vm_compute. reflexivity. Qed.

Lemma blockedGame_reachable : reachable blockedGame.
Proof.
  apply (reachable_from_opening blockedClicks); [|exact blockedGame_run].
  unfold blockedClicks. repeat constructor.
Qed.

Lemma blockedGame_no_move : ¬ hasLegalMove (board blockedGame) (Some red).
Proof.
  destruct (playerHasValidMoves_spec (Some red) blockedGame)
    as (v & g' & Hrun & _ & Hv).
  intros Hyes%Hv. subst v. vm_compute in Hrun. discriminate.
Qed.

(** C1 as stated fails on a reachable board: at the end of the game
    [blockedClicks] red has one piece left, blocked; its capture set is
    empty, and, having no legal move at all, every legal-move list of red
    contains only captures. *)
Lemma blocked_side_counterexample :
  reachable blockedGame ∧
  ¬ (captureSetNonEmpty (board blockedGame) red ↔
     onlyCaptures (board blockedGame) red).
Proof.
  split; [exact blockedGame_reachable|].
  intros [_ Hback].
  destruct Hback as (alls & Halls & Hne).
  - intros r c piece ms m Hv Hp Hcl Hms Hm.
    destruct blockedGame_no_move. exists r, c, piece, ms.
    split_and!; [exact Hv|exact Hp|by rewrite Hcl|exact Hms|].
    intros ->. by apply elem_of_nil in Hm.
  - vm_compute in Halls. inversion Halls; subst alls. by apply Hne.
Qed.

(** C1, amended.  (1) On a square that holds a piece, [getValidMoves]
    returns the piece's capture moves when the capture set of its side is
    non-empty, and its capture moves followed by its normal moves when
    that set is empty.  (2) On every board, a side's capture set is
    non-empty iff the side has a legal move and every legal-move list of
    the side contains only capture moves. *)
Theorem forced_capture_rule :
  (∀ g r c piece,
     hasRow r = true → board g !! (r, c) = Some piece →
     ∃ caps alls norm,
       getCaptureMoves (board g) r c = Some caps ∧
       getAllCaptureMoves (board g) (color piece) = Some alls ∧
       getNormalMoves (board g) r c = Some norm ∧
       (alls ≠ [] → fst <$> getValidMoves r c g = Some caps) ∧
       (alls = [] → fst <$> getValidMoves r c g = Some (caps ++ norm))) ∧
  (∀ b cl,
     captureSetNonEmpty b cl ↔
     hasLegalMove b (Some cl) ∧ onlyCaptures b cl).
Proof.
  split.
  - intros g r c piece Hr Hp.
    destruct (getCaptureMoves_total _ _ _ _ Hr Hp) as [caps Hcaps].
    destruct (getAllCaptureMoves_total (board g) (color piece)) as [alls Halls].
    destruct (getNormalMoves_total _ _ _ _ Hr Hp) as [norm Hnorm].
    exists caps, alls, norm. split_and!; [done..| |].
    + intros Hne. rewrite getValidMoves_legalMoves.
      rewrite (legalMoves_piece _ _ _ _ _ _ Hr Hp Hcaps Halls).
      rewrite bool_decide_eq_true_2; [done|].
      destruct alls; [done|simpl; lia].
    + intros ->. rewrite getValidMoves_legalMoves.
      rewrite (legalMoves_piece _ _ _ _ _ _ Hr Hp Hcaps Halls).
      rewrite bool_decide_eq_false_2 by (simpl; lia).
      by rewrite Hnorm.
  - intros b cl. split.
    + intros (alls & Halls & Hne). split.
      * destruct alls as [|m alls']; [done|].
        destruct (proj1 (getAllCaptureMoves_elem _ _ _ m Halls))
          as (r & c & piece & caps & Hv & Hp & Hcl & Hcaps & Hm); [by left|].
        exists r, c, piece, caps. subst cl. split_and!; try done.
        -- rewrite (legalMoves_piece _ _ _ _ _ _
                      (isValidPosition_hasRow _ _ Hv) Hp Hcaps Halls).
           by rewrite bool_decide_eq_true_2 by (simpl; lia).
        -- intros ->. by apply elem_of_nil in Hm.
      * intros r c piece ms m Hv Hp Hcl Hms Hm. subst cl.
        apply legalMoves_inv in Hms as [Hr Hms]. rewrite Hp in Hms.
        destruct Hms as (caps & alls' & Hcaps & Halls' & [[_ ->]|[-> _]]);
          [|congruence].
        destruct (getCaptureMoves_moves _ _ _ _ _ _ Hp Hcaps Hm)
          as (d & j & k & e & _ & _ & _ & _ & _ & -> & _).
        by eexists.
    + intros [(r & c & piece & ms & Hv & Hp & Hcl & Hms & Hne) Honly].
      destruct (getAllCaptureMoves_total b cl) as [alls Halls].
      exists alls. split; [done|]. intros ->.
      destruct ms as [|m ms']; [done|].
      assert (is_Some (capture m)) as [cp Hcp].
      { eapply (Honly r c piece (m :: ms') m); try done; [congruence|by left]. }
      pose proof Hms as Hms'.
      apply legalMoves_inv in Hms' as [Hr Hinv]. rewrite Hp in Hinv.
      destruct Hinv as (caps & alls' & Hcaps & Halls' & Hcase).
      assert (alls' = []) as -> by congruence.
      destruct Hcase as [[? _]|(_ & norm & Hnorm & Heq)]; [done|].
      assert (m ∈ caps ++ norm) as [Hm|Hm]%elem_of_app by (rewrite <- Heq; by left).
      * assert (m ∈ @nil Move) as []%elem_of_nil.
        apply (getAllCaptureMoves_elem _ _ _ m Halls).
        exists r, c, piece, caps. by split_and!; try congruence.
      * destruct (getNormalMoves_moves _ _ _ _ _ Hnorm Hm)
          as (d & k & _ & _ & _ & _ & _ & Hnone).
        congruence.
Qed.

Lemma forced_capture_rule_witness :
  (∃ caps alls norm,
     getCaptureMoves (board opening) 5 1 = Some caps ∧
     getAllCaptureMoves (board opening) (color (mkPiece red false)) = Some alls ∧
     getNormalMoves (board opening) 5 1 = Some norm ∧
     (alls ≠ [] → fst <$> getValidMoves 5 1 opening = Some caps) ∧
     (alls = [] → fst <$> getValidMoves 5 1 opening = Some (caps ++ norm))) ∧
  (captureSetNonEmpty doubleJumpBoard red ↔
   hasLegalMove doubleJumpBoard (Some red) ∧ onlyCaptures doubleJumpBoard red).
Proof.
  pose proof forced_capture_rule as [Hrule Hiff].
  split.
  - apply (Hrule opening 5 1 (mkPiece red false)); reflexivity.
  - apply (Hiff doubleJumpBoard red).
Defined.

(** * Further properties of the engine *)

(** ** States the page can reach *)

Lemma deselectPiece_run g :
  ∃ g', deselectPiece g = Some (tt, g') ∧
        board g' = board g ∧ currentPlayer g' = currentPlayer g ∧
        continueCapture g' = continueCapture g ∧ gameOver g' = gameOver g ∧
        stats g' = stats g ∧ statusWinner g' = statusWinner g ∧
        statusMessage g' = statusMessage g ∧
        (if continueCapture g then g' = g
         else selectedPiece g' = None ∧ selectedSquare g' = None ∧
              validMoves g' = []).
Proof.
  unfold deselectPiece. munfold. destruct (continueCapture g) eqn:Hcc.
  - exists g. by rewrite Hcc.
  - eexists. split; [reflexivity|]. cbn. by rewrite Hcc.
Qed.

Lemma handleSquareClick_cases g r c :
  consistent g → isValidPosition r c = true →
  ∃ g', handleSquareClick r c g = Some (tt, g') ∧ ClickOutcome g r c g'.
Proof.
  intros Hcons Hv. pose proof (isValidPosition_hasRow _ _ Hv) as Hr.
  unfold handleSquareClick. munfold.
  destruct (gameOver g); [exists g; split; [done|by apply Ignored]|].
  rewrite readSquare_Some by done.
  destruct (bool_decide (is_Some (selectedPiece g)) && isValidMove r c g) eqn:Hmove.
  - apply andb_true_iff in Hmove as [_ Hmv].
    apply isValidMove_findMove in Hmv as [m Hfind].
    destruct Hcons as [Hnil|(sr & sc & Hsel & Hcomp)].
    { rewrite Hnil in Hfind. done. }
    rewrite Hsel. cbn [fst snd].
    destruct (movePiece_computed _ _ _ _ _ _ Hfind Hcomp)
      as (piece & g1 & _ & _ & _ & _ & Hrun & _).
    exists g1. split; [done|]. by eapply Moved.
  - assert (isValidMove r c g = false ∨ selectedPiece g = None) as Hnomove.
    { apply andb_false_iff in Hmove as [Hsp|Hmv]; [|by left].
      right. apply bool_decide_eq_false in Hsp.
      destruct (selectedPiece g); [|done]. destruct Hsp. by eexists. }
    assert (∃ g', deselectPiece g = Some (tt, g') ∧ ClickOutcome g r c g')
      as Hdes.
    { destruct (deselectPiece_run g) as (g' & Hrun & Hrest).
      exists g'. split; [done|].
      destruct (continueCapture g) eqn:Hcc.
      - apply Ignored. by destruct Hrest as (_ & _ & _ & _ & _ & _ & _ & ->).
      - by apply Deselected. }
    destruct (board g !! (r, c)) as [p|] eqn:Hp; [|exact Hdes].
    destruct (bool_decide (Some (color p) = currentPlayer g)) eqn:Hcl;
      [|exact Hdes].
    apply bool_decide_eq_true in Hcl.
    destruct (continueCapture g && _) eqn:Hpin.
    + exists g. split; [done|by apply Ignored].
    + destruct (selectPiece_run g r c p Hr Hp) as (g' & Hrun & _).
      exists g'. split; [done|]. eapply Selected; try done.
      intros Hcc. rewrite Hcc in Hpin. cbn [andb] in Hpin.
      destruct (selectedSquare g) as [[sr sc]|]; [|by right].
      left. apply bool_decide_eq_false in Hpin. simpl in Hpin.
      f_equal. f_equal.
      * destruct (decide (sr = r)); [done|]. destruct Hpin. by left.
      * destruct (decide (sc = c)); [done|]. destruct Hpin. by right.
Qed.

Lemma click_sound g r c g' :
  sound g → ClickOutcome g r c g' → sound g'.
Proof.
  intros (Hdark & Hcons & Hsync) [->|sr sc m Hsel Hcomp Hfind Hrun
                                 |p Hnomove Hp Hcl Hrun Hsame
                                 |Hnomove Hcc Hrun]; [done| | |].
  - destruct (movePiece_dark _ _ _ _ _ _ Hdark Hfind Hcomp)
      as (g1 & Hrun1 & _ & Hd1 & Hc1).
    destruct (movePiece_computed _ _ _ _ _ _ Hfind Hcomp)
      as (piece & g2 & _ & _ & _ & _ & Hrun2 & Hb & Hres).
    assert (g1 = g') as -> by congruence.
    assert (g2 = g') as -> by congruence.
    split_and!; [done|done|].
    assert (turnEnded g g' → inSync g') as Hended.
    { intros (_ & Hsp & Hss & _). unfold inSync. by rewrite Hsp, Hss. }
    destruct (promotes piece r); [by apply Hended|].
    destruct (capture m); [|by apply Hended].
    destruct (getCaptureMoves _ _ _) as [[|c0 caps]|] eqn:Hcaps;
      [by apply Hended| |by apply Hended].
    destruct Hres as (_ & Hss & Hsp & _).
    unfold inSync. by rewrite Hsp, Hss.
  - assert (hasRow r = true) as Hr.
    { unfold selectPiece in Hrun. munfold.
      destruct (readSquare _ _ _) eqn:Hread; [|done].
      by apply readSquare_inv in Hread as [? _]. }
    destruct (selectPiece_run g r c p Hr Hp)
      as (g1 & Hrun1 & Hb & _ & Hss & Hsp & Hcc & _ & _ & _ & _ & Hvm).
    assert (g1 = g') as -> by congruence.
    split_and!.
    + by rewrite Hb.
    + right. exists r, c. split; [done|]. unfold computedFor. rewrite Hb.
      destruct (continueCapture g); [by left|by right].
    + unfold inSync. rewrite Hss, Hsp, Hb. simpl. by rewrite Hp.
  - destruct (deselectPiece_run g)
      as (g1 & Hrun1 & Hb & _ & Hcc1 & _ & _ & _ & _ & Hrest).
    assert (g1 = g') as -> by congruence.
    rewrite Hcc in Hrest. destruct Hrest as (Hsp & Hss & Hvm).
    split_and!.
    + by rewrite Hb.
    + by left.
    + unfold inSync. by rewrite Hsp, Hss.
Qed.

(** A click keeps a pending chain on its piece. *)
Lemma click_pinned g r c g' :
  pinned g → ClickOutcome g r c g' → pinned g'.
Proof.
  intros Hpin [->|sr sc m Hsel Hcomp Hfind Hrun
              |p Hnomove Hp Hcl Hrun Hsame
              |Hnomove Hcc Hrun]; [done| | |].
  - destruct (movePiece_computed _ _ _ _ _ _ Hfind Hcomp)
      as (piece & g2 & _ & _ & _ & _ & Hrun2 & Hb & Hres).
    assert (g2 = g') as -> by congruence.
    assert (turnEnded g g' → pinned g') as Hended.
    { intros (Hcc & _) Hcc'. congruence. }
    destruct (promotes piece r); [by apply Hended|].
    destruct (capture m); [|by apply Hended].
    destruct (getCaptureMoves _ _ _) as [[|c0 caps]|] eqn:Hcaps;
      [by apply Hended| |by apply Hended].
    destruct Hres as (_ & Hss & _ & Hvm & _).
    intros _. exists r, c. rewrite Hb, Hvm. by split_and!.
  - assert (hasRow r = true) as Hr.
    { unfold selectPiece in Hrun. munfold.
      destruct (readSquare _ _ _) eqn:Hread; [|done].
      by apply readSquare_inv in Hread as [? _]. }
    destruct (selectPiece_run g r c p Hr Hp)
      as (g1 & Hrun1 & Hb & _ & Hss & Hsp & Hcc & _ & _ & _ & _ & Hvm).
    assert (g1 = g') as -> by congruence.
    intros Hcc'. rewrite Hcc in Hcc'.
    destruct (Hpin Hcc') as (r0 & c0 & Hsel & Hcaps & Hne).
    destruct (Hsame Hcc') as [Hsq|Hsq]; [|congruence].
    assert (r0 = r ∧ c0 = c) as [-> ->] by (split; congruence).
    rewrite Hcc' in Hvm. exists r, c. rewrite Hb.
    assert (validMoves g' = validMoves g) as -> by congruence.
    by split_and!.
  - destruct (deselectPiece_run g)
      as (g1 & Hrun1 & Hb & _ & Hcc1 & _ & _ & _ & _ & Hrest).
    assert (g1 = g') as -> by congruence.
    intros Hcc'. congruence.
Qed.

Lemma toggleStarter_run checked g :
  ∃ g', toggleStarter checked g = Some (tt, g') ∧
        board g' = board g ∧
        currentPlayer g' = Some (if checked then black else red) ∧
        selectedPiece g' = selectedPiece g ∧
        selectedSquare g' = selectedSquare g ∧
        validMoves g' = validMoves g ∧ mustCapture g' = mustCapture g ∧
        continueCapture g' = continueCapture g ∧ gameOver g' = gameOver g ∧
        stats g' = stats g ∧ statusWinner g' = statusWinner g.
Proof.
  unfold toggleStarter. munfold. rewrite updateUI_run.
  eexists. split; [reflexivity|].
  by destruct (gameOver (set_currentPlayer _ g)).
Qed.

Lemma handle_sound e g :
  sound g → onBoard e →
  ∃ g', handle e g = Some (tt, g') ∧ sound g'.
Proof.
  intros Hsound He. destruct e as [r c| |checked|random]; simpl.
  - pose proof Hsound as (_ & Hcons & _).
    destruct (handleSquareClick_cases g r c Hcons He) as (g' & Hrun & Hout).
    exists g'. split; [done|]. by eapply click_sound.
  - rewrite resetGame_run. eexists. split; [reflexivity|].
    split_and!; [apply initBoard_dark|by left|done].
  - destruct (toggleStarter_run checked g)
      as (g' & Hrun & Hb & _ & Hsp & Hss & Hvm & _ & Hcc & _).
    exists g'. split; [done|].
    destruct Hsound as (Hdark & Hcons & Hsync).
    unfold sound, consistent, computedFor, inSync.
    rewrite Hb, Hsp, Hss, Hvm. by split_and!.
  - destruct (showHint_run random g) as (g' & Hrun & Hout).
    exists g'. split; [done|].
    destruct Hout as [[_ ->]|(_ & g1 & [v ->] & Hout)]; [done|].
    destruct Hout as [[_ ->]|(r & c & piece & ms & g2 & Hv & Hp & _ & _ & _
                              & Hsel & ->)]; [exact Hsound|].
    destruct (selectPiece_run (set_mustCapture v g) r c piece)
      as (g3 & Hrun3 & Hb & _ & Hss & Hsp & Hcc & _ & _ & _ & _ & Hvm);
      [by eapply isValidPosition_hasRow|done|].
    assert (g3 = g2) as -> by congruence.
    destruct Hsound as (Hdark & _ & _).
    unfold sound, consistent, computedFor, inSync.
    cbn [board selectedPiece selectedSquare validMoves set_statusMessage].
    rewrite Hb, Hss, Hsp. cbn [board continueCapture set_mustCapture] in *.
    split_and!; [done| |by simpl; rewrite Hp].
    right. exists r, c. split; [done|].
    destruct (continueCapture g); [by left|by right].
Qed.

Lemma run_sound es g :
  sound g → Forall onBoard es →
  ∃ g', run es g = Some g' ∧ sound g'.
Proof.
  revert g. induction es as [|e es IH]; intros g Hsound Hes.
  - by exists g.
  - apply Forall_cons in Hes as [He Hes].
    destruct (handle_sound e g Hsound He) as (g1 & Hrun & Hs1).
    destruct (IH g1 Hs1 Hes) as (g' & Hrun' & Hs').
    exists g'. split; [|done]. simpl. unfold exec. by rewrite Hrun.
Qed.

Lemma startGame_sound saved start : sound (startGame saved start).
Proof. split_and!; [apply initBoard_dark|by left|done]. Qed.

Lemma reachable_sound g : reachable g → sound g.
Proof.
  intros (saved & start & es & Hes & Hrun).
  destruct (run_sound es _ (startGame_sound saved start) Hes)
    as (g' & Hrun' & Hs').
  congruence.
Qed.

Lemma run_snoc es e g g1 g' :
  run es g = Some g1 → handle e g1 = Some (tt, g') →
  run (es ++ [e]) g = Some g'.
Proof.
  revert g. induction es as [|e0 es IH]; intros g Hrun Hstep; simpl in *.
  - inversion Hrun; subst. unfold exec. by rewrite Hstep.
  - destruct (exec (handle e0) g) as [g2|]; [|done]. simpl in *.
    by apply IH.
Qed.

Lemma reachable_step g e g' :
  reachable g → onBoard e → handle e g = Some (tt, g') → reachable g'.
Proof.
  intros (saved & start & es & Hes & Hrun) He Hstep.
  exists saved, start, (es ++ [e]). split.
  - apply Forall_app. split; [done|]. by constructor.
  - by eapply run_snoc.
Qed.

(** X1.  The page cannot make the engine throw: from every state it can
    reach, a click on any of the 64 squares, a reset, a change of the
    starter toggle and a press of the hint button all return, and lead to
    a reachable state again. *)
Theorem reachable_never_throws g e :
  reachable g → onBoard e →
  ∃ g', handle e g = Some (tt, g') ∧ reachable g'.
Proof.
  intros Hreach He.
  destruct (handle_sound e g (reachable_sound g Hreach) He) as (g' & Hrun & _).
  exists g'. split; [done|]. by eapply reachable_step.
Qed.

Lemma reachable_never_throws_witness :
  ∃ g', handle (Click 4 2) openingSelected = Some (tt, g') ∧ reachable g'.
Proof.
  apply (reachable_never_throws openingSelected (Click 4 2)).
  - exact openingSelected_reachable.
  - reflexivity.
Defined.

Lemma handle_pinned e g g' :
  consistent g → pinned g → onBoard e → noHint e →
  handle e g = Some (tt, g') → pinned g'.
Proof.
  intros Hcons Hpin He Hno Hrun. destruct e as [r c| |checked|random];
    [| | |done]; simpl in Hrun.
  - destruct (handleSquareClick_cases g r c Hcons He) as (g1 & Hrun1 & Hout).
    assert (g1 = g') as -> by congruence. by eapply click_pinned.
  - rewrite resetGame_run in Hrun. by inversion Hrun; subst g'.
  - destruct (toggleStarter_run checked g)
      as (g1 & Hrun1 & Hb & _ & _ & Hss & Hvm & _ & Hcc & _).
    assert (g1 = g') as -> by congruence.
    unfold pinned. by rewrite Hb, Hss, Hvm, Hcc.
Qed.

Lemma run_pinned es g g' :
  sound g → pinned g → Forall onBoard es → Forall noHint es →
  run es g = Some g' → pinned g'.
Proof.
  revert g. induction es as [|e es IH]; intros g Hsound Hpin Hes Hno Hrun.
  - simpl in Hrun. by inversion Hrun; subst.
  - apply Forall_cons in Hes as [He Hes]. apply Forall_cons in Hno as [Hn Hno].
    destruct (handle_sound e g Hsound He) as (g1 & Hstep & Hs1).
    rewrite run_cons in Hrun. unfold exec in Hrun. rewrite Hstep in Hrun.
    simpl in Hrun. eapply (IH g1); try done.
    destruct Hsound as (_ & Hcons & _). by eapply handle_pinned.
Qed.

(** X2.  As long as the hint button is not pressed, a pending capture
    chain can always be continued: after any clicks, resets and toggle
    changes from the start, if the chain flag is set then a square is
    selected and the stored moves are the captures of the piece on it,
    at least one. *)
Theorem chain_pinned_without_hint saved start es g :
  Forall onBoard es → Forall noHint es →
  run es (startGame saved start) = Some g →
  continueCapture g = true →
  ∃ r c, selectedSquare g = Some (r, c) ∧
         getCaptureMoves (board g) r c = Some (validMoves g) ∧
         validMoves g ≠ [].
Proof.
  intros Hes Hno Hrun Hcc.
  by apply (run_pinned es _ g (startGame_sound saved start)).
Qed.

(** X3.  The selection stays in step with the board: in every reachable
    state [selectedPiece] is the piece the board holds on
    [selectedSquare], and is [null] when no square is selected; whenever
    moves are stored, a square is selected and they are the moves
    computed for it. *)
Theorem reachable_selection_in_sync g :
  reachable g →
  selectedPiece g = (sq ← selectedSquare g; board g !! sq) ∧
  (validMoves g ≠ [] →
   ∃ r c, selectedSquare g = Some (r, c) ∧ computedFor g r c).
Proof.
  intros Hreach. destruct (reachable_sound g Hreach) as (_ & Hcons & Hsync).
  split; [exact Hsync|]. intros Hne. by destruct Hcons.
Qed.

Lemma midChain_reachable : reachable midChain.
Proof.
  apply (reachable_from_opening (take 20 blockedClicks));
    [|vm_compute; reflexivity].
  unfold blockedClicks. simpl. repeat constructor.
Qed.

Lemma midChain_run :
  run (Toggle false :: take 20 blockedClicks) (startGame None red)
  = Some midChain.
Proof. vm_compute. reflexivity. Qed.

Lemma chain_pinned_without_hint_witness :
  ∃ r c, selectedSquare midChain = Some (r, c) ∧
         getCaptureMoves (board midChain) r c = Some (validMoves midChain) ∧
         validMoves midChain ≠ [].
Proof.
  apply (chain_pinned_without_hint None red
           (Toggle false :: take 20 blockedClicks) midChain).
  - unfold blockedClicks. simpl. repeat constructor.
  - unfold blockedClicks. simpl. repeat constructor.
  - exact midChain_run.
  - vm_compute. reflexivity.
Defined.

Lemma reachable_selection_in_sync_witness :
  selectedPiece midChain = (sq ← selectedSquare midChain; board midChain !! sq) ∧
  (validMoves midChain ≠ [] →
   ∃ r c, selectedSquare midChain = Some (r, c) ∧ computedFor midChain r c).
Proof.
  apply (reachable_selection_in_sync midChain). exact midChain_reachable.
Defined.

(** ** The game never gets stuck *)

Lemma hasLegalMove_dec b cl : hasLegalMove b cl ∨ ¬ hasLegalMove b cl.
Proof.
  destruct (playerHasValidMoves_spec cl (boardOnly b)) as (v & g' & _ & _ & Hv).
  destruct v; [left; by apply Hv|right]. intros H%Hv. done.
Qed.

Lemma click_live g r c g' :
  live g → ClickOutcome g r c g' → live g'.
Proof.
  intros Hlive [->|sr sc m Hsel Hcomp Hfind Hrun
               |p Hnomove Hp Hcl Hrun Hsame
               |Hnomove Hcc Hrun]; [done| | |].
  - destruct (movePiece_computed _ _ _ _ _ _ Hfind Hcomp)
      as (piece & g2 & _ & _ & _ & _ & Hrun2 & Hb & Hres).
    assert (g2 = g') as -> by congruence.
    intros Hgo Hcc.
    assert (turnEnded g g') as (_ & _ & _ & _ & _ & Hterm).
    { destruct (promotes piece r); [done|].
      destruct (capture m); [|done].
      destruct (getCaptureMoves _ _ _) as [[|c0 caps]|]; [done| |done].
      destruct Hres as (Hcc' & _). congruence. }
    unfold termination, declared in Hterm.
    repeat case_decide.
    + destruct Hterm as (Hgo' & _). congruence.
    + destruct Hterm as (Hgo' & _). congruence.
    + destruct Hterm as [Hno _].
      destruct (hasLegalMove_dec (board g') (currentPlayer g')) as [Hyes|Hnot];
        [done|].
      destruct (Hno Hnot) as (Hgo' & _). congruence.
  - assert (hasRow r = true) as Hr.
    { unfold selectPiece in Hrun. munfold.
      destruct (readSquare _ _ _) eqn:Hread; [|done].
      by apply readSquare_inv in Hread as [? _]. }
    destruct (selectPiece_run g r c p Hr Hp)
      as (g1 & Hrun1 & Hb & Hcp & _ & _ & Hcc & Hgo & _).
    assert (g1 = g') as -> by congruence.
    unfold live. rewrite Hb, Hcp, Hcc, Hgo. exact Hlive.
  - destruct (deselectPiece_run g)
      as (g1 & Hrun1 & Hb & Hcp & Hcc1 & Hgo & _).
    assert (g1 = g') as -> by congruence.
    unfold live. rewrite Hb, Hcp, Hcc1, Hgo. exact Hlive.
Qed.

Lemma initBoard_live start : hasLegalMove initBoard (Some start).
Proof.
  destruct start.
  - exists 5, 1, (mkPiece red false), [mkMove 4 0 None; mkMove 4 2 None].
    split_and!; [reflexivity|reflexivity|reflexivity|vm_compute; reflexivity|done].
  - exists 2, 0, (mkPiece black false), [mkMove 3 1 None].
    split_and!; [reflexivity|reflexivity|reflexivity|vm_compute; reflexivity|done].
Qed.

Lemma clicks_live es g g' :
  sound g → pinned g → live g → Forall isClick es → run es g = Some g' →
  sound g' ∧ pinned g' ∧ live g'.
Proof.
  revert g. induction es as [|e es IH]; intros g Hsound Hpin Hlive Hes Hrun.
  - simpl in Hrun. by inversion Hrun; subst.
  - apply Forall_cons in Hes as [He Hes].
    destruct e as [r c| |checked|random]; [|done|done|done]. simpl in He.
    pose proof Hsound as (_ & Hcons & _).
    destruct (handleSquareClick_cases g r c Hcons He) as (g1 & Hstep & Hout).
    simpl in Hrun. unfold exec in Hrun. rewrite Hstep in Hrun. simpl in Hrun.
    eapply (IH g1);
      [by eapply click_sound|by eapply click_pinned|by eapply click_live
      |done|done].
Qed.

(** X4.  Once the starter toggle has given a side the turn, a game played
    by clicks never gets stuck.  After the toggle change and any clicks
    on the board: unless the game is over, either a capture chain is
    pending and the pinned piece has a capture stored, or the side to
    move has a piece with a legal move. *)
Theorem clicks_never_stuck saved start checked es g :
  Forall isClick es →
  run (Toggle checked :: es) (startGame saved start) = Some g →
  gameOver g = false →
  (continueCapture g = true ∧
   ∃ r c, selectedSquare g = Some (r, c) ∧
          getCaptureMoves (board g) r c = Some (validMoves g) ∧
          validMoves g ≠ []) ∨
  (continueCapture g = false ∧ hasLegalMove (board g) (currentPlayer g)).
Proof.
  intros Hes Hrun Hgo. rewrite run_cons in Hrun.
  destruct (toggleStarter_run checked (startGame saved start))
    as (g0 & Hrun0 & Hb & Hcp & Hsp & Hss & Hvm & _ & Hcc & _).
  simpl handle in Hrun. unfold exec in Hrun. rewrite Hrun0 in Hrun.
  simpl in Hrun.
  assert (sound g0 ∧ pinned g0 ∧ live g0) as (Hs0 & Hp0 & Hl0).
  { split_and!.
    - unfold sound, consistent, inSync. rewrite Hb, Hsp, Hss, Hvm.
      split_and!; [apply initBoard_dark|by left|done].
    - intros Hcc'. rewrite Hcc in Hcc'. done.
    - intros _ _. rewrite Hb, Hcp. apply initBoard_live. }
  destruct (clicks_live es g0 g Hs0 Hp0 Hl0 Hes Hrun) as (_ & Hpin & Hlive).
  destruct (continueCapture g) eqn:Hcc1.
  - left. split; [done|]. by apply Hpin.
  - right. split; [done|]. by apply Hlive.
Qed.

Lemma clicks_never_stuck_witness :
  (continueCapture midChain = true ∧
   ∃ r c, selectedSquare midChain = Some (r, c) ∧
          getCaptureMoves (board midChain) r c = Some (validMoves midChain) ∧
          validMoves midChain ≠ []) ∨
  (continueCapture midChain = false ∧
   hasLegalMove (board midChain) (currentPlayer midChain)).
Proof.
  apply (clicks_never_stuck None red false (take 20 blockedClicks) midChain).
  - unfold blockedClicks. simpl. repeat constructor.
  - vm_compute. reflexivity.
  - vm_compute. reflexivity.
Defined.

(** ** Piece accounting *)

Lemma allSquares_NoDup : NoDup allSquares.
Proof. refine (bool_decide_unpack _ _). vm_compute. reflexivity. Qed.

Lemma sum_list_change {A} (f h : A → nat) (l : list A) p :
  NoDup l → p ∈ l → (∀ q, q ≠ p → f q = h q) →
  (sum_list (f <$> l) + h p = sum_list (h <$> l) + f p)%nat.
Proof.
  intros Hnd Hin Hsame. induction Hnd as [|q l Hq Hnd IH].
  - by apply elem_of_nil in Hin.
  - apply elem_of_cons in Hin as [->|Hin]; csimpl.
    + assert (sum_list (f <$> l) = sum_list (h <$> l)) as ->; [|lia].
      f_equal. apply list_fmap_ext. intros i x Hx. apply Hsame.
      intros ->. apply Hq. by eapply list_elem_of_lookup_2.
    + specialize (IH Hin). rewrite (Hsame q); [lia|].
      intros ->. done.
Qed.

(** Changing one square of the board changes the count by what that
    square counts for. *)
Lemma countPieces_change b b' cl p :
  isValidPosition p.1 p.2 = true → (∀ q, q ≠ p → b' !! q = b !! q) →
  (countPieces b' cl + countsAs b cl p = countPieces b cl + countsAs b' cl p)%nat.
Proof.
  intros Hv Hsame. rewrite !countPieces_sum.
  apply sum_list_change.
  - apply allSquares_NoDup.
  - destruct p as [r c]. by apply elem_of_allSquares.
  - intros q Hq. unfold countsAs. by rewrite Hsame.
Qed.

Lemma movePiece_counts_board b fr fc piece m cl :
  b !! (fr, fc) = Some piece → isValidPosition fr fc = true →
  applicable fr fc m →
  simpleOn b fr fc m ∨ captureOn b (color piece) fr fc m →
  (countPieces (boardAfter b fr fc piece m) cl
   + (if bool_decide (cl ≠ color piece ∧ is_Some (capture m)) then 1 else 0)
   = countPieces b cl)%nat.
Proof.
  intros Hp Hvf Happ Hshape.
  pose proof Happ as (_ & _ & Hne & Hcap).
  assert (isValidPosition (row m) (col m) = true ∧ b !! target m = None)
    as [Hvt Het].
  { destruct Hshape as [(d & k & _ & _ & _ & Hv & He & _)
                       |(d & j & k & e & _ & _ & _ & Hv & He & _)]; done. }
  (* the origin is emptied *)
  set (b1 := delete (fr, fc) b).
  pose proof (countPieces_change b b1 cl (fr, fc) Hvf) as H1.
  unfold countsAs in H1. subst b1.
  rewrite lookup_delete_eq, Hp in H1.
  specialize (H1 (λ q Hq, lookup_delete_ne b (fr, fc) q (not_eq_sym Hq))).
  (* the landing square is filled *)
  set (landed := if promotes piece (row m)
                 then mkPiece (color piece) true else piece).
  assert (color landed = color piece) as Hlc.
  { unfold landed. by destruct (promotes piece (row m)). }
  set (b2 := <[target m := landed]> (delete (fr, fc) b)).
  pose proof (countPieces_change (delete (fr, fc) b) b2 cl (target m) Hvt) as H2.
  unfold countsAs in H2. subst b2.
  rewrite lookup_insert_eq, lookup_delete_ne, Het, Hlc in H2 by done.
  specialize (H2 (λ q Hq, lookup_insert_ne _ (target m) q landed (not_eq_sym Hq))).
  destruct (capture m) as [cp|] eqn:Hcm.
  - destruct Hcap as (_ & Hcp1 & Hcp2).
    destruct Hshape as [(d & k & _ & _ & _ & _ & _ & Hnone)
                       |(d & j & k & e & _ & _ & _ & _ & _ & Hc & Hcv & Hce & Hcol)];
      [congruence|].
    assert (cp = stepTo fr fc d j) as Hcpeq by congruence.
    rewrite <- Hcpeq in Hcv, Hce.
    set (b3 := delete cp (<[target m := landed]> (delete (fr, fc) b))).
    pose proof (countPieces_change
                  (<[target m := landed]> (delete (fr, fc) b)) b3 cl cp Hcv) as H3.
    unfold countsAs in H3. subst b3.
    rewrite lookup_delete_eq, lookup_insert_ne, lookup_delete_ne, Hce in H3
      by done.
    specialize (H3 (λ q Hq, lookup_delete_ne _ cp q (not_eq_sym Hq))).
    assert (boardAfter b fr fc piece m
            = delete cp (<[target m := landed]> (delete (fr, fc) b))) as ->.
    { apply map_eq. intros q. rewrite boardAfter_lookup by done.
      rewrite Hcm. rewrite lookup_delete, lookup_insert, lookup_delete.
      repeat case_decide; simplify_eq; done. }
    destruct (decide (cl = color piece)) as [->|Hcl].
    + rewrite bool_decide_eq_false_2 by (intros [? _]; done).
      rewrite !bool_decide_eq_true_2 in * by done.
      rewrite bool_decide_eq_false_2 in H3 by done. lia.
    + rewrite bool_decide_eq_true_2 by (split; [done|by eexists]).
      rewrite !(bool_decide_eq_false_2 (color piece = cl)) in * by done.
      rewrite bool_decide_eq_true_2 in H3; [lia|].
      destruct (color e), (color piece), cl; done.
  - assert (boardAfter b fr fc piece m
            = <[target m := landed]> (delete (fr, fc) b)) as ->.
    { apply map_eq. intros q. rewrite boardAfter_lookup by done.
      rewrite Hcm. rewrite lookup_insert, lookup_delete.
      repeat case_decide; simplify_eq; done. }
    rewrite bool_decide_eq_false_2 by (intros [_ [? ?]]; done).
    destruct (bool_decide (color piece = cl)); lia.
Qed.

(** X5.  Piece accounting.  Applying a move of the list computed for a
    piece on a square of the board keeps the number of pieces of the
    mover's colour and takes exactly one piece of the other colour off
    the board when the move carries a capture, none otherwise. *)
Theorem movePiece_counts g fr fc tr tc m :
  isValidPosition fr fc = true →
  findMove tr tc (validMoves g) = Some m → computedFor g fr fc →
  ∃ piece g',
    board g !! (fr, fc) = Some piece ∧
    movePiece fr fc tr tc g = Some (tt, g') ∧
    countPieces (board g') (color piece) = countPieces (board g) (color piece) ∧
    ∀ cl, cl ≠ color piece →
          (countPieces (board g') cl + takes m = countPieces (board g) cl)%nat.
Proof.
  intros Hvf Hfind Hcomp.
  destruct (findMove_Some _ _ _ _ Hfind) as (Hin & _ & _).
  destruct (computedFor_move _ _ _ _ Hcomp Hin) as (piece & Hp & Happ & Hshape).
  destruct (movePiece_computed _ _ _ _ _ _ Hfind Hcomp)
    as (piece' & g' & Hp' & _ & _ & _ & Hrun & Hb & _).
  assert (piece' = piece) as -> by congruence.
  exists piece, g'. split_and!; [done|done| |]; rewrite Hb.
  - pose proof (movePiece_counts_board _ _ _ _ m (color piece) Hp Hvf Happ Hshape)
      as Hc.
    rewrite bool_decide_eq_false_2 in Hc by (intros [? _]; done). lia.
  - intros cl Hcl.
    pose proof (movePiece_counts_board _ _ _ _ m cl Hp Hvf Happ Hshape) as Hc.
    unfold takes. destruct (capture m).
    + rewrite bool_decide_eq_true_2 in Hc by (split; [done|by eexists]). done.
    + rewrite bool_decide_eq_false_2 in Hc by (intros [_ [? ?]]; done). done.
Qed.

Lemma movePiece_counts_witness :
  ∃ piece g',
    board doubleJumpSelected !! (5, 1) = Some piece ∧
    movePiece 5 1 3 3 doubleJumpSelected = Some (tt, g') ∧
    countPieces (board g') (color piece)
      = countPieces (board doubleJumpSelected) (color piece) ∧
    ∀ cl, cl ≠ color piece →
          Nat.add (countPieces (board g') cl) (takes (mkMove 3 3 (Some (4, 2))))
          = countPieces (board doubleJumpSelected) cl.
Proof.
  apply (movePiece_counts doubleJumpSelected 5 1 3 3 (mkMove 3 3 (Some (4, 2)))).
  - reflexivity.
  - vm_compute. reflexivity.
  - right. vm_compute. reflexivity.
Defined.

(** X6.  Pieces keep their identity.  After applying a move of the list
    computed for a piece, the landing square holds that piece: it has the
    colour of the piece that stood on the origin, and it is a king exactly
    if that piece was one or is red arriving on row 0 or black arriving
    on row 7.  Every other piece of the new board stood on the same
    square before, with the same colour and rank. *)
Theorem movePiece_pieces_persist g fr fc tr tc m :
  findMove tr tc (validMoves g) = Some m → computedFor g fr fc →
  ∃ piece moved g',
    board g !! (fr, fc) = Some piece ∧
    movePiece fr fc tr tc g = Some (tt, g') ∧
    board g' !! (tr, tc) = Some moved ∧
    color moved = color piece ∧
    king moved = (king piece
                  || bool_decide (color piece = red ∧ tr = 0)
                  || bool_decide (color piece = black ∧ tr = 7)) ∧
    ∀ p q, p ≠ (tr, tc) → board g' !! p = Some q → board g !! p = Some q.
Proof.
  intros Hfind Hcomp.
  destruct (movePiece_computed _ _ _ _ _ _ Hfind Hcomp)
    as (piece & g' & Hp & Happ & Hrow & Hcol & Hrun & Hb & _).
  assert (target m = (tr, tc)) as Htarget.
  { unfold target. by rewrite Hrow, Hcol. }
  exists piece,
         (if promotes piece tr then mkPiece (color piece) true else piece), g'.
  split_and!; [done|done| | | |].
  - rewrite Hb, boardAfter_lookup by done.
    rewrite Htarget, Hrow. by rewrite decide_True.
  - by destruct (promotes piece tr).
  - unfold promotes. destruct piece as [cl k]. cbn [color king].
    destruct (bool_decide (cl = red ∧ tr = 0)),
             (bool_decide (cl = black ∧ tr = 7)), k; reflexivity.
  - intros p q Hne. rewrite Hb, boardAfter_lookup by done.
    rewrite Htarget. rewrite decide_False by done.
    by repeat case_decide.
Qed.

Lemma movePiece_pieces_persist_witness :
  ∃ piece moved g',
    board crowningSelected !! (2, 2) = Some piece ∧
    movePiece 2 2 0 4 crowningSelected = Some (tt, g') ∧
    board g' !! (0, 4) = Some moved ∧
    color moved = color piece ∧
    king moved = (king piece
                  || bool_decide (color piece = red ∧ 0 = 0)
                  || bool_decide (color piece = black ∧ 0 = 7)) ∧
    ∀ p q, p ≠ (0, 4) → board g' !! p = Some q →
           board crowningSelected !! p = Some q.
Proof.
  apply (movePiece_pieces_persist crowningSelected 2 2 0 4
           (mkMove 0 4 (Some (1, 3)))).
  - vm_compute. reflexivity.
  - right. vm_compute. reflexivity.
Defined.

(** ** Game over *)

Lemma handleSquareClick_over g r c :
  gameOver g = true → handleSquareClick r c g = Some (tt, g).
Proof. intros Hgo. unfold handleSquareClick. munfold. by rewrite Hgo. Qed.

Lemma showHint_over g random :
  gameOver g = true → showHint random g = Some (tt, g).
Proof. intros Hgo. unfold showHint. munfold. by rewrite Hgo. Qed.

(** X7.  Game over is absorbing for play: once the game-over flag is set,
    no sequence of clicks, hint presses and starter-toggle changes alters
    the board,
    the selection, the stored moves, the chain flag, the statistics or
    the flag itself (a toggle still overwrites [currentPlayer]); only a
    reset clears the flag. *)
Theorem game_over_absorbing es g :
  gameOver g = true →
  Forall (λ e, e ≠ Reset) es →
  ∃ g', run es g = Some g' ∧
        gameOver g' = true ∧ board g' = board g ∧
        selectedPiece g' = selectedPiece g ∧
        selectedSquare g' = selectedSquare g ∧
        validMoves g' = validMoves g ∧
        continueCapture g' = continueCapture g ∧
        stats g' = stats g ∧ statusMessage g' = statusMessage g ∧
        (Forall (λ e, ∀ checked, e ≠ Toggle checked) es → g' = g).
Proof.
  revert g. induction es as [|e es IH]; intros g Hgo Hes.
  - exists g. by split_and!.
  - apply Forall_cons in Hes as [He Hes].
    destruct e as [r c| |checked|random]; [| done | |].
    + simpl. unfold exec. rewrite handleSquareClick_over by done. simpl.
      destruct (IH g Hgo Hes) as (g' & Hrun & H1 & H2 & H3 & H4 & H5 & H6 & H7 & H8 & H9).
      exists g'. split_and!; try done.
      intros Hnt. apply Forall_cons in Hnt as [_ Hnt]. by apply H9.
    + simpl. unfold exec, toggleStarter. munfold. rewrite updateUI_run.
      cbn [gameOver set_currentPlayer]. rewrite Hgo. simpl.
      destruct (IH (set_currentPlayer (Some (if checked then black else red)) g))
        as (g' & Hrun & H1 & H2 & H3 & H4 & H5 & H6 & H7 & H8 & H9); [done|done|].
      exists g'. split_and!; try done.
      intros Hnt. apply Forall_cons in Hnt as [Hnt _]. by destruct (Hnt checked).
    + simpl. unfold exec. rewrite showHint_over by done. simpl.
      destruct (IH g Hgo Hes) as (g' & Hrun & H1 & H2 & H3 & H4 & H5 & H6 & H7 & H8 & H9).
      exists g'. split_and!; try done.
      intros Hnt. apply Forall_cons in Hnt as [_ Hnt]. by apply H9.
Qed.

Lemma game_over_absorbing_witness :
  ∃ g', run [Click 5 7; Click 4 6; Toggle true; Click 4 6] blockedGame = Some g' ∧
        gameOver g' = true ∧ board g' = board blockedGame ∧
        selectedPiece g' = selectedPiece blockedGame ∧
        selectedSquare g' = selectedSquare blockedGame ∧
        validMoves g' = validMoves blockedGame ∧
        continueCapture g' = continueCapture blockedGame ∧
        stats g' = stats blockedGame ∧
        statusMessage g' = statusMessage blockedGame ∧
        (Forall (λ e, ∀ checked, e ≠ Toggle checked)
                [Click 5 7; Click 4 6; Toggle true; Click 4 6] →
         g' = blockedGame).
Proof.
  apply (game_over_absorbing [Click 5 7; Click 4 6; Toggle true; Click 4 6]
           blockedGame).
  - vm_compute. reflexivity.
  - repeat constructor; discriminate.
Defined.

(** ** Move generation, exactly *)

Lemma emptyRun_extend b r c d lo hi :
  lo <= hi →
  emptyRun b r c d lo hi →
  isValidPosition (stepTo r c d hi).1 (stepTo r c d hi).2 = true →
  b !! stepTo r c d hi = None →
  emptyRun b r c d lo (hi + 1).
Proof.
  intros Hle Hrun Hv He i Hi.
  destruct (decide (i = hi)) as [->|]; [done|]. apply Hrun. lia.
Qed.

Lemma emptyRun_first b r c d lo hi :
  lo < hi → emptyRun b r c d lo hi →
  isValidPosition (stepTo r c d lo).1 (stepTo r c d lo).2 = true ∧
  b !! stepTo r c d lo = None ∧ emptyRun b r c d (lo + 1) hi.
Proof.
  intros Hlt Hrun. destruct (Hrun lo) as [Hv He]; [lia|].
  split_and!; [done..|]. intros i Hi. apply Hrun. lia.
Qed.

Lemma emptyRun_cons b r c d lo hi :
  isValidPosition (stepTo r c d lo).1 (stepTo r c d lo).2 = true →
  b !! stepTo r c d lo = None → emptyRun b r c d (lo + 1) hi →
  emptyRun b r c d lo hi.
Proof.
  intros Hv He Hrun i Hi.
  destruct (decide (i = lo)) as [->|]; [done|]. apply Hrun. lia.
Qed.

Section Rays.
Variables (b : Board) (piece : Piece) (r c : Z) (d : Z * Z).

Lemma slideLoop_S fuel distance :
  slideLoop (S fuel) b r c d.1 d.2 distance =
    if negb (isValidPosition (stepTo r c d distance).1 (stepTo r c d distance).2)
    then Some []
    else if b !! stepTo r c d distance is Some _ then Some []
    else rest ← slideLoop fuel b r c d.1 d.2 (distance + 1);
         Some (moveTo r c d distance None :: rest).
Proof. reflexivity. Qed.

(** The slide collects exactly the squares reached over empty squares. *)
Lemma slideLoop_elem fuel distance ms m :
  slideLoop fuel b r c d.1 d.2 distance = Some ms →
  m ∈ ms ↔
  ∃ k, distance <= k ∧ m = moveTo r c d k None ∧
       emptyRun b r c d distance (k + 1).
Proof.
  revert distance ms.
  induction fuel as [|fuel IH]; intros distance ms Hrun; [done|].
  rewrite slideLoop_S in Hrun.
  destruct (isValidPosition _ _) eqn:Hv; cbn [negb] in Hrun.
  - destruct (b !! stepTo r c d distance) as [q|] eqn:Hsq.
    + inversion Hrun; subst ms. split; [by intros []%elem_of_nil|].
      intros (k & Hk & _ & Hempty).
      destruct (Hempty distance) as [_ He]; [lia|]. congruence.
    + destruct (slideLoop fuel _ _ _ _ _ _) as [rest|] eqn:Hrest; [|done].
      inversion Hrun; subst ms. rewrite elem_of_cons, (IH _ _ Hrest).
      split.
      * intros [->|(k & Hk & -> & Hempty)].
        -- exists distance. split_and!; [lia|done|].
           intros i Hi. by assert (i = distance) as -> by lia.
        -- exists k. split_and!; [lia|done|]. by apply emptyRun_cons.
      * intros (k & Hk & -> & Hempty).
        destruct (decide (k = distance)) as [->|]; [by left|].
        right. exists k. split_and!; [lia|done|].
        apply emptyRun_first in Hempty as (_ & _ & Hempty); [done|lia].
  - inversion Hrun; subst ms. split; [by intros []%elem_of_nil|].
    intros (k & Hk & _ & Hempty).
    destruct (Hempty distance) as [Hv' _]; [lia|]. congruence.
Qed.

Lemma captureLoop_S' fuel distance found enemy :
  captureLoop (S fuel) b piece r c d.1 d.2 distance found enemy =
    if negb (isValidPosition (stepTo r c d distance).1 (stepTo r c d distance).2)
    then Some []
    else
      if negb found then
        match b !! stepTo r c d distance with
        | None => captureLoop fuel b piece r c d.1 d.2 (distance + 1) found enemy
        | Some other =>
            if bool_decide (color other ≠ color piece)
            then captureLoop fuel b piece r c d.1 d.2 (distance + 1)
                             true (Some (stepTo r c d distance))
            else Some []
        end
      else
        match b !! stepTo r c d distance with
        | None =>
            rest ← captureLoop fuel b piece r c d.1 d.2 (distance + 1)
                               found enemy;
            Some (moveTo r c d distance enemy :: rest)
        | Some _ => Some []
        end.
Proof. reflexivity. Qed.

(** Behind the enemy: exactly the squares reached over empty squares. *)
Lemma captureLoop_elem_found fuel distance enemy ms m :
  captureLoop fuel b piece r c d.1 d.2 distance true enemy = Some ms →
  m ∈ ms ↔
  ∃ k, distance <= k ∧ m = moveTo r c d k enemy ∧
       emptyRun b r c d distance (k + 1).
Proof.
  revert distance ms.
  induction fuel as [|fuel IH]; intros distance ms Hrun; [done|].
  rewrite captureLoop_S' in Hrun.
  destruct (isValidPosition _ _) eqn:Hv; cbn [negb] in Hrun.
  - destruct (b !! stepTo r c d distance) as [q|] eqn:Hsq.
    + inversion Hrun; subst ms. split; [by intros []%elem_of_nil|].
      intros (k & Hk & _ & Hempty).
      destruct (Hempty distance) as [_ He]; [lia|]. congruence.
    + destruct (captureLoop fuel _ _ _ _ _ _ _ _ _) as [rest|] eqn:Hrest; [|done].
      inversion Hrun; subst ms. rewrite elem_of_cons, (IH _ _ Hrest).
      split.
      * intros [->|(k & Hk & -> & Hempty)].
        -- exists distance. split_and!; [lia|done|].
           intros i Hi. by assert (i = distance) as -> by lia.
        -- exists k. split_and!; [lia|done|]. by apply emptyRun_cons.
      * intros (k & Hk & -> & Hempty).
        destruct (decide (k = distance)) as [->|]; [by left|].
        right. exists k. split_and!; [lia|done|].
        apply emptyRun_first in Hempty as (_ & _ & Hempty); [done|lia].
  - inversion Hrun; subst ms. split; [by intros []%elem_of_nil|].
    intros (k & Hk & _ & Hempty).
    destruct (Hempty distance) as [Hv' _]; [lia|]. congruence.
Qed.

(** Before any piece: the first piece met must be an enemy, and the
    landings are the empty squares right behind it. *)
Lemma captureLoop_elem_seek fuel distance ms m :
  captureLoop fuel b piece r c d.1 d.2 distance false None = Some ms →
  m ∈ ms ↔
  ∃ j k e, distance <= j < k ∧ emptyRun b r c d distance j ∧
           isValidPosition (stepTo r c d j).1 (stepTo r c d j).2 = true ∧
           b !! stepTo r c d j = Some e ∧ color e ≠ color piece ∧
           emptyRun b r c d (j + 1) (k + 1) ∧
           m = moveTo r c d k (Some (stepTo r c d j)).
Proof.
  revert distance ms.
  induction fuel as [|fuel IH]; intros distance ms Hrun; [done|].
  rewrite captureLoop_S' in Hrun.
  destruct (isValidPosition _ _) eqn:Hv; cbn [negb] in Hrun.
  - destruct (b !! stepTo r c d distance) as [q|] eqn:Hsq.
    + case_bool_decide as Hcol.
      * rewrite (captureLoop_elem_found _ _ _ _ _ Hrun). split.
        -- intros (k & Hk & -> & Hempty).
           exists distance, k, q. split_and!; try done; try lia.
           intros i Hi. lia.
        -- intros (j & k & e & Hjk & Hbefore & Hjv & Hje & Hjc & Hafter & ->).
           assert (j = distance) as ->.
           { destruct (decide (j = distance)); [done|].
             destruct (Hbefore distance) as [_ He]; [lia|]. congruence. }
           exists k. split_and!; [lia|done|done].
      * inversion Hrun; subst ms. split; [by intros []%elem_of_nil|].
        intros (j & k & e & Hjk & Hbefore & Hjv & Hje & Hjc & Hafter & ->).
        destruct (decide (j = distance)) as [->|].
        -- assert (e = q) as -> by congruence. by destruct Hcol.
        -- destruct (Hbefore distance) as [_ He]; [lia|]. congruence.
    + rewrite (IH _ _ Hrun). split.
      * intros (j & k & e & Hjk & Hbefore & Hjv & Hje & Hjc & Hafter & ->).
        exists j, k, e. split_and!; try done; try lia.
        by apply emptyRun_cons.
      * intros (j & k & e & Hjk & Hbefore & Hjv & Hje & Hjc & Hafter & ->).
        assert (j ≠ distance) as Hne by (intros ->; congruence).
        exists j, k, e. split_and!; try done; try lia.
        apply emptyRun_first in Hbefore as (_ & _ & Hbefore); [done|lia].
  - inversion Hrun; subst ms. split; [by intros []%elem_of_nil|].
    intros (j & k & e & Hjk & Hbefore & Hjv & Hje & Hjc & Hafter & ->).
    destruct (decide (j = distance)) as [->|]; [congruence|].
    destruct (Hbefore distance) as [Hv' _]; [lia|]. congruence.
Qed.
End Rays.

Lemma mapM_join_elem_iff {A B} (f : A → option (list B)) (l : list A) ms x :
  mjoin <$> mapM f l = Some ms →
  x ∈ ms ↔ ∃ a ys, a ∈ l ∧ f a = Some ys ∧ x ∈ ys.
Proof.
  intros Hms. split; [by apply mapM_join_elem|].
  intros (a & ys & Ha & Hfa & Hx).
  apply fmap_Some in Hms as (yss & Hyss & ->).
  apply list_elem_of_join. exists ys. split; [done|].
  apply mapM_Some in Hyss.
  apply list_elem_of_lookup in Ha as [i Hi].
  destruct (Forall2_lookup_l _ _ _ _ _ Hyss Hi) as (ys' & Hys' & Hf).
  assert (ys' = ys) as -> by congruence.
  by eapply list_elem_of_lookup_2.
Qed.

Lemma diagonal_elem d :
  diagonal d ↔ d ∈ [(-1, -1); (-1, 1); (1, -1); (1, 1)].
Proof.
  destruct d as [dr dc]. unfold diagonal. simpl.
  rewrite !elem_of_cons, elem_of_nil. split.
  - intros [[-> | ->] [-> | ->]]; tauto.
  - intros [[= -> ->]|[[= -> ->]|[[= -> ->]|[[= -> ->]|[]]]]]; lia.
Qed.

(** X8.  The simple moves of a king are exactly the moves, without
    capture, onto the squares that a walk along one of the four diagonals
    reaches over empty squares of the board; the walk stops at the first
    occupied square and at the edge. *)
Theorem king_normal_moves b r c piece :
  king piece = true → hasRow r = true → b !! (r, c) = Some piece →
  ∃ ms, getNormalMoves b r c = Some ms ∧
        ∀ m, m ∈ ms ↔
             ∃ d k, diagonal d ∧ 1 <= k ∧ m = moveTo r c d k None ∧
                    emptyRun b r c d 1 (k + 1).
Proof.
  intros Hking Hr Hp.
  destruct (getNormalMoves_total _ _ _ _ Hr Hp) as [ms Hms].
  exists ms. split; [done|]. intros m.
  rewrite (getNormalMoves_unfold _ _ _ piece) in Hms by done.
  rewrite (mapM_join_elem_iff _ _ _ m Hms).
  unfold directions. rewrite Hking. split.
  - intros (d & ys & Hd%diagonal_elem & Hys & Hm).
    unfold normalDir in Hys. destruct d as [dRow dCol]. rewrite Hking in Hys.
    apply (slideLoop_elem b r c (dRow, dCol) _ _ _ m) in Hys.
    apply Hys in Hm as (k & Hk & -> & Hempty).
    by exists (dRow, dCol), k.
  - intros (d & k & Hd & Hk & -> & Hempty).
    destruct (normalDir_total b piece r c d Hr Hd) as [ys Hys].
    exists d, ys. split_and!; [by apply diagonal_elem|done|].
    unfold normalDir in Hys. destruct d as [dRow dCol]. rewrite Hking in Hys.
    apply (slideLoop_elem b r c (dRow, dCol) _ _ _ _ Hys).
    by exists k.
Qed.

Lemma king_normal_moves_witness :
  ∃ ms, getNormalMoves longDiagonalBoard 0 0 = Some ms ∧
        ∀ m, m ∈ ms ↔
             ∃ d k, diagonal d ∧ 1 <= k ∧ m = moveTo 0 0 d k None ∧
                    emptyRun longDiagonalBoard 0 0 d 1 (k + 1).
Proof.
  apply (king_normal_moves longDiagonalBoard 0 0 (mkPiece red true));
    reflexivity.
Defined.

(** X9.  The capture moves of a king are exactly these: along one of the
    four diagonals, over empty squares, the first piece met is an enemy
    piece, and the move lands on a square reached from it over empty
    squares of the board, capturing that piece. *)
Theorem king_capture_moves b r c piece :
  king piece = true → hasRow r = true → b !! (r, c) = Some piece →
  ∃ ms, getCaptureMoves b r c = Some ms ∧
        ∀ m, m ∈ ms ↔
             ∃ d j k e,
               diagonal d ∧ 1 <= j < k ∧ emptyRun b r c d 1 j ∧
               isValidPosition (stepTo r c d j).1 (stepTo r c d j).2 = true ∧
               b !! stepTo r c d j = Some e ∧ color e ≠ color piece ∧
               emptyRun b r c d (j + 1) (k + 1) ∧
               m = moveTo r c d k (Some (stepTo r c d j)).
Proof.
  intros Hking Hr Hp.
  destruct (getCaptureMoves_total _ _ _ _ Hr Hp) as [ms Hms].
  exists ms. split; [done|]. intros m.
  rewrite (getCaptureMoves_unfold _ _ _ piece) in Hms by done.
  rewrite (mapM_join_elem_iff _ _ _ m Hms).
  unfold directions. rewrite Hking. split.
  - intros (d & ys & Hd%diagonal_elem & Hys & Hm).
    unfold captureDir in Hys. destruct d as [dRow dCol]. rewrite Hking in Hys.
    apply (captureLoop_elem_seek b piece r c (dRow, dCol) _ _ _ m) in Hys.
    apply Hys in Hm as (j & k & e & Hrest).
    by exists (dRow, dCol), j, k, e.
  - intros (d & j & k & e & Hd & Hrest).
    destruct (captureDir_total b piece r c d Hr Hd) as [ys Hys].
    exists d, ys. split_and!; [by apply diagonal_elem|done|].
    unfold captureDir in Hys. destruct d as [dRow dCol]. rewrite Hking in Hys.
    apply (captureLoop_elem_seek b piece r c (dRow, dCol) _ _ _ _ Hys).
    by exists j, k, e.
Qed.

Lemma king_capture_moves_witness :
  ∃ ms, getCaptureMoves longDiagonalBoard 0 0 = Some ms ∧
        ∀ m, m ∈ ms ↔
             ∃ d j k e,
               diagonal d ∧ 1 <= j < k ∧ emptyRun longDiagonalBoard 0 0 d 1 j ∧
               isValidPosition (stepTo 0 0 d j).1 (stepTo 0 0 d j).2 = true ∧
               longDiagonalBoard !! stepTo 0 0 d j = Some e ∧
               color e ≠ color (mkPiece red true) ∧
               emptyRun longDiagonalBoard 0 0 d (j + 1) (k + 1) ∧
               m = moveTo 0 0 d k (Some (stepTo 0 0 d j)).
Proof.
  apply (king_capture_moves longDiagonalBoard 0 0 (mkPiece red true));
    reflexivity.
Defined.

(** X10.  The moves of a piece that is no king.  Its simple moves are
    exactly the moves one row forward (up for red, down for black) and
    one column to either side, onto an empty square of the board.  Its
    capture moves are exactly the jumps two rows forward and two columns
    to a side, over an enemy piece on the square in between, onto an
    empty square of the board. *)
Theorem man_moves b r c piece :
  king piece = false → hasRow r = true → b !! (r, c) = Some piece →
  ∃ ns cs,
    getNormalMoves b r c = Some ns ∧ getCaptureMoves b r c = Some cs ∧
    (∀ m, m ∈ ns ↔
          ∃ dc, (dc = -1 ∨ dc = 1) ∧
                m = mkMove (r + forward (color piece)) (c + dc) None ∧
                isValidPosition (r + forward (color piece)) (c + dc) = true ∧
                b !! (r + forward (color piece), c + dc) = None) ∧
    (∀ m, m ∈ cs ↔
          ∃ dc e, (dc = -1 ∨ dc = 1) ∧
                  m = mkMove (r + forward (color piece) * 2) (c + dc * 2)
                             (Some (r + forward (color piece), c + dc)) ∧
                  isValidPosition (r + forward (color piece)) (c + dc) = true ∧
                  isValidPosition (r + forward (color piece) * 2)
                                  (c + dc * 2) = true ∧
                  b !! (r + forward (color piece), c + dc) = Some e ∧
                  color e ≠ color piece ∧
                  b !! (r + forward (color piece) * 2, c + dc * 2) = None).
Proof.
  intros Hking Hr Hp.
  destruct (getNormalMoves_total _ _ _ _ Hr Hp) as [ns Hns].
  destruct (getCaptureMoves_total _ _ _ _ Hr Hp) as [cs Hcs].
  exists ns, cs. split_and!; [done|done| |].
  - intros m. rewrite (getNormalMoves_unfold _ _ _ piece) in Hns by done.
    rewrite (mapM_join_elem_iff _ _ _ m Hns).
    assert (directions piece
            = [(forward (color piece), -1); (forward (color piece), 1)]) as ->.
    { unfold directions. rewrite Hking. by destruct (color piece). }
    split.
    + intros ([dRow dCol] & ys & Hd & Hys & Hm).
      assert (dRow = forward (color piece) ∧ (dCol = -1 ∨ dCol = 1)) as [-> HdCol].
      { apply elem_of_cons in Hd as [[= -> ->]|Hd]; [by split; [|left]|].
        apply list_elem_of_singleton in Hd as [= -> ->]. by split; [|right]. }
      unfold normalDir in Hys. rewrite Hking in Hys.
      destruct (isValidPosition _ _) eqn:Hv; cbn [andb] in Hys;
        [|inversion Hys; subst; by apply elem_of_nil in Hm].
      case_bool_decide as He;
        [|inversion Hys; subst; by apply elem_of_nil in Hm].
      inversion Hys; subst ys. apply list_elem_of_singleton in Hm as ->.
      by exists dCol.
    + intros (dc & Hdc & -> & Hv & He).
      exists (forward (color piece), dc), [mkMove (r + forward (color piece)) (c + dc) None].
      split_and!.
      * destruct Hdc as [-> | ->]; [by left|right; by left].
      * unfold normalDir. rewrite Hking, Hv.
        by rewrite bool_decide_eq_true_2.
      * by apply list_elem_of_singleton.
  - intros m. rewrite (getCaptureMoves_unfold _ _ _ piece) in Hcs by done.
    rewrite (mapM_join_elem_iff _ _ _ m Hcs).
    assert (directions piece
            = [(forward (color piece), -1); (forward (color piece), 1)]) as ->.
    { unfold directions. rewrite Hking. by destruct (color piece). }
    split.
    + intros ([dRow dCol] & ys & Hd & Hys & Hm).
      assert (dRow = forward (color piece) ∧ (dCol = -1 ∨ dCol = 1)) as [-> HdCol].
      { apply elem_of_cons in Hd as [[= -> ->]|Hd]; [by split; [|left]|].
        apply list_elem_of_singleton in Hd as [= -> ->]. by split; [|right]. }
      unfold captureDir in Hys. rewrite Hking in Hys.
      destruct (isValidPosition (r + _) (c + dCol)) eqn:Hv1; cbn [andb] in Hys;
        [|inversion Hys; subst; by apply elem_of_nil in Hm].
      destruct (isValidPosition _ _) eqn:Hv2 in Hys;
        [|inversion Hys; subst; by apply elem_of_nil in Hm].
      destruct (b !! (r + forward (color piece), c + dCol)) as [e|] eqn:He;
        [|inversion Hys; subst; by apply elem_of_nil in Hm].
      destruct (b !! (r + forward (color piece) * 2, c + dCol * 2)) eqn:Hl;
        [inversion Hys; subst; by apply elem_of_nil in Hm|].
      case_bool_decide as Hcol;
        [|inversion Hys; subst; by apply elem_of_nil in Hm].
      inversion Hys; subst ys. apply list_elem_of_singleton in Hm as ->.
      by exists dCol, e.
    + intros (dc & e & Hdc & -> & Hv1 & Hv2 & He & Hcol & Hl).
      eexists (forward (color piece), dc), _.
      split_and!.
      * destruct Hdc as [-> | ->]; [by left|right; by left].
      * unfold captureDir. rewrite Hking, Hv1, Hv2. cbn [andb].
        rewrite He, Hl. by rewrite bool_decide_eq_true_2.
      * by apply list_elem_of_singleton.
Qed.

Lemma man_moves_witness :
  ∃ ns cs,
    getNormalMoves doubleJumpBoard 5 1 = Some ns ∧
    getCaptureMoves doubleJumpBoard 5 1 = Some cs ∧
    (∀ m, m ∈ ns ↔
          ∃ dc, (dc = -1 ∨ dc = 1) ∧
                m = mkMove (5 + forward (color (mkPiece red false))) (1 + dc) None ∧
                isValidPosition (5 + forward (color (mkPiece red false)))
                                (1 + dc) = true ∧
                doubleJumpBoard
                  !! (5 + forward (color (mkPiece red false)), 1 + dc) = None) ∧
    (∀ m, m ∈ cs ↔
          ∃ dc e, (dc = -1 ∨ dc = 1) ∧
                  m = mkMove (5 + forward (color (mkPiece red false)) * 2)
                             (1 + dc * 2)
                             (Some (5 + forward (color (mkPiece red false)),
                                    1 + dc)) ∧
                  isValidPosition (5 + forward (color (mkPiece red false)))
                                  (1 + dc) = true ∧
                  isValidPosition (5 + forward (color (mkPiece red false)) * 2)
                                  (1 + dc * 2) = true ∧
                  doubleJumpBoard
                    !! (5 + forward (color (mkPiece red false)), 1 + dc) = Some e ∧
                  color e ≠ color (mkPiece red false) ∧
                  doubleJumpBoard
                    !! (5 + forward (color (mkPiece red false)) * 2, 1 + dc * 2)
                  = None).
Proof.
  apply (man_moves doubleJumpBoard 5 1 (mkPiece red false)); reflexivity.
Defined.

(** ** Selecting *)

(** X11.  What a click does when it is not a move.  In a running game
    with no chain pending, a click on a square of the board that is not
    a stored destination never changes the board, the side to move, the
    game-over and chain flags or the statistics.  On a piece of the side
    to move it selects that piece and stores its legal moves under the
    forced-capture rule; on an empty square or a piece of the other side
    it clears the selection and the stored moves. *)
Theorem click_selects g r c :
  gameOver g = false → continueCapture g = false →
  isValidPosition r c = true → isValidMove r c g = false →
  ∃ g',
    handleSquareClick r c g = Some (tt, g') ∧
    board g' = board g ∧ currentPlayer g' = currentPlayer g ∧
    gameOver g' = false ∧ continueCapture g' = false ∧ stats g' = stats g ∧
    match board g !! (r, c) with
    | Some p =>
        if bool_decide (Some (color p) = currentPlayer g)
        then selectedSquare g' = Some (r, c) ∧ selectedPiece g' = Some p ∧
             legalMoves (board g) r c = Some (validMoves g')
        else selectedSquare g' = None ∧ selectedPiece g' = None ∧
             validMoves g' = []
    | None => selectedSquare g' = None ∧ selectedPiece g' = None ∧
              validMoves g' = []
    end.
Proof.
  intros Hgo Hcc Hv Hmv. pose proof (isValidPosition_hasRow _ _ Hv) as Hr.
  unfold handleSquareClick. munfold. rewrite Hgo.
  rewrite readSquare_Some by done. rewrite Hmv, andb_false_r.
  assert (∃ g', deselectPiece g = Some (tt, g') ∧
                board g' = board g ∧ currentPlayer g' = currentPlayer g ∧
                gameOver g' = false ∧ continueCapture g' = false ∧
                stats g' = stats g ∧
                selectedSquare g' = None ∧ selectedPiece g' = None ∧
                validMoves g' = []) as Hdes.
  { destruct (deselectPiece_run g)
      as (g' & Hrun & Hb & Hcp & Hcc' & Hgo' & Hst & _ & _ & Hrest).
    rewrite Hcc in Hrest. destruct Hrest as (Hsp & Hss & Hvm).
    exists g'. split_and!; try done; congruence. }
  destruct (board g !! (r, c)) as [p|] eqn:Hp.
  - destruct (bool_decide (Some (color p) = currentPlayer g)) eqn:Hcl.
    + rewrite Hcc. cbn [andb].
      destruct (selectPiece_run g r c p Hr Hp)
        as (g' & Hrun & Hb & Hcp & Hss & Hsp & Hcc' & Hgo' & Hst & _ & _ & Hvm).
      rewrite Hcc in Hvm.
      exists g'. split_and!; try done; congruence.
    + destruct Hdes as (g' & Hrun & Hb & Hcp & Hgo' & Hcc' & Hst & Hss & Hsp & Hvm).
      exists g'. by split_and!.
  - destruct Hdes as (g' & Hrun & Hb & Hcp & Hgo' & Hcc' & Hst & Hss & Hsp & Hvm).
      exists g'. by split_and!.
Qed.

Lemma click_selects_witness :
  ∃ g',
    handleSquareClick 5 1 opening = Some (tt, g') ∧
    board g' = board opening ∧ currentPlayer g' = currentPlayer opening ∧
    gameOver g' = false ∧ continueCapture g' = false ∧
    stats g' = stats opening ∧
    match board opening !! (5, 1) with
    | Some p =>
        if bool_decide (Some (color p) = currentPlayer opening)
        then selectedSquare g' = Some (5, 1) ∧ selectedPiece g' = Some p ∧
             legalMoves (board opening) 5 1 = Some (validMoves g')
        else selectedSquare g' = None ∧ selectedPiece g' = None ∧
             validMoves g' = []
    | None => selectedSquare g' = None ∧ selectedPiece g' = None ∧
              validMoves g' = []
    end.
Proof. apply (click_selects opening 5 1); reflexivity. Defined.

(** ** The win test's scan *)

(** X12.  [playerHasValidMoves] answers whether some piece of the given
    colour, on one of the 64 squares, has a non-empty list of legal moves
    under the forced-capture rule; it always returns, changes nothing but
    the [mustCapture] flag, and for [null] as colour the answer is no. *)
Theorem playerHasValidMoves_meaning cl g :
  ∃ v g',
    playerHasValidMoves cl g = Some (v, g') ∧
    (∃ flag, g' = set_mustCapture flag g) ∧
    (v = true ↔
     ∃ r c piece ms,
       isValidPosition r c = true ∧ board g !! (r, c) = Some piece ∧
       Some (color piece) = cl ∧ legalMoves (board g) r c = Some ms ∧
       ms ≠ []) ∧
    (cl = None → v = false).
Proof.
  destruct (playerHasValidMoves_spec cl g) as (v & g' & Hrun & Hsame & Hv).
  exists v, g'. split_and!; [done|done|done|].
  intros ->. destruct v; [|done].
  destruct (proj1 Hv eq_refl) as (r & c & piece & ms & _ & _ & Hcl & _). done.
Qed.

(** ** Statistics *)


Lemma showHint_stats random g g' :
  showHint random g = Some (tt, g') →
  stats g' = stats g ∧ gameOver g' = gameOver g ∧ board g' = board g ∧
  currentPlayer g' = currentPlayer g ∧
  continueCapture g' = continueCapture g.
Proof.
  intros Hrun. destruct (showHint_run random g) as (g2 & Hrun2 & Hout).
  assert (g2 = g') as -> by congruence.
  destruct Hout as [[_ ->]|(_ & g1 & [v ->] & Hout)]; [done|].
  destruct Hout as [[_ ->]|(r & c & piece & ms & g2 & Hv & Hp & _ & _ & _
                            & Hsel & ->)]; [done|].
  destruct (selectPiece_run (set_mustCapture v g) r c piece)
    as (g3 & Hrun3 & Hb & Hcp & _ & _ & Hcc & Hgo & Hst & _);
    [by eapply isValidPosition_hasRow|done|].
  assert (g3 = g2) as -> by congruence.
  cbn [stats gameOver board currentPlayer continueCapture set_statusMessage].
  by rewrite Hst, Hgo, Hb, Hcp, Hcc.
Qed.



(** ** The initial layout *)

(** X14.  [initBoard] builds the standard layout: a square of the grid
    with [row + col] even holds a black piece on rows 0..2 and a red
    piece on rows 5..7, none of them a king; every other square, and
    everything off the grid, is empty. *)
Theorem initBoard_layout r c : initBoard !! (r, c) = layout r c.
Proof.
  destruct (isValidPosition r c) eqn:Hv.
  - assert (Forall (λ p : Pos, initBoard !! p = layout p.1 p.2) allSquares)
      as Hall.
    { refine (bool_decide_unpack _ _). vm_compute. reflexivity. }
    rewrite Forall_forall in Hall.
    apply (Hall (r, c)). by apply elem_of_allSquares.
  - unfold layout. rewrite Hv. cbn [andb].
    destruct (initBoard !! (r, c)) as [p|] eqn:Hp; [|done].
    destruct (initBoard_dark r c p Hp) as [Hv' _]. congruence.
Qed.

(** ** Forced capture in play *)

(** X15.  Forced capture as the player meets it.  In every reachable
    state with a piece selected: if the side of that piece has a capture
    anywhere on the board, every stored destination carries a capture,
    so the click that applies a move can only apply a capture. *)
Theorem forced_capture_in_play g r c p :
  reachable g → selectedSquare g = Some (r, c) →
  board g !! (r, c) = Some p → captureSetNonEmpty (board g) (color p) →
  ∀ m, m ∈ validMoves g → is_Some (capture m).
Proof.
  intros Hreach Hsel Hp (alls & Halls & Hne) m Hm.
  destruct (reachable_sound g Hreach) as (_ & Hcons & _).
  destruct Hcons as [Hnil|(r' & c' & Hsel' & Hcomp)].
  { rewrite Hnil in Hm. by apply elem_of_nil in Hm. }
  assert (r' = r ∧ c' = c) as [-> ->] by (split; congruence).
  assert (captureOn (board g) (color p) r c m) as Hcap.
  { destruct Hcomp as [Hcaps|Hlegal].
    - by eapply getCaptureMoves_moves.
    - apply legalMoves_inv in Hlegal as [_ Hinv]. rewrite Hp in Hinv.
      destruct Hinv as (caps & alls' & Hcaps & Halls' & [[_ Heq]|[-> _]]);
        [|congruence].
      rewrite Heq in Hm. by eapply getCaptureMoves_moves. }
  destruct Hcap as (d & j & k & e & _ & _ & _ & _ & _ & -> & _). by eexists.
Qed.

Lemma forced_capture_in_play_witness :
  Forall (λ m, is_Some (capture m)) (validMoves midChain).
Proof.
  apply Forall_forall.
  apply (forced_capture_in_play midChain 3 5 (mkPiece black false)).
  - exact midChain_reachable.
  - vm_compute. reflexivity.
  - vm_compute. reflexivity.
  - exists [mkMove 5 3 (Some (4, 4))]. split; [vm_compute; reflexivity|done].
Defined.

(** ** The two copies of the engine *)

Lemma set_stats_id g : set_stats (stats g) g = g.
Proof. by destruct g. Qed.

Lemma checkWinCondition_legacy g :
  ∃ g1, checkWinCondition g = Some (tt, g1) ∧
        Legacy.checkWinCondition g = Some (tt, set_stats (stats g) g1).
Proof.
  unfold checkWinCondition, Legacy.checkWinCondition. munfold.
  destruct (bool_decide (countPieces (board g) red = 0%nat)).
  { eexists. split; reflexivity. }
  destruct (bool_decide (countPieces (board g) black = 0%nat)).
  { eexists. split; reflexivity. }
  destruct (playerHasValidMoves_spec (currentPlayer g) g)
    as (v & g' & Hrun & [flag ->] & _).
  rewrite Hrun. destruct v; cbn [negb].
  - eexists. split; [reflexivity|]. by destruct g.
  - eexists. split; reflexivity.
Qed.

Lemma endTurn_legacy g :
  ∃ g1, endTurn checkWinCondition g = Some (tt, g1) ∧
        endTurn Legacy.checkWinCondition g = Some (tt, set_stats (stats g) g1).
Proof.
  rewrite !endTurn_unfold.
  destruct (checkWinCondition_legacy (turnReset g)) as (g1 & -> & ->).
  rewrite !updateUI_run. eexists. split; [reflexivity|].
  change (stats (turnReset g)) with (stats g).
  cbn [gameOver currentPlayer set_stats].
  by destruct (gameOver g1).
Qed.

Lemma selectPiece_stats g r c g' :
  selectPiece r c g = Some (tt, g') → stats g' = stats g.
Proof.
  unfold selectPiece. munfold.
  destruct (readSquare _ _ _) as [sq|]; [|done].
  cbn [board continueCapture set_selectedPiece set_selectedSquare].
  destruct (continueCapture g).
  - destruct (getCaptureMoves _ _ _); [|done]. by intros [= <-].
  - destruct (getValidMoves _ _ _) as [[ms g1]|] eqn:Hrun; [|done].
    intros [= <-]. by apply getValidMoves_inv in Hrun as [_ [v ->]].
Qed.

Lemma finishMove_legacy g tr tc wasCapture g1 :
  finishMove checkWinCondition tr tc wasCapture g = Some (tt, g1) →
  finishMove Legacy.checkWinCondition tr tc wasCapture g
    = Some (tt, set_stats (stats g) g1).
Proof.
  unfold finishMove. munfold.
  destruct (endTurn_legacy g) as (gE & HrunE & HrunL).
  destruct wasCapture; [|rewrite HrunE, HrunL; by intros [= <-]].
  destruct (getCaptureMoves _ _ _) as [caps|]; [|done].
  destruct (bool_decide _); [|rewrite HrunE, HrunL; by intros [= <-]].
  destruct (selectPiece _ _ _) as [[[] g2]|] eqn:Hsel; [|done].
  apply selectPiece_stats in Hsel.
  unfold updateStatusMessage. munfold. intros [= <-].
  f_equal. f_equal. cbn in Hsel. rewrite <- Hsel.
  by destruct g2.
Qed.

(** X16.  Where the two copies of [movePiece] differ.  On a move that
    does not promote, the older copy returns whenever [game.js] does, and
    with the same state except for the statistics, which the older copy
    never touches (its [endGame] records no win).  Together with C2 this
    leaves the promoting move as the only difference in play. *)
Theorem legacy_movePiece_agrees g fr fc tr tc m piece g1 :
  findMove tr tc (validMoves g) = Some m →
  board g !! (fr, fc) = Some piece →
  promotes piece tr = false →
  movePiece fr fc tr tc g = Some (tt, g1) →
  Legacy.movePiece fr fc tr tc g = Some (tt, set_stats (stats g) g1).
Proof.
  intros Hfind Hp Hprom. unfold movePiece, Legacy.movePiece. munfold.
  rewrite Hfind. unfold promotes in Hprom.
  destruct (readSquare _ _ _) as [sq|] eqn:Hread; [|done].
  apply readSquare_inv in Hread as [_ ->]. rewrite Hp.
  destruct (relocate _ _ _ _ _ _ _) as [[wasCapture g2]|] eqn:Hrel; [|done].
  rewrite Hprom.
  assert (stats g2 = stats g) as Hst.
  { unfold relocate, writeBoard in Hrel. munfold.
    cbn [board set_board] in Hrel.
    repeat (destruct (writeSquare _ _ _ _); [|done]).
    cbn [board set_board] in Hrel.
    destruct (capture m) as [[capRow capCol]|].
    - munfold. cbn [board set_board] in Hrel.
      destruct (writeSquare _ _ _ _); [|done]. by inversion Hrel.
    - by inversion Hrel. }
  intros Hrun. apply finishMove_legacy in Hrun. by rewrite Hst in Hrun.
Qed.

Lemma legacy_movePiece_agrees_witness :
  ∃ g1, movePiece 5 1 4 2 openingSelected = Some (tt, g1) ∧
        Legacy.movePiece 5 1 4 2 openingSelected
          = Some (tt, set_stats (stats openingSelected) g1).
Proof.
  eexists. split; [vm_compute; reflexivity|].
  apply (legacy_movePiece_agrees openingSelected 5 1 4 2 (mkMove 4 2 None)
           (mkPiece red false)).
  - vm_compute. reflexivity.
  - reflexivity.
  - reflexivity.
  - vm_compute. reflexivity.
Defined.

(** ** The start button and the hint button *)

(** X17.  The start button leaves the game without a side to move,
    whichever starter was chosen on the setup screen, and every click on
    the board then leaves the state as it is: nothing can be selected or
    moved until the starter toggle changes. *)
Theorem start_has_no_side_to_move saved start es :
  Forall isClick es →
  currentPlayer (startGame saved start) = None ∧
  run es (startGame saved start) = Some (startGame saved start).
Proof.
  intros Hes. split; [reflexivity|].
  induction Hes as [|e es He Hes IH]; [reflexivity|].
  destruct e as [r c| | |]; [|done..]. simpl in He.
  rewrite run_cons.
  assert (handleSquareClick r c (startGame saved start)
          = Some (tt, startGame saved start)) as Hclick.
  { destruct (handleSquareClick_cases (startGame saved start) r c)
      as (g' & Hrun & Hout); [by left|done|].
    rewrite Hrun. do 2 f_equal.
    destruct Hout as [->|sr sc m Hsel _ _ _|p _ _ Hcl _ _|_ _ Hdes];
      [done|done|done|].
    unfold deselectPiece in Hdes. munfold. simpl in Hdes.
    by inversion Hdes. }
  unfold exec. cbn [handle]. rewrite Hclick. exact IH.
Qed.

Lemma start_has_no_side_to_move_witness :
  currentPlayer (startGame None black) = None ∧
  run [Click 2 0; Click 3 1; Click 5 1; Click 4 2] (startGame None black)
  = Some (startGame None black).
Proof.
  apply (start_has_no_side_to_move None black
           [Click 2 0; Click 3 1; Click 5 1; Click 4 2]).
  repeat constructor.
Defined.

(** X18.  The hint button, while the game runs.  It always returns and
    leaves the board, the side to move, the flags and the statistics
    alone.  If the side to move has no piece with a legal move under the
    forced-capture rule, only the status line changes.  Otherwise it
    selects a piece of the side to move that has such a move, whatever
    was selected before, and stores the moves [selectPiece] computes for
    it: its captures while the chain flag is set, its legal moves
    otherwise. *)
Theorem showHint_selects random g :
  gameOver g = false →
  ∃ g',
    showHint random g = Some (tt, g') ∧
    board g' = board g ∧ currentPlayer g' = currentPlayer g ∧
    gameOver g' = false ∧ continueCapture g' = continueCapture g ∧
    stats g' = stats g ∧
    (¬ hasLegalMove (board g) (currentPlayer g) ∧
     statusMessage g' = SinMovimientos ∧
     selectedSquare g' = selectedSquare g ∧
     selectedPiece g' = selectedPiece g ∧ validMoves g' = validMoves g
     ∨
     ∃ r c piece ms,
       isValidPosition r c = true ∧ board g !! (r, c) = Some piece ∧
       Some (color piece) = currentPlayer g ∧
       legalMoves (board g) r c = Some ms ∧ ms ≠ [] ∧
       statusMessage g' = Pista ∧
       selectedSquare g' = Some (r, c) ∧ selectedPiece g' = Some piece ∧
       if continueCapture g
       then getCaptureMoves (board g) r c = Some (validMoves g')
       else validMoves g' = ms).
Proof.
  intros Hgo. destruct (showHint_run random g) as (g' & Hrun & Hout).
  exists g'. split; [done|].
  destruct (showHint_stats _ _ _ Hrun) as (Hst & Hgo' & Hb & Hcp & Hcc).
  split_and!; [done|done|congruence|done|done|].
  destruct Hout as [[Hover _]|(_ & g1 & [v ->] & Hout)]; [congruence|].
  destruct Hout as [[Hno ->]|(r & c & piece & ms & g2 & Hv & Hp & Hcl & Hl
                              & Hne & Hsel & ->)].
  - left. by split_and!.
  - right. exists r, c, piece, ms.
    destruct (selectPiece_run (set_mustCapture v g) r c piece)
      as (g3 & Hrun3 & _ & _ & Hss & Hsp & _ & _ & _ & _ & _ & Hvm);
      [by eapply isValidPosition_hasRow|done|].
    assert (g3 = g2) as -> by congruence.
    cbn [board continueCapture set_mustCapture] in Hvm.
    split_and!; [done..|].
    cbn [validMoves set_statusMessage].
    destruct (continueCapture g); [done|congruence].
Qed.

Lemma showHint_selects_witness :
  ∃ g',
    showHint 3 opening = Some (tt, g') ∧
    board g' = board opening ∧ currentPlayer g' = currentPlayer opening ∧
    gameOver g' = false ∧ continueCapture g' = continueCapture opening ∧
    stats g' = stats opening ∧
    (¬ hasLegalMove (board opening) (currentPlayer opening) ∧
     statusMessage g' = SinMovimientos ∧
     selectedSquare g' = selectedSquare opening ∧
     selectedPiece g' = selectedPiece opening ∧
     validMoves g' = validMoves opening
     ∨
     ∃ r c piece ms,
       isValidPosition r c = true ∧ board opening !! (r, c) = Some piece ∧
       Some (color piece) = currentPlayer opening ∧
       legalMoves (board opening) r c = Some ms ∧ ms ≠ [] ∧
       statusMessage g' = Pista ∧
       selectedSquare g' = Some (r, c) ∧ selectedPiece g' = Some piece ∧
       if continueCapture opening
       then getCaptureMoves (board opening) r c = Some (validMoves g')
       else validMoves g' = ms).
Proof. apply (showHint_selects 3 opening). reflexivity. Defined.
